(** * The ODP linux-generic event scheduler (odp_schedule.c)

    A shallow embedding of [platform/linux-generic/odp_schedule.c]: the
    priority fabric ([pri_mask], [pri_count], the lanes), the per-thread
    context [sched_local], the dispatcher [schedule] and its waiting wrapper
    [schedule_loop], the context release functions, the ordered locks and the
    schedule groups.

    One call of a scheduler function by one thread is modelled as a function
    on the shared state; what other threads do between two atomic loads of an
    ordered-lock counter is an explicit interference function. *)

From stdpp Require Import base numbers list gmap.

Open Scope Z_scope.

(** ** Machine integers *)

(** [uint8_t], [uint32_t] and [uint64_t] values are integers reduced modulo
    their width. *)
Definition wrap8 (z : Z) : Z := z `mod` 2 ^ 8.
Definition wrap32 (z : Z) : Z := z `mod` 2 ^ 32.
Definition wrap64 (z : Z) : Z := z `mod` 2 ^ 64.

Definition UINT32_MAX : Z := 2 ^ 32 - 1.
Definition UINT64_MAX : Z := 2 ^ 64 - 1.

(** ** Outcomes of a call *)

(** A call returns, or ends the process through [ODP_ABORT], or has no
    behaviour defined by the C standard (an array index out of range, a
    pointer that designates no object). [NO_FUEL] is the answer of a bounded
    unrolling of a spin loop that is still spinning. *)
Inductive fault : Type := ABORT | UNDEFINED | NO_FUEL.

Inductive result (A : Type) : Type :=
  | Ok (a : A)
  | Fault (f : fault).

Arguments Ok {A} a.
Arguments Fault {A} f.

#[global] Instance result_ret : MRet result := fun A a => Ok a.

#[global] Instance result_bind : MBind result :=
  fun A B f r => match r with Ok a => f a | Fault e => Fault e end.

(** A pointer or handle that must designate an object. *)
Definition deref {A : Type} (o : option A) : result A :=
  match o with Some a => Ok a | None => Fault UNDEFINED end.

(** ** C arrays *)

(** An array is a list; an [int] index outside of it designates nothing. *)
Definition zget {A : Type} (l : list A) (i : Z) : option A :=
  if decide (0 ≤ i) then l !! Z.to_nat i else None.

Definition zset {A : Type} (l : list A) (i : Z) (a : A) : list A :=
  if decide (0 ≤ i) then <[Z.to_nat i := a]> l else l.

Definition zget2 {A : Type} (l : list (list A)) (i j : Z) : option A :=
  row ← zget l i; zget row j.

Definition zset2 {A : Type} (l : list (list A)) (i j : Z) (a : A)
  : list (list A) :=
  match zget l i with
  | Some row => zset l i (zset row j a)
  | None => l
  end.

(** ** Configuration *)

(** Scheduler sub queues: [#define QUEUES_PER_PRIO 4]. *)
Definition QUEUES_PER_PRIO : Z := 4.

(** Maximum number of dequeues: [#define MAX_DEQ 4]. *)
Definition MAX_DEQ : Z := 4.

(** Modelled from the spec: the well-known schedule groups are declared in
    the API headers, which are not part of the sources at hand; the spec
    gives them the indices 0..W-1 in the order ALL, WORKER, CONTROL. *)
Definition ODP_SCHED_GROUP_ALL : Z := 0.
Definition ODP_SCHED_GROUP_WORKER : Z := 1.
Definition ODP_SCHED_GROUP_CONTROL : Z := 2.

(** Internal: start of named groups in group mask arrays. *)
Definition _ODP_SCHED_GROUP_NAMED : Z := ODP_SCHED_GROUP_CONTROL + 1.

(** The constants of [odp/config.h], [odp/schedule.h] and
    [odp_debug_internal.h] that the scheduler uses. Those headers are not part
    of the sources at hand, so the constants are parameters of the model. *)
Class odp_config : Type := {
  (** number of scheduling priorities, P *)
  ODP_CONFIG_SCHED_PRIOS : Z;
  (** size of the schedule group table, G *)
  ODP_CONFIG_SCHED_GRPS : Z;
  (** size of a group name buffer, N *)
  ODP_SCHED_GROUP_NAME_LEN : Z;
  (** the invalid group handle *)
  ODP_SCHED_GROUP_INVALID : Z;
  (** the two sentinels of the [wait] parameter *)
  ODP_SCHED_WAIT : Z;
  ODP_SCHED_NO_WAIT : Z;
  (** whether [ODP_ASSERT] checks its condition *)
  ODP_DEBUG : bool;
  (** number of thread identifiers, T: the width of a thread mask *)
  ODP_CONFIG_MAX_THREADS : Z;
  (** number of ordered locks per queue, K *)
  ODP_CONFIG_MAX_ORDERED_LOCKS_PER_QUEUE : Z;
}.

(** Modelled from the spec: the values the spec names (P = 8) and, for the
    constants it leaves open, those of the linux-generic headers. Only the
    closed examples use this instance. *)
Definition linux_generic : odp_config := {|
  ODP_CONFIG_SCHED_PRIOS := 8;
  ODP_CONFIG_SCHED_GRPS := 16;
  ODP_SCHED_GROUP_NAME_LEN := 32;
  ODP_SCHED_GROUP_INVALID := -1;
  ODP_SCHED_WAIT := UINT64_MAX;
  ODP_SCHED_NO_WAIT := 0;
  ODP_DEBUG := true;
  ODP_CONFIG_MAX_THREADS := 128;
  ODP_CONFIG_MAX_ORDERED_LOCKS_PER_QUEUE := 2;
|}.

(** ** Substrate: thread masks *)

(** Modelled from the spec: [odp_thrmask_t] and its operations belong to the
    thread module, which is not part of the sources at hand. The spec
    describes a bitset over the thread identifiers with zero, setall,
    set/clr, test, copy, or, and, xor. A mask is the integer whose bit [t] is
    set iff thread [t] is a member; a well-formed mask has no bit at or above
    [ODP_CONFIG_MAX_THREADS]. *)
Module Thrmask.
Section Thrmask.
Context {cfg : odp_config}.

Definition wf (m : Z) : Prop := 0 ≤ m < 2 ^ ODP_CONFIG_MAX_THREADS.

Definition odp_thrmask_zero : Z := 0.

Definition odp_thrmask_setall : Z := 2 ^ ODP_CONFIG_MAX_THREADS - 1.

Definition odp_thrmask_isset (m thr : Z) : bool := Z.testbit m thr.

Definition odp_thrmask_or (src1 src2 : Z) : Z := Z.lor src1 src2.

Definition odp_thrmask_and (src1 src2 : Z) : Z := Z.land src1 src2.

Definition odp_thrmask_xor (src1 src2 : Z) : Z := Z.lxor src1 src2.

End Thrmask.
End Thrmask.
Export Thrmask.

(** ** Data model *)

(** Synchronisation class of a source queue, as read by [queue_is_ordered]
    and [queue_is_atomic]. *)
Inductive sched_sync_t : Type :=
  | SYNC_NONE      (* parallel *)
  | SYNC_ATOMIC
  | SYNC_ORDERED.

#[global] Instance sched_sync_eq_dec : EqDecision sched_sync_t.
Proof. solve_decision. Defined.

(** The fields of [odp_buffer_hdr_t] the scheduler reads: the event handle,
    and the sequence numbers an ordered queue assigned to the event. *)
Record odp_buffer_hdr_t : Type := {
  handle : Z;
  hdr_order : Z;
  hdr_sync : list Z;
}.

(** The fields of [queue_entry_t] the scheduler reads or writes, and the
    events waiting in the queue. [q_destroyed] is the state in which
    [queue_deq_multi] answers with a negative count. *)
Record queue_entry_t : Type := {
  q_handle : Z;
  q_prio : Z;                      (* param.sched.prio *)
  q_group : Z;                     (* param.sched.group *)
  q_sync : sched_sync_t;           (* param.sched.sync *)
  q_lock_count : Z;                (* param.sched.lock_count, unsigned *)
  q_sync_out : list Z;             (* sync_out[], atomic uint64_t *)
  q_pri_queue : option Z;          (* s.pri_queue *)
  q_cmd_ev : option Z;             (* s.cmd_ev *)
  q_events : list odp_buffer_hdr_t;
  q_destroyed : bool;
}.

Definition queue_is_ordered (qe : queue_entry_t) : bool :=
  bool_decide (q_sync qe = SYNC_ORDERED).

Definition queue_is_atomic (qe : queue_entry_t) : bool :=
  bool_decide (q_sync qe = SYNC_ATOMIC).

(** Schedule command: [cmd] and the union it selects. *)
Inductive sched_cmd_t : Type :=
  | SCHED_CMD_DEQUEUE (qe : Z)
  | SCHED_CMD_POLL_PKTIN (pktio : Z) (pe : Z) (prio : Z).

(** One entry of [sched_grp]. The name is the [char] array, the mask is the
    thread mask the entry points to. *)
Record sched_grp_t : Type := {
  name : list Z;
  mask : Z;
}.

(** Global scheduler context ([sched_t]); the locks, the pool and the shm
    handle carry no data of the model. *)
Record sched_t : Type := {
  pri_queue : list (list Z);
  pri_mask : list Z;
  pri_count : list (list Z);
  sched_grp : list sched_grp_t;
}.

(** Thread local scheduler context ([sched_local_t]). [None] is
    [ODP_QUEUE_INVALID], [ODP_EVENT_INVALID] or [NULL]; [l_buf_hdr] is the
    array of [MAX_DEQ] pointers to buffer headers. *)
Record sched_local_t : Type := {
  l_pri_queue : option Z;
  l_cmd_ev : option Z;
  l_buf_hdr : list (option odp_buffer_hdr_t);
  l_qe : option Z;
  l_origin_qe : option Z;
  l_order : Z;
  l_sync : list Z;
  l_pool : Z;
  l_enq_called : Z;
  l_num : Z;
  l_index : Z;
  l_pause : Z;
  l_ignore_ordered_context : Z;
}.

(** What one thread sees: the global context, its own local context, the
    queue entries (by address), the lane queues (by handle, absent when the
    queue does not exist) and the command buffers (by event handle). *)
Record odp_state : Type := {
  sched : sched_t;
  sched_local : sched_local_t;
  queues : gmap Z queue_entry_t;
  lanes : gmap Z (list Z);
  cmds : gmap Z sched_cmd_t;
}.

(** *** Field updates *)

Definition set_pri_mask (v : list Z) (s : sched_t) : sched_t :=
  {| pri_queue := pri_queue s; pri_mask := v;
     pri_count := pri_count s; sched_grp := sched_grp s |}.

Definition set_pri_count (v : list (list Z)) (s : sched_t) : sched_t :=
  {| pri_queue := pri_queue s; pri_mask := pri_mask s;
     pri_count := v; sched_grp := sched_grp s |}.

Definition set_sched_grp (v : list sched_grp_t) (s : sched_t) : sched_t :=
  {| pri_queue := pri_queue s; pri_mask := pri_mask s;
     pri_count := pri_count s; sched_grp := v |}.

Definition set_name (v : list Z) (g : sched_grp_t) : sched_grp_t :=
  {| name := v; mask := mask g |}.

Definition set_mask (v : Z) (g : sched_grp_t) : sched_grp_t :=
  {| name := name g; mask := v |}.

Definition set_l_pri_queue (v : option Z) (l : sched_local_t)
  : sched_local_t :=
  {| l_pri_queue := v; l_cmd_ev := l_cmd_ev l; l_buf_hdr := l_buf_hdr l;
     l_qe := l_qe l; l_origin_qe := l_origin_qe l; l_order := l_order l;
     l_sync := l_sync l; l_pool := l_pool l; l_enq_called := l_enq_called l;
     l_num := l_num l; l_index := l_index l; l_pause := l_pause l;
     l_ignore_ordered_context := l_ignore_ordered_context l |}.

Definition set_l_cmd_ev (v : option Z) (l : sched_local_t) : sched_local_t :=
  {| l_pri_queue := l_pri_queue l; l_cmd_ev := v; l_buf_hdr := l_buf_hdr l;
     l_qe := l_qe l; l_origin_qe := l_origin_qe l; l_order := l_order l;
     l_sync := l_sync l; l_pool := l_pool l; l_enq_called := l_enq_called l;
     l_num := l_num l; l_index := l_index l; l_pause := l_pause l;
     l_ignore_ordered_context := l_ignore_ordered_context l |}.

Definition set_l_buf_hdr (v : list (option odp_buffer_hdr_t))
  (l : sched_local_t) : sched_local_t :=
  {| l_pri_queue := l_pri_queue l; l_cmd_ev := l_cmd_ev l; l_buf_hdr := v;
     l_qe := l_qe l; l_origin_qe := l_origin_qe l; l_order := l_order l;
     l_sync := l_sync l; l_pool := l_pool l; l_enq_called := l_enq_called l;
     l_num := l_num l; l_index := l_index l; l_pause := l_pause l;
     l_ignore_ordered_context := l_ignore_ordered_context l |}.

Definition set_l_qe (v : option Z) (l : sched_local_t) : sched_local_t :=
  {| l_pri_queue := l_pri_queue l; l_cmd_ev := l_cmd_ev l;
     l_buf_hdr := l_buf_hdr l;
     l_qe := v; l_origin_qe := l_origin_qe l; l_order := l_order l;
     l_sync := l_sync l; l_pool := l_pool l; l_enq_called := l_enq_called l;
     l_num := l_num l; l_index := l_index l; l_pause := l_pause l;
     l_ignore_ordered_context := l_ignore_ordered_context l |}.

Definition set_l_origin_qe (v : option Z) (l : sched_local_t)
  : sched_local_t :=
  {| l_pri_queue := l_pri_queue l; l_cmd_ev := l_cmd_ev l;
     l_buf_hdr := l_buf_hdr l;
     l_qe := l_qe l; l_origin_qe := v; l_order := l_order l;
     l_sync := l_sync l; l_pool := l_pool l; l_enq_called := l_enq_called l;
     l_num := l_num l; l_index := l_index l; l_pause := l_pause l;
     l_ignore_ordered_context := l_ignore_ordered_context l |}.

Definition set_l_order (v : Z) (l : sched_local_t) : sched_local_t :=
  {| l_pri_queue := l_pri_queue l; l_cmd_ev := l_cmd_ev l;
     l_buf_hdr := l_buf_hdr l;
     l_qe := l_qe l; l_origin_qe := l_origin_qe l; l_order := v;
     l_sync := l_sync l; l_pool := l_pool l; l_enq_called := l_enq_called l;
     l_num := l_num l; l_index := l_index l; l_pause := l_pause l;
     l_ignore_ordered_context := l_ignore_ordered_context l |}.

Definition set_l_sync (v : list Z) (l : sched_local_t) : sched_local_t :=
  {| l_pri_queue := l_pri_queue l; l_cmd_ev := l_cmd_ev l;
     l_buf_hdr := l_buf_hdr l;
     l_qe := l_qe l; l_origin_qe := l_origin_qe l; l_order := l_order l;
     l_sync := v; l_pool := l_pool l; l_enq_called := l_enq_called l;
     l_num := l_num l; l_index := l_index l; l_pause := l_pause l;
     l_ignore_ordered_context := l_ignore_ordered_context l |}.

Definition set_l_enq_called (v : Z) (l : sched_local_t) : sched_local_t :=
  {| l_pri_queue := l_pri_queue l; l_cmd_ev := l_cmd_ev l;
     l_buf_hdr := l_buf_hdr l;
     l_qe := l_qe l; l_origin_qe := l_origin_qe l; l_order := l_order l;
     l_sync := l_sync l; l_pool := l_pool l; l_enq_called := v;
     l_num := l_num l; l_index := l_index l; l_pause := l_pause l;
     l_ignore_ordered_context := l_ignore_ordered_context l |}.

Definition set_l_num (v : Z) (l : sched_local_t) : sched_local_t :=
  {| l_pri_queue := l_pri_queue l; l_cmd_ev := l_cmd_ev l;
     l_buf_hdr := l_buf_hdr l;
     l_qe := l_qe l; l_origin_qe := l_origin_qe l; l_order := l_order l;
     l_sync := l_sync l; l_pool := l_pool l; l_enq_called := l_enq_called l;
     l_num := v; l_index := l_index l; l_pause := l_pause l;
     l_ignore_ordered_context := l_ignore_ordered_context l |}.

Definition set_l_index (v : Z) (l : sched_local_t) : sched_local_t :=
  {| l_pri_queue := l_pri_queue l; l_cmd_ev := l_cmd_ev l;
     l_buf_hdr := l_buf_hdr l;
     l_qe := l_qe l; l_origin_qe := l_origin_qe l; l_order := l_order l;
     l_sync := l_sync l; l_pool := l_pool l; l_enq_called := l_enq_called l;
     l_num := l_num l; l_index := v; l_pause := l_pause l;
     l_ignore_ordered_context := l_ignore_ordered_context l |}.

Definition set_l_pause (v : Z) (l : sched_local_t) : sched_local_t :=
  {| l_pri_queue := l_pri_queue l; l_cmd_ev := l_cmd_ev l;
     l_buf_hdr := l_buf_hdr l;
     l_qe := l_qe l; l_origin_qe := l_origin_qe l; l_order := l_order l;
     l_sync := l_sync l; l_pool := l_pool l; l_enq_called := l_enq_called l;
     l_num := l_num l; l_index := l_index l; l_pause := v;
     l_ignore_ordered_context := l_ignore_ordered_context l |}.

Definition set_l_ignore_ordered_context (v : Z) (l : sched_local_t)
  : sched_local_t :=
  {| l_pri_queue := l_pri_queue l; l_cmd_ev := l_cmd_ev l;
     l_buf_hdr := l_buf_hdr l;
     l_qe := l_qe l; l_origin_qe := l_origin_qe l; l_order := l_order l;
     l_sync := l_sync l; l_pool := l_pool l; l_enq_called := l_enq_called l;
     l_num := l_num l; l_index := l_index l; l_pause := l_pause l;
     l_ignore_ordered_context := v |}.

Definition set_sched (v : sched_t) (st : odp_state) : odp_state :=
  {| sched := v; sched_local := sched_local st; queues := queues st;
     lanes := lanes st; cmds := cmds st |}.

Definition set_sched_local (v : sched_local_t) (st : odp_state) : odp_state :=
  {| sched := sched st; sched_local := v; queues := queues st;
     lanes := lanes st; cmds := cmds st |}.

Definition set_queues (v : gmap Z queue_entry_t) (st : odp_state)
  : odp_state :=
  {| sched := sched st; sched_local := sched_local st; queues := v;
     lanes := lanes st; cmds := cmds st |}.

Definition set_lanes (v : gmap Z (list Z)) (st : odp_state) : odp_state :=
  {| sched := sched st; sched_local := sched_local st; queues := queues st;
     lanes := v; cmds := cmds st |}.

Definition set_cmds (v : gmap Z sched_cmd_t) (st : odp_state) : odp_state :=
  {| sched := sched st; sched_local := sched_local st; queues := queues st;
     lanes := lanes st; cmds := v |}.

Definition set_q_events (v : list odp_buffer_hdr_t) (qe : queue_entry_t)
  : queue_entry_t :=
  {| q_handle := q_handle qe; q_prio := q_prio qe; q_group := q_group qe;
     q_sync := q_sync qe; q_lock_count := q_lock_count qe;
     q_sync_out := q_sync_out qe; q_pri_queue := q_pri_queue qe;
     q_cmd_ev := q_cmd_ev qe; q_events := v; q_destroyed := q_destroyed qe |}.

Definition set_q_sync_out (v : list Z) (qe : queue_entry_t) : queue_entry_t :=
  {| q_handle := q_handle qe; q_prio := q_prio qe; q_group := q_group qe;
     q_sync := q_sync qe; q_lock_count := q_lock_count qe;
     q_sync_out := v; q_pri_queue := q_pri_queue qe;
     q_cmd_ev := q_cmd_ev qe; q_events := q_events qe;
     q_destroyed := q_destroyed qe |}.

Definition set_q_token (pq ev : option Z) (qe : queue_entry_t)
  : queue_entry_t :=
  {| q_handle := q_handle qe; q_prio := q_prio qe; q_group := q_group qe;
     q_sync := q_sync qe; q_lock_count := q_lock_count qe;
     q_sync_out := q_sync_out qe; q_pri_queue := pq;
     q_cmd_ev := ev; q_events := q_events qe;
     q_destroyed := q_destroyed qe |}.

(** ** Substrate: queues, buffers, atomics *)

(** Modelled from the spec: the queue implementation is not part of the
    sources at hand. The spec gives its contract: [queue_enq] enqueues an
    event and returns an error on a destroyed queue; [queue_deq] dequeues one
    event or INVALID; [queue_deq_multi] dequeues up to n, and returns the
    count, 0 if empty, and a negative value if the queue was destroyed. A
    lane queue that does not exist is absent from [lanes]. The enqueue is
    modelled on the lanes alone: the calls the queue implementation makes
    to the hooks [get_sched_order] and [sched_enq_called] are not part of
    it, so it leaves the thread context, [ignore_ordered_context] included,
    as it finds it. *)
Definition odp_queue_enq (q : Z) (ev : Z) (st : odp_state) : Z * odp_state :=
  match lanes st !! q with
  | Some l => (0, set_lanes (<[q := l ++ [ev]]> (lanes st)) st)
  | None => (-1, st)
  end.

Definition odp_queue_deq (q : Z) (st : odp_state) : option Z * odp_state :=
  match lanes st !! q with
  | Some (ev :: l) => (Some ev, set_lanes (<[q := l]> (lanes st)) st)
  | _ => (None, st)
  end.

Definition queue_deq_multi (qe : queue_entry_t) (n : Z)
  : Z * list odp_buffer_hdr_t * queue_entry_t :=
  if q_destroyed qe then (-1, [], qe)
  else
    let got := take (Z.to_nat n) (q_events qe) in
    (Z.of_nat (length got), got,
     set_q_events (drop (Z.to_nat n) (q_events qe)) qe).

(** Modelled from the spec: the buffer pool is not part of the sources at
    hand. [odp_buffer_addr] of a command event is the command stored in it;
    a freed buffer holds none. *)
Definition odp_buffer_addr (ev : Z) (st : odp_state) : option sched_cmd_t :=
  cmds st !! ev.

Definition odp_buffer_free (ev : Z) (st : odp_state) : odp_state :=
  set_cmds (delete ev (cmds st)) st.

(** Modelled from the spec: atomic u64 load and fetch_inc on the lock-free
    ordered counters. *)
Definition odp_atomic_load_u64 (a : Z) : Z := a.

(** [odp_atomic_fetch_inc_u64]: the value fetched and the value left in the
    counter. *)
Definition odp_atomic_fetch_inc_u64 (a : Z) : Z * Z := (a, wrap64 (a + 1)).

(** The functions of other modules of the repository that the scheduler calls
    and that are not part of the sources at hand. They are parameters of the
    model; each may change any part of the state it is called in. *)
Class odp_externals : Type := {
  (** driver callback; a non-zero result retires the port *)
  pktin_poll : Z → odp_state → Z * odp_state;
  (** order resolution of the queue module; 0 on success *)
  release_order : Z → Z → Z → Z → odp_state → Z * odp_state;
  (** finalisation of a queue destroyed while it was scheduled *)
  queue_destroy_finalize : Z → odp_state → odp_state;
  (** handle to index conversions *)
  queue_to_id : Z → Z;
  pktio_to_id : Z → Z;
  (** the k-th reading of the cycle counter within one call *)
  odp_time_cycles : nat → Z;
  odp_time_diff_cycles : Z → Z → Z;
  (** what the other threads do to the state during one [odp_spin] *)
  odp_spin : nat → odp_state → odp_state;
}.

(** ** Substrate: C strings *)

(** A [char] array or a [const char *] argument is a list of bytes; the
    string it holds ends before its first NUL (the end of the list stands for
    the terminator of an argument given without one). *)
Fixpoint c_str (l : list Z) : list Z :=
  match l with
  | [] => []
  | c :: r => if decide (c = 0) then [] else c :: c_str r
  end.

(** [strncpy(dst, src, n)]: the first [n] bytes of [dst] become the string of
    [src], cut at [n] bytes and padded with NUL up to [n] bytes. *)
Definition strncpy (dst src : list Z) (n : nat) : list Z :=
  let s := take n (c_str src) in
  s ++ replicate (n - length s) 0 ++ drop n dst.

(** [strcmp(a, b)]: the difference at the first position where the two
    strings differ, 0 when they are equal. *)
Fixpoint strcmp (a b : list Z) : Z :=
  match a, b with
  | ca :: a', cb :: b' =>
      if decide (ca = cb) then (if decide (ca = 0) then 0 else strcmp a' b')
      else ca - cb
  | [], cb :: _ => 0 - cb
  | ca :: _, [] => ca - 0
  | [], [] => 0
  end.

(** ** The scheduler *)

(** A drain request to the substrate: the queue entry as it was when
    [queue_deq_multi] was called on it, and the number of events asked for. *)
Definition deq_call : Type := queue_entry_t * Z.

(** What [schedule] hands back: its return value, the value stored through
    [out_queue] (if it stored one), the events stored in [out_ev], in order,
    and the drain requests it made. *)
Record sched_out : Type := {
  ret : Z;
  out_queue : option Z;
  out_ev : list Z;
  deq_log : list deq_call;
}.

(** Result of the walk over the lanes: an event batch to return, or nothing
    found, with the current value of the local variable [max_deq]. *)
Inductive walk : Type :=
  | Found (o : sched_out) (st : odp_state)
  | NotFound (max_deq : Z) (log : list deq_call) (st : odp_state).

Section Scheduler.
Context {cfg : odp_config} {ext : odp_externals}.

(** [sched_local_init]: memset to 0, then the two invalid handles. *)
Definition sched_local_init : sched_local_t :=
  {| l_pri_queue := None; l_cmd_ev := None;
     l_buf_hdr := replicate (Z.to_nat MAX_DEQ) None;
     l_qe := None; l_origin_qe := None; l_order := 0;
     l_sync := replicate (Z.to_nat ODP_CONFIG_MAX_ORDERED_LOCKS_PER_QUEUE) 0;
     l_pool := 0; l_enq_called := 0; l_num := 0; l_index := 0; l_pause := 0;
     l_ignore_ordered_context := 0 |}.

(** The global context as [odp_schedule_init_global] leaves it when it
    returns 0: [pri_q i j] is the handle [odp_queue_create] returned for lane
    [j] of priority [i], [thread_sched_grp_mask i] the mask of group [i]. *)
Definition sched_init (pri_q : Z → Z → Z) (thread_sched_grp_mask : Z → Z)
  : sched_t :=
  {| pri_queue :=
       (λ i, pri_q i <$> seqZ 0 QUEUES_PER_PRIO)
         <$> seqZ 0 ODP_CONFIG_SCHED_PRIOS;
     pri_mask := replicate (Z.to_nat ODP_CONFIG_SCHED_PRIOS) 0;
     pri_count :=
       replicate (Z.to_nat ODP_CONFIG_SCHED_PRIOS)
         (replicate (Z.to_nat QUEUES_PER_PRIO) 0);
     sched_grp :=
       (λ i, {| name := replicate (Z.to_nat ODP_SCHED_GROUP_NAME_LEN) 0;
                mask := thread_sched_grp_mask i |})
         <$> seqZ 0 ODP_CONFIG_SCHED_GRPS |}.

(** [sched_mask_all], as [odp_schedule_init_global] sets it. *)
Definition sched_mask_all : Z := odp_thrmask_setall.

Definition pri_id_queue (queue : Z) : Z :=
  Z.land (QUEUES_PER_PRIO - 1) (queue_to_id queue).

Definition pri_id_pktio (pktio : Z) : Z :=
  Z.land (QUEUES_PER_PRIO - 1) (pktio_to_id pktio).

Definition pri_set (id prio : Z) (s : sched_t) : result (Z * sched_t) :=
  m ← deref (zget (pri_mask s) prio);
  let s1 := set_pri_mask
              (zset (pri_mask s) prio (wrap8 (Z.lor m (Z.shiftl 1 id)))) s in
  c ← deref (zget2 (pri_count s1) prio id);
  let s2 := set_pri_count (zset2 (pri_count s1) prio id (wrap32 (c + 1))) s1 in
  q ← deref (zget2 (pri_queue s2) prio id);
  Ok (q, s2).

Definition pri_clr (id prio : Z) (s : sched_t) : result sched_t :=
  c ← deref (zget2 (pri_count s) prio id);
  (* Clear mask bit when last queue is removed *)
  let s1 := set_pri_count (zset2 (pri_count s) prio id (wrap32 (c - 1))) s in
  c1 ← deref (zget2 (pri_count s1) prio id);
  if decide (c1 = 0) then
    m ← deref (zget (pri_mask s1) prio);
    Ok (set_pri_mask
          (zset (pri_mask s1) prio
             (Z.land m (wrap8 (Z.lnot (Z.shiftl 1 id))))) s1)
  else Ok s1.

Definition pri_set_queue (queue prio : Z) (s : sched_t)
  : result (Z * sched_t) :=
  pri_set (pri_id_queue queue) prio s.

Definition pri_set_pktio (pktio prio : Z) (s : sched_t)
  : result (Z * sched_t) :=
  pri_set (pri_id_pktio pktio) prio s.

Definition pri_clr_queue (queue prio : Z) (s : sched_t) : result sched_t :=
  pri_clr (pri_id_queue queue) prio s.

Definition pri_clr_pktio (pktio prio : Z) (s : sched_t) : result sched_t :=
  pri_clr (pri_id_pktio pktio) prio s.

(** [schedule_queue_init]: [buf] is the answer of [odp_buffer_alloc], [None]
    for [ODP_BUFFER_INVALID]. *)
Definition schedule_queue_init (buf : option Z) (qe : Z) (st : odp_state)
  : result (Z * odp_state) :=
  match buf with
  | None => Ok (-1, st)
  | Some b =>
      e ← deref (queues st !! qe);
      let st1 := set_cmds (<[b := SCHED_CMD_DEQUEUE qe]> (cmds st)) st in
      '(pq, s') ← pri_set_queue (q_handle e) (q_prio e) (sched st1);
      Ok (0, set_queues
               (<[qe := set_q_token (Some pq) (Some b) e]> (queues st1))
               (set_sched s' st1))
  end.

Definition schedule_queue_destroy (qe : Z) (st : odp_state)
  : result odp_state :=
  e ← deref (queues st !! qe);
  ev ← deref (q_cmd_ev e);
  let st1 := odp_buffer_free ev st in
  s' ← pri_clr_queue (q_handle e) (q_prio e) (sched st1);
  Ok (set_queues (<[qe := set_q_token None None e]> (queues st1))
        (set_sched s' st1)).

(** [schedule_pktio_start]: [pe] is the answer of [get_pktio_entry]. *)
Definition schedule_pktio_start (buf : option Z) (pktio pe prio : Z)
  (st : odp_state) : result (Z * odp_state) :=
  match buf with
  | None => Ok (-1, st)
  | Some b =>
      let st1 := set_cmds (<[b := SCHED_CMD_POLL_PKTIN pktio pe prio]>
                             (cmds st)) st in
      '(pq, s') ← pri_set_pktio pktio prio (sched st1);
      let '(rc, st2) := odp_queue_enq pq b (set_sched s' st1) in
      if decide (rc ≠ 0) then Fault ABORT else Ok (0, st2)
  end.

(** [schedule_queue]: producer-side re-admission of a queue. *)
Definition schedule_queue (qe : Z) (st : odp_state) : result (Z * odp_state) :=
  let st1 := set_sched_local
               (set_l_ignore_ordered_context 1 (sched_local st)) st in
  e ← deref (queues st1 !! qe);
  pq ← deref (q_pri_queue e);
  ev ← deref (q_cmd_ev e);
  Ok (odp_queue_enq pq ev st1).

Definition odp_schedule_release_atomic (st : odp_state) : result odp_state :=
  match l_pri_queue (sched_local st) with
  | Some pq =>
      if decide (l_num (sched_local st) = 0) then
        (* Release current atomic queue *)
        ev ← deref (l_cmd_ev (sched_local st));
        let '(rc, st1) := odp_queue_enq pq ev st in
        if decide (rc ≠ 0) then Fault ABORT
        else Ok (set_sched_local (set_l_pri_queue None (sched_local st1)) st1)
      else Ok st
  | None => Ok st
  end.

Definition odp_schedule_release_ordered (st : odp_state) : odp_state :=
  match l_origin_qe (sched_local st) with
  | Some origin =>
      let '(rc, st1) :=
        release_order origin (l_order (sched_local st))
          (l_pool (sched_local st)) (l_enq_called (sched_local st)) st in
      if decide (rc = 0)
      then set_sched_local (set_l_origin_qe None (sched_local st1)) st1
      else st1
  | None => st
  end.

Definition odp_schedule_release_context (st : odp_state) : result odp_state :=
  match l_origin_qe (sched_local st) with
  | Some origin =>
      let '(_, st1) :=
        release_order origin (l_order (sched_local st))
          (l_pool (sched_local st)) (l_enq_called (sched_local st)) st in
      Ok (set_sched_local (set_l_origin_qe None (sched_local st1)) st1)
  | None => odp_schedule_release_atomic st
  end.

(** The loop of [copy_events]. Each turn decrements [max], so [max] turns
    are enough. *)
Fixpoint copy_events_loop (fuel : nat) (max : Z) (out : list Z)
  (l : sched_local_t) : result (list Z * sched_local_t) :=
  if decide (l_num l ≠ 0 ∧ max ≠ 0) then
    match fuel with
    | O => Fault NO_FUEL
    | S fuel' =>
        hdr ← deref (mjoin (zget (l_buf_hdr l) (l_index l)));
        copy_events_loop fuel' (max - 1) (out ++ [handle hdr])
          (set_l_num (l_num l - 1) (set_l_index (l_index l + 1) l))
    end
  else Ok (out, l).

(** [copy_events]: the events written to [out_ev], in order; the C function
    returns their number. *)
Definition copy_events (max : Z) (l : sched_local_t)
  : result (list Z * sched_local_t) :=
  copy_events_loop (Z.to_nat max) max [] l.

(** The loop that caches the sync values of the first event. *)
Fixpoint cache_sync_loop (fuel : nat) (k lock_count : Z) (hsync lsync : list Z)
  : result (list Z) :=
  match fuel with
  | O => Ok lsync
  | S fuel' =>
      if decide (k < lock_count) then
        v ← deref (zget hsync k);
        if decide (0 ≤ k < Z.of_nat (length lsync)) then
          cache_sync_loop fuel' (k + 1) lock_count hsync (zset lsync k v)
        else Fault UNDEFINED
      else Ok lsync
  end.

(** The thread is not eligible for work from a queue of group [qe_grp]. *)
Definition not_eligible (thr qe_grp : Z) (s : sched_t) : result bool :=
  if decide (qe_grp > ODP_SCHED_GROUP_ALL) then
    g ← deref (zget (sched_grp s) qe_grp);
    Ok (negb (odp_thrmask_isset (mask g) thr))
  else Ok false.

(** The part of the body of the inner loop of [schedule] that follows a
    successful drain of [num] > 0 events of queue [q] (entry [qe]) whose
    command [ev] came from lane [pri_q]. *)
Definition dispatch (pri_q ev q : Z) (qe : queue_entry_t) (num : Z)
  (out_queue_p : bool) (max_num : Z) (log : list deq_call) (st : odp_state)
  : result walk :=
  let l1 := set_l_qe (Some q)
              (set_l_index 0 (set_l_num num (sched_local st))) in
  '(out, l2) ← copy_events max_num l1;
  let st2 := set_sched_local l2 st in
  st3 ←
    (if queue_is_ordered qe then
       (* Continue scheduling ordered queues *)
       let '(rc, st') := odp_queue_enq pri_q ev st2 in
       if decide (rc ≠ 0) then Fault ABORT
       else
         (* Cache order info about this event *)
         hdr0 ← deref (mjoin (zget (l_buf_hdr (sched_local st')) 0));
         sy ← cache_sync_loop (Z.to_nat (q_lock_count qe)) 0 (q_lock_count qe)
                (hdr_sync hdr0) (l_sync (sched_local st'));
         Ok (set_sched_local
               (set_l_enq_called 0
                  (set_l_sync sy
                     (set_l_order (hdr_order hdr0)
                        (set_l_origin_qe (Some q) (sched_local st'))))) st')
     else if queue_is_atomic qe then
       (* Hold queue during atomic access *)
       Ok (set_sched_local
             (set_l_cmd_ev (Some ev)
                (set_l_pri_queue (Some pri_q) (sched_local st2))) st2)
     else
       (* Continue scheduling the queue *)
       let '(rc, st') := odp_queue_enq pri_q ev st2 in
       if decide (rc ≠ 0) then Fault ABORT else Ok st');
  (* Output the source queue handle *)
  Ok (Found {| ret := Z.of_nat (length out);
               out_queue := if out_queue_p then Some (q_handle qe) else None;
               out_ev := out; deq_log := log |} st3).

(** The inner loop of [schedule] over the lanes of priority [i]: [n] turns
    are left, [id] is the lane the next turn looks at. *)
Fixpoint lane_loop (n : nat) (thr i id : Z) (out_queue_p : bool)
  (max_num max_deq : Z) (log : list deq_call) (st : odp_state)
  : result walk :=
  match n with
  | O => Ok (NotFound max_deq log st)
  | S n' =>
      let id := if decide (id >= QUEUES_PER_PRIO) then 0 else id in
      let continue := lane_loop n' thr i (id + 1) out_queue_p max_num in
      m ← deref (zget (pri_mask (sched st)) i);
      if decide (Z.land m (Z.shiftl 1 id) = 0) then continue max_deq log st
      else
        pri_q ← deref (zget2 (pri_queue (sched st)) i id);
        let '(ev, st1) := odp_queue_deq pri_q st in
        match ev with
        | None => continue max_deq log st1
        | Some ev =>
            sched_cmd ← deref (odp_buffer_addr ev st1);
            match sched_cmd with
            | SCHED_CMD_POLL_PKTIN pktio pe prio =>
                (* Poll packet input *)
                let '(stop, st2) := pktin_poll pe st1 in
                if decide (stop ≠ 0) then
                  (* Stop scheduling the pktio *)
                  s' ← pri_clr_pktio pktio prio (sched st2);
                  continue max_deq log (odp_buffer_free ev (set_sched s' st2))
                else
                  (* Continue scheduling the pktio *)
                  let '(rc, st3) := odp_queue_enq pri_q ev st2 in
                  if decide (rc ≠ 0) then Fault ABORT
                  else continue max_deq log st3
            | SCHED_CMD_DEQUEUE q =>
                qe ← deref (queues st1 !! q);
                ne ← not_eligible thr (q_group qe) (sched st1);
                if ne : bool then
                  (* This thread is not eligible for work from this queue,
                     so continue scheduling it. *)
                  let '(rc, st2) := odp_queue_enq pri_q ev st1 in
                  if decide (rc ≠ 0) then Fault ABORT
                  else continue max_deq log st2
                else
                  (* For ordered queues we want consecutive events to be
                     dispatched to separate threads, so do not cache them
                     locally. *)
                  let max_deq := if queue_is_ordered qe then 1 else max_deq in
                  let '(num, got, qe') := queue_deq_multi qe max_deq in
                  let log := log ++ [(qe, max_deq)] in
                  if decide (Z.of_nat (length got) > MAX_DEQ)
                  then Fault UNDEFINED
                  else
                    let buf := (Some <$> got)
                               ++ drop (length got)
                                    (l_buf_hdr (sched_local st1)) in
                    let st2 := set_sched_local
                                 (set_l_buf_hdr buf (sched_local st1))
                                 (set_queues (<[q := qe']> (queues st1)) st1)
                    in
                    if decide (num < 0) then
                      (* Destroyed queue *)
                      continue max_deq log (queue_destroy_finalize q st2)
                    else if decide (num = 0) then
                      (* Remove empty queue from scheduling *)
                      continue max_deq log st2
                    else
                      dispatch pri_q ev q qe num out_queue_p max_num log st2
            end
        end
  end.

(** The outer loop of [schedule] over the priorities, from priority [i],
    with [n] priorities left. *)
Fixpoint prio_loop (n : nat) (thr i : Z) (out_queue_p : bool)
  (max_num max_deq : Z) (log : list deq_call) (st : odp_state)
  : result walk :=
  match n with
  | O => Ok (NotFound max_deq log st)
  | S n' =>
      m ← deref (zget (pri_mask (sched st)) i);
      if decide (m = 0)
      then prio_loop n' thr (i + 1) out_queue_p max_num max_deq log st
      else
        let id := Z.land thr (QUEUES_PER_PRIO - 1) in
        w ← lane_loop (Z.to_nat QUEUES_PER_PRIO) thr i id out_queue_p
              max_num max_deq log st;
        match w with
        | Found o st' => Ok (Found o st')
        | NotFound max_deq' log' st' =>
            prio_loop n' thr (i + 1) out_queue_p max_num max_deq' log' st'
        end
  end.

(** [schedule]: [thr] is the answer of [odp_thread_id], [out_queue_p] tells
    whether [out_queue] is a non-null pointer. *)
Definition schedule (thr : Z) (out_queue_p : bool) (max_num max_deq : Z)
  (st : odp_state) : result (sched_out * odp_state) :=
  if decide (l_num (sched_local st) ≠ 0) then
    '(out, l') ← copy_events max_num (sched_local st);
    oq ← (if out_queue_p then
            q ← deref (l_qe l');
            qe ← deref (queues st !! q);
            Ok (Some (q_handle qe))
          else Ok None);
    Ok ({| ret := Z.of_nat (length out); out_queue := oq; out_ev := out;
           deq_log := [] |}, set_sched_local l' st)
  else
    st1 ← odp_schedule_release_context st;
    if decide (l_pause (sched_local st1) ≠ 0) then
      Ok ({| ret := 0; out_queue := None; out_ev := []; deq_log := [] |}, st1)
    else
      w ← prio_loop (Z.to_nat ODP_CONFIG_SCHED_PRIOS) thr 0 out_queue_p
            max_num max_deq [] st1;
      match w with
      | Found o st' => Ok (o, st')
      | NotFound _ log st' =>
          Ok ({| ret := 0; out_queue := None; out_ev := [];
                 deq_log := log |}, st')
      end.

(** The [while (1)] loop of [schedule_loop], unrolled at most [fuel] times.
    [start_cycle] is the local variable, [k] counts the readings of the cycle
    counter, [oq] is the value [*out_queue] holds so far. *)
Fixpoint schedule_loop_from (fuel : nat) (start_cycle : Z) (k : nat)
  (oq : option Z) (thr : Z) (out_queue_p : bool) (wait max_num max_deq : Z)
  (st : odp_state) : result (sched_out * odp_state) :=
  match fuel with
  | O => Fault NO_FUEL
  | S fuel' =>
      '(o, st1) ← schedule thr out_queue_p max_num max_deq st;
      let oq1 := match out_queue o with Some q => Some q | None => oq end in
      let o1 := {| ret := ret o; out_queue := oq1; out_ev := out_ev o;
                   deq_log := deq_log o |} in
      if decide (ret o ≠ 0) then Ok (o1, st1)
      else if decide (wait = ODP_SCHED_WAIT) then
        schedule_loop_from fuel' start_cycle k oq1 thr out_queue_p wait
          max_num max_deq st1
      else if decide (wait = ODP_SCHED_NO_WAIT) then Ok (o1, st1)
      else if decide (start_cycle = 0) then
        schedule_loop_from fuel' (odp_time_cycles k) (S k) oq1 thr out_queue_p
          wait max_num max_deq st1
      else
        let cycle := odp_time_cycles k in
        let diff := odp_time_diff_cycles start_cycle cycle in
        if decide (wait < diff) then Ok (o1, st1)
        else
          schedule_loop_from fuel' start_cycle (S k) oq1 thr out_queue_p wait
            max_num max_deq st1
  end.

Definition schedule_loop (fuel : nat) (thr : Z) (out_queue_p : bool)
  (wait max_num max_deq : Z) (st : odp_state)
  : result (sched_out * odp_state) :=
  schedule_loop_from fuel 0 0%nat None thr out_queue_p wait max_num max_deq st.

(** [odp_schedule]: the event, [None] for [ODP_EVENT_INVALID]. *)
Definition odp_schedule (fuel : nat) (thr : Z) (out_queue_p : bool) (wait : Z)
  (st : odp_state) : result (option Z * option Z * odp_state) :=
  '(o, st') ← schedule_loop fuel thr out_queue_p wait 1 MAX_DEQ st;
  Ok (head (out_ev o), out_queue o, st').

Definition odp_schedule_multi (fuel : nat) (thr : Z) (out_queue_p : bool)
  (wait num : Z) (st : odp_state) : result (sched_out * odp_state) :=
  schedule_loop fuel thr out_queue_p wait (wrap32 num) MAX_DEQ st.

Definition odp_schedule_pause (st : odp_state) : odp_state :=
  set_sched_local (set_l_pause 1 (sched_local st)) st.

Definition odp_schedule_resume (st : odp_state) : odp_state :=
  set_sched_local (set_l_pause 0 (sched_local st)) st.

(** *** Schedule groups *)

Definition grp_named (group : Z) : Prop :=
  group < ODP_CONFIG_SCHED_GRPS ∧ group >= _ODP_SCHED_GROUP_NAMED.

#[global] Instance grp_named_dec group : Decision (grp_named group).
Proof. unfold grp_named. apply _. Defined.

(** [sched->sched_grp[group].name[0]] *)
Definition grp_name0 (group : Z) (s : sched_t) : result Z :=
  g ← deref (zget (sched_grp s) group);
  deref (zget (name g) 0).

(** The loop of [odp_schedule_group_create] from slot [i], with [n] slots
    left. *)
Fixpoint group_create_loop (n : nat) (i : Z) (nm : list Z) (msk : Z)
  (s : sched_t) : result (Z * sched_t) :=
  match n with
  | O => Ok (ODP_SCHED_GROUP_INVALID, s)
  | S n' =>
      g ← deref (zget (sched_grp s) i);
      c ← deref (zget (name g) 0);
      if decide (c = 0) then
        let g' := {| name := strncpy (name g) nm
                               (Z.to_nat (ODP_SCHED_GROUP_NAME_LEN - 1));
                     mask := msk |} in
        Ok (i, set_sched_grp (zset (sched_grp s) i g') s)
      else group_create_loop n' (i + 1) nm msk s
  end.

Definition odp_schedule_group_create (nm : list Z) (msk : Z) (s : sched_t)
  : result (Z * sched_t) :=
  group_create_loop
    (Z.to_nat (ODP_CONFIG_SCHED_GRPS - _ODP_SCHED_GROUP_NAMED))
    _ODP_SCHED_GROUP_NAMED nm msk s.

Definition odp_schedule_group_destroy (group : Z) (s : sched_t)
  : result (Z * sched_t) :=
  if decide (grp_named group) then
    g ← deref (zget (sched_grp s) group);
    c ← deref (zget (name g) 0);
    if decide (c ≠ 0) then
      let g' := {| name := replicate (Z.to_nat ODP_SCHED_GROUP_NAME_LEN) 0;
                   mask := odp_thrmask_zero |} in
      Ok (0, set_sched_grp (zset (sched_grp s) group g') s)
    else Ok (-1, s)
  else Ok (-1, s).

Fixpoint group_lookup_loop (n : nat) (i : Z) (nm : list Z) (s : sched_t)
  : result Z :=
  match n with
  | O => Ok ODP_SCHED_GROUP_INVALID
  | S n' =>
      g ← deref (zget (sched_grp s) i);
      if decide (strcmp nm (name g) = 0) then Ok i
      else group_lookup_loop n' (i + 1) nm s
  end.

Definition odp_schedule_group_lookup (nm : list Z) (s : sched_t) : result Z :=
  group_lookup_loop
    (Z.to_nat (ODP_CONFIG_SCHED_GRPS - _ODP_SCHED_GROUP_NAMED))
    _ODP_SCHED_GROUP_NAMED nm s.

Definition odp_schedule_group_join (group : Z) (msk : Z) (s : sched_t)
  : result (Z * sched_t) :=
  if decide (grp_named group) then
    g ← deref (zget (sched_grp s) group);
    c ← deref (zget (name g) 0);
    if decide (c ≠ 0) then
      let g' := set_mask (odp_thrmask_or (mask g) msk) g in
      Ok (0, set_sched_grp (zset (sched_grp s) group g') s)
    else Ok (-1, s)
  else Ok (-1, s).

Definition odp_schedule_group_leave (group : Z) (msk : Z) (s : sched_t)
  : result (Z * sched_t) :=
  if decide (grp_named group) then
    g ← deref (zget (sched_grp s) group);
    c ← deref (zget (name g) 0);
    if decide (c ≠ 0) then
      let leavemask := odp_thrmask_xor msk sched_mask_all in
      let g' := set_mask (odp_thrmask_and (mask g) leavemask) g in
      Ok (0, set_sched_grp (zset (sched_grp s) group g') s)
    else Ok (-1, s)
  else Ok (-1, s).

(** [odp_schedule_group_thrmask]: the return value and the mask stored
    through [thrmask], if one was stored. *)
Definition odp_schedule_group_thrmask (group : Z) (s : sched_t)
  : result (Z * option Z) :=
  if decide (grp_named group) then
    g ← deref (zget (sched_grp s) group);
    c ← deref (zget (name g) 0);
    if decide (c ≠ 0) then Ok (0, Some (mask g)) else Ok (-1, None)
  else Ok (-1, None).

(** *** Ordered locks *)

(** [origin_qe->s.sync_out[lock_index]] *)
Definition load_sync_out (origin lock_index : Z) (st : odp_state) : result Z :=
  e ← deref (queues st !! origin);
  v ← deref (zget (q_sync_out e) lock_index);
  Ok (odp_atomic_load_u64 v).

(** One [odp_spin]: the other threads run; the thread local context is out
    of their reach. *)
Definition spin (k : nat) (st : odp_state) : odp_state :=
  set_sched_local (sched_local st) (odp_spin k st).

(** The wait loop of [odp_schedule_order_lock], unrolled at most [fuel]
    times; [k] counts the spins. *)
Fixpoint order_lock_wait (fuel : nat) (k : nat) (origin lock_index : Z)
  (sync sync_out : Z) (st : odp_state) : result odp_state :=
  if decide (sync ≠ sync_out) then
    match fuel with
    | O => Fault NO_FUEL
    | S fuel' =>
        let st1 := spin k st in
        sync_out' ← load_sync_out origin lock_index st1;
        order_lock_wait fuel' (S k) origin lock_index sync sync_out' st1
    end
  else Ok st.

(** [ODP_ASSERT(cond)]: aborts when [ODP_DEBUG] is set and [cond] fails. *)
Definition ODP_ASSERT (cond : bool) : result unit :=
  if ODP_DEBUG && negb cond then Fault ABORT else Ok ().

Definition odp_schedule_order_lock (fuel : nat) (lock_index : Z)
  (st : odp_state) : result odp_state :=
  match l_origin_qe (sched_local st) with
  | None => Ok st
  | Some origin =>
      e ← deref (queues st !! origin);
      if decide (lock_index >= q_lock_count e) then Ok st
      else
        sync ← deref (zget (l_sync (sched_local st)) lock_index);
        sync_out ← load_sync_out origin lock_index st;
        _ ← ODP_ASSERT (bool_decide (sync >= sync_out));
        (* Wait until we are in order. *)
        order_lock_wait fuel 0 origin lock_index sync sync_out st
  end.

Definition odp_schedule_order_unlock (lock_index : Z) (st : odp_state)
  : result odp_state :=
  match l_origin_qe (sched_local st) with
  | None => Ok st
  | Some origin =>
      e ← deref (queues st !! origin);
      if decide (lock_index >= q_lock_count e) then Ok st
      else
        _ ← (if ODP_DEBUG then
               sync ← deref (zget (l_sync (sched_local st)) lock_index);
               sync_out ← load_sync_out origin lock_index st;
               ODP_ASSERT (bool_decide (sync = sync_out))
             else Ok ());
        (* Release the ordered lock *)
        v ← deref (zget (q_sync_out e) lock_index);
        let e' := set_q_sync_out
                    (zset (q_sync_out e) lock_index
                       (odp_atomic_fetch_inc_u64 v).2) e in
        Ok (set_queues (<[origin := e']> (queues st)) st)
  end.

End Scheduler.

(** ** Thread start and end, and the hooks of the queue module *)

Section SchedulerHooks.
Context {cfg : odp_config} {ext : odp_externals}.

Definition odp_schedule_init_local (st : odp_state) : Z * odp_state :=
  (0, set_sched_local sched_local_init st).

Definition odp_schedule_term_local (st : odp_state)
  : result (Z * odp_state) :=
  if decide (l_num (sched_local st) ≠ 0) then
    (* Locally pre-scheduled events exist. *)
    Ok (-1, st)
  else
    st1 ← odp_schedule_release_context st;
    Ok (0, set_sched_local sched_local_init st1).

Definition odp_schedule_num_prio : Z := ODP_CONFIG_SCHED_PRIOS.

Definition sched_enq_called (st : odp_state) : odp_state :=
  set_sched_local (set_l_enq_called 1 (sched_local st)) st.

(** [get_sched_order]: the value stored through [origin_qe] ([None] is
    [NULL]), the value stored through [order] if one was stored, and the
    state. *)
Definition get_sched_order (st : odp_state)
  : option Z * option Z * odp_state :=
  if decide (l_ignore_ordered_context (sched_local st) ≠ 0) then
    (None, None,
     set_sched_local (set_l_ignore_ordered_context 0 (sched_local st)) st)
  else
    (l_origin_qe (sched_local st), Some (l_order (sched_local st)), st).

(** [sched_order_resolved]: [buf_hdr] is [None] for a null pointer, and
    otherwise holds the [origin_qe] field of the header pointed to; the
    answer is that field after the call. *)
Definition sched_order_resolved (buf_hdr : option (option Z))
  (st : odp_state) : option (option Z) * odp_state :=
  (match buf_hdr with Some _ => Some None | None => None end,
   set_sched_local (set_l_origin_qe None (sched_local st)) st).

End SchedulerHooks.

(** ** Global termination *)

(** The functions of other modules of the repository that only
    [odp_schedule_term_global] calls, and that are not part of the sources
    at hand. They are parameters of the model; each may change any part of
    the state it is called in. *)
Class odp_term_externals : Type := {
  odp_queue_destroy : Z → odp_state → Z * odp_state;
  odp_pool_destroy : odp_state → Z * odp_state;
  odp_shm_free : odp_state → Z * odp_state;
}.

Section SchedulerTerm.
Context {cfg : odp_config} {ext : odp_externals} {tx : odp_term_externals}.

(** The [while] loop of [odp_schedule_term_global] that empties lane queue
    [pri_q], unrolled at most [fuel] times. *)
Fixpoint term_drain (fuel : nat) (pri_q : Z) (st : odp_state)
  : result odp_state :=
  let '(ev, st1) := odp_queue_deq pri_q st in
  match ev with
  | None => Ok st1
  | Some ev =>
      match fuel with
      | O => Fault NO_FUEL
      | S fuel' =>
          sched_cmd ← deref (odp_buffer_addr ev st1);
          match sched_cmd with
          | SCHED_CMD_DEQUEUE q =>
              qe ← deref (queues st1 !! q);
              let '(num, _, qe') := queue_deq_multi qe 1 in
              let st2 := set_queues (<[q := qe']> (queues st1)) st1 in
              term_drain fuel' pri_q
                (if decide (num < 0) then queue_destroy_finalize q st2
                 else st2)
          | SCHED_CMD_POLL_PKTIN _ _ _ =>
              term_drain fuel' pri_q (odp_buffer_free ev st1)
          end
      end
  end.




End SchedulerTerm.

(** ** Traces of fabric operations *)

(** An attach ([pri_set]) or a detach ([pri_clr]) of lane [id] of priority
    [prio]. *)
Inductive fabric_op : Type :=
  | PRI_SET (id prio : Z)
  | PRI_CLR (id prio : Z).

Section Fabric.
Context {cfg : odp_config} {ext : odp_externals}.

Definition fabric_step (op : fabric_op) (s : sched_t) : result sched_t :=
  match op with
  | PRI_SET id prio => '(_, s') ← pri_set id prio s; Ok s'
  | PRI_CLR id prio => pri_clr id prio s
  end.

(** The states after each operation of a trace, in order. *)
Fixpoint fabric_run (ops : list fabric_op) (s : sched_t)
  : result (list sched_t) :=
  match ops with
  | [] => Ok []
  | op :: ops' =>
      s' ← fabric_step op s;
      ss ← fabric_run ops' s';
      Ok (s' :: ss)
  end.

(** The test of the dispatcher on a lane bit:
    [(sched->pri_mask[prio] & (1 << id)) != 0]. *)
Definition pri_bit (s : sched_t) (prio id : Z) : option bool :=
  m ← zget (pri_mask s) prio;
  Some (bool_decide (Z.land m (Z.shiftl 1 id) ≠ 0)).

(** The mask bit of every lane is set iff the count of the lane is
    positive. *)
Definition mask_count_inv (s : sched_t) : Prop :=
  ∀ prio id, 0 ≤ prio < ODP_CONFIG_SCHED_PRIOS → 0 ≤ id < QUEUES_PER_PRIO →
    ∃ b c, pri_bit s prio id = Some b
           ∧ zget2 (pri_count s) prio id = Some c
           ∧ (b = true ↔ c > 0).

(** A lane index pair the arrays have. *)
Definition lane_ok (id prio : Z) : Prop :=
  0 ≤ prio < ODP_CONFIG_SCHED_PRIOS ∧ 0 ≤ id < QUEUES_PER_PRIO.

(** An operation that respects the attach/detach protocol in state [s]: a
    detach finds a lane that is attached at least once, an attach finds a
    count that can still grow. *)
Definition op_ok (s : sched_t) (op : fabric_op) : Prop :=
  match op with
  | PRI_SET id prio =>
      lane_ok id prio
      ∧ match zget2 (pri_count s) prio id with
        | Some c => c < UINT32_MAX
        | None => False
        end
  | PRI_CLR id prio =>
      lane_ok id prio
      ∧ match zget2 (pri_count s) prio id with
        | Some c => 0 < c
        | None => False
        end
  end.

Fixpoint trace_ok (s : sched_t) (ops : list fabric_op) : Prop :=
  match ops with
  | [] => True
  | op :: ops' =>
      op_ok s op
      ∧ match fabric_step op s with
        | Ok s' => trace_ok s' ops'
        | Fault _ => False
        end
  end.

(** Shape of the fabric arrays and the relation between the mask bits and
    the counts, in terms of [Z.testbit]. *)
Definition fabric_wf (s : sched_t) : Prop :=
  (∀ prio id, lane_ok id prio →
     is_Some (zget (pri_mask s) prio)
     ∧ is_Some (zget2 (pri_count s) prio id)
     ∧ is_Some (zget2 (pri_queue s) prio id))
  ∧ (∀ prio id m c, lane_ok id prio →
       zget (pri_mask s) prio = Some m →
       zget2 (pri_count s) prio id = Some c →
       0 ≤ c < 2 ^ 32 ∧ (Z.testbit m id = true ↔ 0 < c)).

End Fabric.

(** ** Sequences of group operations *)

Inductive group_op : Type :=
  | GRP_CREATE (nm : list Z) (msk : Z)
  | GRP_DESTROY (group : Z)
  | GRP_JOIN (group : Z) (msk : Z)
  | GRP_LEAVE (group : Z) (msk : Z).

Section GroupDefs.
Context {cfg : odp_config}.

Definition group_step (op : group_op) (s : sched_t) : result sched_t :=
  match op with
  | GRP_CREATE nm msk => '(_, s') ← odp_schedule_group_create nm msk s; Ok s'
  | GRP_DESTROY group => '(_, s') ← odp_schedule_group_destroy group s; Ok s'
  | GRP_JOIN group msk => '(_, s') ← odp_schedule_group_join group msk s; Ok s'
  | GRP_LEAVE group msk =>
      '(_, s') ← odp_schedule_group_leave group msk s; Ok s'
  end.

Fixpoint group_run (ops : list group_op) (s : sched_t) : result sched_t :=
  match ops with
  | [] => Ok s
  | op :: ops' => s' ← group_step op s; group_run ops' s'
  end.

(** The group table has its [ODP_CONFIG_SCHED_GRPS] entries, and every name
    buffer has its [ODP_SCHED_GROUP_NAME_LEN] bytes, the last of which is
    NUL: [odp_schedule_init_global] and [odp_schedule_group_destroy] clear
    the whole buffer, [odp_schedule_group_create] writes all bytes but the
    last. *)
Definition grp_wf (s : sched_t) : Prop :=
  ∀ i, 0 ≤ i < ODP_CONFIG_SCHED_GRPS →
    ∃ g, zget (sched_grp s) i = Some g
         ∧ length (name g) = Z.to_nat ODP_SCHED_GROUP_NAME_LEN
         ∧ zget (name g) (ODP_SCHED_GROUP_NAME_LEN - 1) = Some 0.

(** Slot [group] is a named slot that holds a non-empty name. *)
Definition grp_occupied (group : Z) (s : sched_t) : Prop :=
  grp_named group
  ∧ ∃ g c, zget (sched_grp s) group = Some g
           ∧ zget (name g) 0 = Some c ∧ c ≠ 0.

(** The operations that may run between a create of group [id] under the
    name [nm] and its destroy, when the group is to stay the one the name
    designates: no destroy of [id], no create under the same stored name. *)
Definition keeps_group (id : Z) (nm : list Z) (op : group_op) : Prop :=
  match op with
  | GRP_CREATE nm' _ =>
      take (Z.to_nat (ODP_SCHED_GROUP_NAME_LEN - 1)) (c_str nm') ≠ c_str nm
  | GRP_DESTROY group => group ≠ id
  | GRP_JOIN _ _ | GRP_LEAVE _ _ => True
  end.

(** Group [id] is the one the name [nm] designates: its slot carries the
    name, and no named slot below it does. *)
Definition designates (id : Z) (nm : list Z) (s : sched_t) : Prop :=
  grp_wf s ∧ grp_named id
  ∧ (∃ g, zget (sched_grp s) id = Some g ∧ c_str (name g) = c_str nm)
  ∧ (∀ j g, _ODP_SCHED_GROUP_NAMED ≤ j < id →
            zget (sched_grp s) j = Some g → c_str (name g) ≠ c_str nm).

End GroupDefs.

(** ** Spinning on an ordered lock *)

Section LockDefs.
Context {cfg : odp_config} {ext : odp_externals}.

(** The state after [n] spins, the first of which is spin number [k]. *)
Fixpoint spins (n k : nat) (st : odp_state) : odp_state :=
  match n with
  | O => st
  | S n' => spins n' (S k) (spin k st)
  end.

(** The thread holds an ordered context on queue [origin] (entry [e]) and
    [lock_index] is one of the locks of that queue. *)
Definition ordered_lock_index (st : odp_state) (origin : Z)
  (e : queue_entry_t) (lock_index : Z) : Prop :=
  l_origin_qe (sched_local st) = Some origin
  ∧ queues st !! origin = Some e
  ∧ 0 ≤ lock_index < q_lock_count e.

End LockDefs.

(** ** Empty scheduling attempts *)

Section LoopDefs.
Context {cfg : odp_config} {ext : odp_externals}.

(** The state after [n] calls of [schedule] in a row that all returned 0;
    [None] when one of them did not. *)
Fixpoint empty_attempts (n : nat) (thr : Z) (out_queue_p : bool)
  (max_num max_deq : Z) (st : odp_state) : option odp_state :=
  match n with
  | O => Some st
  | S n' =>
      match schedule thr out_queue_p max_num max_deq st with
      | Ok (o, st1) =>
          if decide (ret o = 0)
          then empty_attempts n' thr out_queue_p max_num max_deq st1
          else None
      | Fault _ => None
      end
  end.

End LoopDefs.

(** ** What a dispatch may hand out *)

Section WalkDefs.
Context {cfg : odp_config} {ext : odp_externals}.

(** Thread [thr] is eligible for work from a queue of group [grp]: the group
    is not above ALL, or the thread is set in the mask of the group. *)
Definition eligible (thr grp : Z) (s : sched_t) : Prop :=
  grp ≤ ODP_SCHED_GROUP_ALL
  ∨ ∃ g, zget (sched_grp s) grp = Some g
         ∧ odp_thrmask_isset (mask g) thr = true.

(** The queue the thread local cache was filled from is one the thread is
    eligible for. *)
Definition served_eligible (thr : Z) (st : odp_state) : Prop :=
  ∃ q qe, l_qe (sched_local st) = Some q
          ∧ queues st !! q = Some qe
          ∧ eligible thr (q_group qe) (sched st).

(** Every drain request on an ordered queue asks for one event. *)
Definition ordered_deq_one (log : list deq_call) : Prop :=
  ∀ qe n, (qe, n) ∈ log → queue_is_ordered qe = true → n = 1.

(** What the walk over the lanes hands out. *)
Definition walk_ok (thr : Z) (w : walk) : Prop :=
  match w with
  | Found o st' => served_eligible thr st' ∧ ordered_deq_one (deq_log o)
  | NotFound _ log _ => ordered_deq_one log
  end.

(** The thread local cache holds the events [evs]: they are the [l_num]
    headers that [l_buf_hdr] points to from position [l_index] on. *)
Definition cache_holds (l : sched_local_t) (evs : list odp_buffer_hdr_t)
  : Prop :=
  0 ≤ l_index l
  ∧ l_num l = Z.of_nat (length evs)
  ∧ take (length evs) (drop (Z.to_nat (l_index l)) (l_buf_hdr l))
    = Some <$> evs.

End WalkDefs.

(** ** Further notions for the properties of the code *)

Section ExtraDefs.
Context {cfg : odp_config} {ext : odp_externals}.

(** The state in which the inner loop of [schedule] calls [dispatch]: the
    entry of queue [q] is [qe'], and the headers [got] that
    [queue_deq_multi] wrote are at the start of [buf_hdr]. *)
Definition drained (q : Z) (qe' : queue_entry_t)
  (got : list odp_buffer_hdr_t) (st : odp_state) : odp_state :=
  set_sched_local
    (set_l_buf_hdr
       ((Some <$> got) ++ drop (length got) (l_buf_hdr (sched_local st)))
       (sched_local st))
    (set_queues (<[q := qe']> (queues st)) st).

(** The ordered context of the thread is the one of the event [hdr] of
    queue [q] (entry [qe]): the origin, the order and the sync values of the
    locks of the queue. *)
Definition ordered_context_of (q : Z) (qe : queue_entry_t)
  (hdr : odp_buffer_hdr_t) (l : sched_local_t) : Prop :=
  l_origin_qe l = Some q ∧ l_order l = hdr_order hdr ∧ l_enq_called l = 0
  ∧ ∀ k, 0 ≤ k < q_lock_count qe →
         is_Some (zget (l_sync l) k) ∧ zget (l_sync l) k = zget (hdr_sync hdr) k.

End ExtraDefs.

Section ExtraDefs2.
Context {cfg : odp_config} {ext : odp_externals}.

(** The batch [o] and the state [st'] come from the turn of the lane walk
    that took the command [ev] of queue [q] (entry [qe]) off lane [pri_q],
    asked the queue for [md] events, got the non-empty list [got] and
    called [dispatch]. *)
Definition dispatched_by (thr : Z) (out_queue_p : bool) (max_num : Z)
  (o : sched_out) (st' : odp_state) (pri_q ev q : Z) (qe : queue_entry_t)
  (md : Z) (rest : list Z) : Prop :=
  let got := take (Z.to_nat md) (q_events qe) in
  ∃ log0 st1,
    lanes st1 !! pri_q = Some rest
    ∧ cmds st1 !! ev = Some (SCHED_CMD_DEQUEUE q)
    ∧ queues st1 !! q = Some qe
    ∧ not_eligible thr (q_group qe) (sched st1) = Ok false
    ∧ q_destroyed qe = false
    ∧ (queue_is_ordered qe = true → md = 1)
    ∧ got ≠ []
    ∧ Z.of_nat (length got) ≤ MAX_DEQ
    ∧ dispatch pri_q ev q qe (Z.of_nat (length got)) out_queue_p max_num
        (log0 ++ [(qe, md)])
        (drained q (set_q_events (drop (Z.to_nat md) (q_events qe)) qe)
           got st1)
      = Ok (Found o st').

End ExtraDefs2.

Section ExtraDefs3.
Context {cfg : odp_config} {ext : odp_externals}.

(** No lane queue holds a command. *)
Definition lanes_empty (st : odp_state) : Prop :=
  map_Forall (λ _ l, l = []) (lanes st).

(** The thread holds neither an atomic nor an ordered context, and its
    cache is empty. *)
Definition no_context (l : sched_local_t) : Prop :=
  l_num l = 0 ∧ l_pri_queue l = None ∧ l_origin_qe l = None.

(** The result of a call of [schedule] that found nothing. *)
Definition sched_nothing : sched_out :=
  {| ret := 0; out_queue := None; out_ev := []; deq_log := [] |}.

End ExtraDefs3.

Section ExtraDefs4.
Context {cfg : odp_config} {ext : odp_externals}.

(** Every [pri_mask] entry is a [uint8_t] value. *)
Definition mask_u8 (s : sched_t) : Prop :=
  Forall (λ m, 0 ≤ m < 2 ^ 8) (pri_mask s).

(** The count of lane [id] of priority [prio] can still grow. *)
Definition count_below_max (id prio : Z) (s : sched_t) : Prop :=
  match zget2 (pri_count s) prio id with
  | Some c => c < UINT32_MAX
  | None => False
  end.

End ExtraDefs4.

Section ExtraDefs5.
Context {cfg : odp_config}.

(** Slot [group] of the group table is free: its name is empty. *)
Definition grp_free (group : Z) (s : sched_t) : Prop :=
  ∃ g, zget (sched_grp s) group = Some g ∧ zget (name g) 0 = Some 0.

(** The slot a create writes. *)
Definition created_grp (g : sched_grp_t) (nm : list Z) (msk : Z)
  : sched_grp_t :=
  {| name := strncpy (name g) nm (Z.to_nat (ODP_SCHED_GROUP_NAME_LEN - 1));
     mask := msk |}.

(** The slot a destroy leaves. *)
Definition cleared_grp : sched_grp_t :=
  {| name := replicate (Z.to_nat ODP_SCHED_GROUP_NAME_LEN) 0;
     mask := odp_thrmask_zero |}.

End ExtraDefs5.

Section ExtraDefs6.
Context {cfg : odp_config}.

(** No named slot carries the name [nm]. *)
Definition grp_unnamed (nm : list Z) (s : sched_t) : Prop :=
  ∀ j g, grp_named j → zget (sched_grp s) j = Some g →
         c_str (name g) ≠ c_str nm.

End ExtraDefs6.

Section ExtraDefs7.
Context {cfg : odp_config} {ext : odp_externals}.

(** Every command of the list [l] is in its buffer, and the queue of a
    DEQUEUE command exists and was not destroyed. *)
Definition drainable (l : list Z) (st : odp_state) : Prop :=
  Forall
    (λ ev, match cmds st !! ev with
           | Some (SCHED_CMD_DEQUEUE q) =>
               match queues st !! q with
               | Some qe => q_destroyed qe = false
               | None => False
               end
           | Some (SCHED_CMD_POLL_PKTIN _ _ _) => True
           | None => False
           end) l.

(** The command buffers after the lane that held the commands [l] was
    drained: the POLL_PKTIN commands of the lane are freed. *)
Definition cmds_after_drain (l : list Z) (st : odp_state) (ev : Z)
  : option sched_cmd_t :=
  match cmds st !! ev with
  | Some (SCHED_CMD_POLL_PKTIN pktio pe prio) =>
      if decide (ev ∈ l) then None
      else Some (SCHED_CMD_POLL_PKTIN pktio pe prio)
  | c => c
  end.

End ExtraDefs7.

(** ** Example configurations and states *)

(** The lane handles of the examples. *)
Definition example_pri_q (i j : Z) : Z := 100 + QUEUES_PER_PRIO * i + j.

(** The global context after initialisation, all group masks empty. *)
Definition example_sched : sched_t :=
  sched_init (cfg := linux_generic) example_pri_q (λ _, 0).

(** Another thread releases lock 0 of every queue. *)
Definition example_spin (st : odp_state) : odp_state :=
  set_queues
    ((λ e, set_q_sync_out
             (match q_sync_out e with
              | v :: r => wrap64 (v + 1) :: r
              | [] => []
              end) e) <$> queues st) st.

(** Externals of the examples: a driver that never retires its port, a
    [release_order] that answers [release_rc], identity conversions, a cycle
    counter that reads [clock k] at its k-th reading. *)
Definition example_ext (release_rc : Z) (clock : nat → Z) : odp_externals := {|
  pktin_poll := λ _ st, (0, st);
  release_order := λ _ _ _ _ st, (release_rc, st);
  queue_destroy_finalize := λ _ st, st;
  queue_to_id := λ q, q;
  pktio_to_id := λ p, p;
  odp_time_cycles := clock;
  odp_time_diff_cycles :=
    λ c1 c2, if decide (c2 >= c1) then c2 - c1 else c2 + (UINT64_MAX - c1);
  odp_spin := λ _, example_spin;
|}.

(** A cycle counter that starts at 1000 and advances by 100 per reading. *)
Definition example_clock (k : nat) : Z := 1000 + 100 * Z.of_nat k.

(** A cycle counter whose first reading is 0. *)
Definition zero_clock (k : nat) : Z := 100 * Z.of_nat k.

(** The lane queues exist and are empty. *)
Definition example_lanes : gmap Z (list Z) :=
  list_to_map ((λ h, (h, [])) <$> seqZ 100 32).

(** The event with handle [h], number [n] in its ordered flow. *)
Definition example_hdr (h n : Z) : odp_buffer_hdr_t :=
  {| handle := h; hdr_order := n; hdr_sync := [n] |}.

(** Queue entry 7: handle 1002, priority 0, one ordered lock, not attached
    yet. *)
Definition example_queue (sync : sched_sync_t) (group : Z)
  (evs : list odp_buffer_hdr_t) : queue_entry_t :=
  {| q_handle := 1002; q_prio := 0; q_group := group; q_sync := sync;
     q_lock_count := 1; q_sync_out := [0]; q_pri_queue := None;
     q_cmd_ev := None; q_events := evs; q_destroyed := false |}.

(** Nothing attached. *)
Definition example_idle (s : sched_t) : odp_state :=
  {| sched := s; sched_local := sched_local_init (cfg := linux_generic);
     queues := ∅; lanes := example_lanes; cmds := ∅ |}.

(** Queue entry 7 holding [evs], attached with command buffer 50 and
    put on its lane. *)
Definition example_attached (s : sched_t) (sync : sched_sync_t) (group : Z)
  (evs : list odp_buffer_hdr_t) : result odp_state :=
  let ext := example_ext 0 example_clock in
  let st0 := set_queues {[ 7 := example_queue sync group evs ]}
               (example_idle s) in
  '(_, st1) ← schedule_queue_init (Some 50) 7 st0;
  '(_, st2) ← schedule_queue 7 st1;
  Ok st2.

(** The externals of most examples. *)
Definition example_ext0 : odp_externals := example_ext 0 example_clock.

(** The state of an example, or the idle state if the example faulted. *)
Definition the_state (r : result odp_state) : odp_state :=
  match r with
  | Ok st => st
  | Fault _ => example_idle example_sched
  end.

(** Thread 0 has called [schedule] for one event on an ordered queue that
    held the events 11, 12, 13: it holds an ordered context. *)
Definition example_ordered_ctx : odp_state :=
  the_state
    (st ← example_attached example_sched SYNC_ORDERED 0
            [example_hdr 11 0; example_hdr 12 1; example_hdr 13 2];
     '(_, st') ← schedule (cfg := linux_generic) (ext := example_ext0)
                   0 true 1 MAX_DEQ st;
     Ok st').

(** Thread 0 holds the ordered context of the third event of a flow (sync
    value 2) while the lock counter of the queue is still 0. *)
Definition example_waiting : odp_state :=
  the_state
    (st ← example_attached example_sched SYNC_ORDERED 0 [example_hdr 13 2];
     '(_, st') ← schedule (cfg := linux_generic) (ext := example_ext0)
                   0 true 1 MAX_DEQ st;
     Ok st').

(** The same with the sync value and the lock counter at 2^64 - 1. *)
Definition example_last_ticket : odp_state :=
  set_queues
    ((λ e, set_q_sync_out [UINT64_MAX] e) <$> queues example_waiting)
    (set_sched_local
       (set_l_sync [UINT64_MAX; 0] (sched_local example_waiting))
       example_waiting).

(** Thread 0 has called [schedule] for one event on a parallel queue that
    held the events 11, 12, 13: two events are left in its cache. *)
Definition example_cached : odp_state :=
  the_state
    (st ← example_attached example_sched SYNC_NONE 0
            [example_hdr 11 0; example_hdr 12 1; example_hdr 13 2];
     '(_, st') ← schedule (cfg := linux_generic) (ext := example_ext0)
                   0 true 1 MAX_DEQ st;
     Ok st').

(** The group table after group 3 was created under the name "g" with thread
    0 as its only member. *)
Definition example_group : sched_t :=
  match odp_schedule_group_create (cfg := linux_generic) [103] 1
          example_sched with
  | Ok (_, s) => s
  | Fault _ => example_sched
  end.

(** A parallel queue of group 3 holding the events 11 and 12, attached. *)
Definition example_grouped : odp_state :=
  the_state
    (example_attached example_group SYNC_NONE 3
       [example_hdr 11 0; example_hdr 12 1]).

(** ** Further example states *)

(** Externals whose driver retires its port at the first poll. *)
Definition example_retiring_ext : odp_externals := {|
  pktin_poll := λ _ st, (1, st);
  release_order := λ _ _ _ _ st, (0, st);
  queue_destroy_finalize := λ _ st, st;
  queue_to_id := λ q, q;
  pktio_to_id := λ p, p;
  odp_time_cycles := example_clock;
  odp_time_diff_cycles := λ c1 c2, c2 - c1;
  odp_spin := λ _ st, st;
|}.

(** A parallel queue holding the events 11, 12 and 13, attached. *)
Definition example_parallel : odp_state :=
  the_state
    (example_attached example_sched SYNC_NONE 0
       [example_hdr 11 0; example_hdr 12 1; example_hdr 13 2]).

(** An atomic queue holding the events 11 and 12, attached. *)
Definition example_atomic : odp_state :=
  the_state
    (example_attached example_sched SYNC_ATOMIC 0
       [example_hdr 11 0; example_hdr 12 1]).

(** An ordered queue holding the events 11, 12 and 13, attached. *)
Definition example_ordered : odp_state :=
  the_state
    (example_attached example_sched SYNC_ORDERED 0
       [example_hdr 11 0; example_hdr 12 1; example_hdr 13 2]).

(** A parallel queue without events, attached. *)
Definition example_sleeping : odp_state :=
  the_state (example_attached example_sched SYNC_NONE 0 []).

(** Queue entry 9: handle 1001, priority 2, parallel, holding event 21,
    attached with command buffer 51 and put on its lane. *)
Definition example_low_prio : odp_state :=
  the_state
    (let ext := example_ext0 in
     let e := {| q_handle := 1001; q_prio := 2; q_group := 0;
                 q_sync := SYNC_NONE; q_lock_count := 0; q_sync_out := [];
                 q_pri_queue := None; q_cmd_ev := None;
                 q_events := [example_hdr 21 0]; q_destroyed := false |} in
     let st0 := set_queues {[ 9 := e ]} (example_idle example_sched) in
     '(_, st1) ← schedule_queue_init (Some 51) 9 st0;
     '(_, st2) ← schedule_queue 9 st1;
     Ok st2).

(** Thread 0 has been dispatched both events of the atomic queue: it holds
    the atomic context and its cache is empty. *)
Definition example_atomic_held : odp_state :=
  the_state
    ('(_, st') ← schedule (cfg := linux_generic) (ext := example_ext0)
                   0 true 2 MAX_DEQ example_atomic;
     Ok st').

(** The entry of queue 7 once attached. *)
Definition attached_queue (sync : sched_sync_t)
  (evs : list odp_buffer_hdr_t) : queue_entry_t :=
  set_q_token (Some 102) (Some 50) (example_queue sync 0 evs).

(** Queue, pool and shm functions that answer [rq], [rp] and [rs] and leave
    the state alone. *)
Definition example_term_ext (rq rp rs : Z) : odp_term_externals := {|
  odp_queue_destroy := λ _ st, (rq, st);
  odp_pool_destroy := λ st, (rp, st);
  odp_shm_free := λ st, (rs, st);
|}.

(** Lane 102 holds the command of the parallel queue and the poll command
    60 of port 5. *)
Definition example_to_drain : odp_state :=
  set_cmds (<[60 := SCHED_CMD_POLL_PKTIN 5 0 0]> (cmds example_parallel))
    (set_lanes (<[102 := [50; 60]]> (lanes example_parallel))
       example_parallel).


(** Thread 0 holds the ordered context of queue 7 and has set the
    [ignore_ordered_context] mark. *)
Definition example_marked : odp_state :=
  set_sched_local
    (set_l_ignore_ordered_context 1 (sched_local example_ordered_ctx))
    example_ordered_ctx.


(** * Properties *)

(** ** Arrays and bits *)

Section ArrayLemmas.
Context {A : Type}.
Implicit Types (l : list A) (i j : Z) (a : A).

Lemma zget_Some l i a : zget l i = Some a → 0 ≤ i < Z.of_nat (length l).
Proof.
  unfold zget. case_decide; [|done]. intros Hl%lookup_lt_Some. lia.
Qed.

Lemma zget_is_Some l i : 0 ≤ i < Z.of_nat (length l) → is_Some (zget l i).
Proof.
  intros [? ?]. unfold zget. rewrite decide_True by done.
  apply lookup_lt_is_Some. lia.
Qed.

Lemma length_zset l i a : length (zset l i a) = length l.
Proof. unfold zset. case_decide; [apply length_insert | done]. Qed.

Lemma zget_zset_eq l i a :
  0 ≤ i < Z.of_nat (length l) → zget (zset l i a) i = Some a.
Proof.
  intros [? ?]. unfold zget, zset. rewrite !decide_True by done.
  apply list_lookup_insert_eq. lia.
Qed.

Lemma zget_zset_ne l i j a : i ≠ j → zget (zset l i a) j = zget l j.
Proof.
  intros Hne. unfold zget, zset. repeat case_decide; try done.
  apply list_lookup_insert_ne. lia.
Qed.

Lemma zget_zset l i j a :
  0 ≤ i < Z.of_nat (length l) →
  zget (zset l i a) j = if decide (i = j) then Some a else zget l j.
Proof.
  intros. case_decide; [subst; by apply zget_zset_eq | by apply zget_zset_ne].
Qed.

Lemma zget_replicate (n : nat) a i :
  0 ≤ i < Z.of_nat n → zget (replicate n a) i = Some a.
Proof.
  intros [? ?]. unfold zget. rewrite decide_True by done.
  apply lookup_replicate_2. lia.
Qed.

End ArrayLemmas.

Section Array2Lemmas.
Context {A : Type}.
Implicit Types (l : list (list A)) (i j : Z) (a : A).

Lemma zget2_zset2 l i j i' j' a c :
  zget2 l i j = Some c →
  zget2 (zset2 l i j a) i' j'
  = if decide (i = i' ∧ j = j') then Some a else zget2 l i' j'.
Proof.
  unfold zget2, zset2. intros Hc.
  destruct (zget l i) as [row|] eqn:Hrow; simpl in *; [|done].
  pose proof (zget_Some _ _ _ Hrow). pose proof (zget_Some _ _ _ Hc).
  rewrite zget_zset by done.
  destruct (decide (i = i')) as [->|Hi]; simpl.
  - rewrite zget_zset by done. rewrite Hrow. simpl.
    destruct (decide (j = j')) as [->|Hj].
    + by rewrite decide_True.
    + rewrite decide_False by tauto. done.
  - rewrite decide_False by tauto. done.
Qed.

End Array2Lemmas.

Lemma land_shiftl_1 m id :
  0 ≤ id → (Z.land m (Z.shiftl 1 id) ≠ 0 ↔ Z.testbit m id = true).
Proof.
  intros Hid. rewrite Z.shiftl_1_l.
  assert (Z.land m (2 ^ id) = if Z.testbit m id then 2 ^ id else 0) as ->.
  { apply Z.bits_inj_iff'. intros n Hn.
    rewrite Z.land_spec, Z.pow2_bits_eqb by done.
    destruct (Z.eqb_spec id n) as [->|Hne].
    - destruct (Z.testbit m n); simpl.
      + rewrite Z.pow2_bits_eqb by done. by rewrite Z.eqb_refl.
      + by rewrite Z.bits_0.
    - rewrite andb_false_r. destruct (Z.testbit m id).
      + rewrite Z.pow2_bits_eqb by done. symmetry. by apply Z.eqb_neq.
      + by rewrite Z.bits_0. }
  destruct (Z.testbit m id); [|done].
  split; [done|]. intros _. apply Z.pow_nonzero; lia.
Qed.

(** Bits of the mask a [pri_set] stores. *)
Lemma pri_set_bits m id n :
  0 ≤ id → 0 ≤ n < 8 →
  Z.testbit (wrap8 (Z.lor m (Z.shiftl 1 id))) n
  = Z.testbit m n || bool_decide (id = n).
Proof.
  intros Hid Hn. unfold wrap8. rewrite Z.mod_pow2_bits_low by lia.
  rewrite Z.lor_spec, Z.shiftl_1_l, Z.pow2_bits_eqb by done.
  f_equal. destruct (Z.eqb_spec id n); [by rewrite bool_decide_true | by rewrite bool_decide_false].
Qed.

(** Bits of the mask a [pri_clr] stores when the count reaches zero. *)
Lemma pri_clr_bits m id n :
  0 ≤ id → 0 ≤ n < 8 →
  Z.testbit (Z.land m (wrap8 (Z.lnot (Z.shiftl 1 id)))) n
  = Z.testbit m n && negb (bool_decide (id = n)).
Proof.
  intros Hid Hn. unfold wrap8. rewrite Z.land_spec.
  rewrite Z.mod_pow2_bits_low by lia.
  rewrite Z.lnot_spec, Z.shiftl_1_l, Z.pow2_bits_eqb by lia.
  do 2 f_equal. destruct (Z.eqb_spec id n); [by rewrite bool_decide_true | by rewrite bool_decide_false].
Qed.

Section FabricProofs.
Context {cfg : odp_config} {ext : odp_externals}.

Lemma fabric_wf_inv s : fabric_wf s → mask_count_inv s.
Proof.
  intros [Hshape Hbits] prio id Hp Hid.
  destruct (Hshape prio id) as ([m Hm] & [c Hc] & _); [done|].
  exists (bool_decide (Z.land m (Z.shiftl 1 id) ≠ 0)), c.
  unfold pri_bit. rewrite Hm. simpl. split_and!; [done..|].
  rewrite bool_decide_eq_true, land_shiftl_1 by lia.
  destruct (Hbits prio id m c) as [_ ->]; [done..|]. lia.
Qed.

Lemma zget2_Some_intro {A} (l : list (list A)) i j row a :
  zget l i = Some row → zget row j = Some a → zget2 l i j = Some a.
Proof. unfold zget2. intros Hr Ha. rewrite Hr. exact Ha. Qed.

Lemma zget2_Some_row {A} (l : list (list A)) i j a :
  zget2 l i j = Some a → ∃ row, zget l i = Some row ∧ zget row j = Some a.
Proof.
  unfold zget2. destruct (zget l i) as [row|]; simpl; [eauto | done].
Qed.

Lemma pri_set_ok s id prio c :
  fabric_wf s → lane_ok id prio →
  zget2 (pri_count s) prio id = Some c → c < UINT32_MAX →
  ∃ q s', pri_set id prio s = Ok (q, s') ∧ fabric_wf s'
          ∧ zget2 (pri_queue s) prio id = Some q
          ∧ zget2 (pri_count s') prio id = Some (c + 1).
Proof.
  intros [Hshape Hbits] Hl Hc Hmax.
  destruct (Hshape prio id Hl) as ([m Hm] & _ & [q Hq]).
  destruct (Hbits prio id m c Hl Hm Hc) as [Hrange Hbit].
  unfold UINT32_MAX in Hmax.
  assert (wrap32 (c + 1) = c + 1) as Hw
    by (unfold wrap32; apply Z.mod_small; lia).
  pose proof (zget_Some _ _ _ Hm) as Hmlen.
  exists q. eexists. split.
  { unfold pri_set. rewrite Hm. simpl. rewrite Hc. simpl. rewrite Hq. simpl.
    reflexivity. }
  rewrite Hw. simpl. split_and!; [|done|].
  - split.
    + intros p i Hpi. simpl.
      destruct (Hshape p i Hpi) as (Hm' & Hc' & Hq'). split_and!; [|  |done].
      * rewrite zget_zset by done. case_decide; eauto.
      * rewrite (zget2_zset2 _ _ _ _ _ _ c) by done. case_decide; eauto.
    + intros p i m' c' Hpi. simpl.
      rewrite zget_zset by done.
      rewrite (zget2_zset2 _ _ _ _ _ _ c) by done.
      destruct Hl as [? ?], Hpi as [? ?]. unfold QUEUES_PER_PRIO in *.
      destruct (decide (prio = p)) as [->|Hp].
      * intros [= <-]. rewrite pri_set_bits by lia.
        destruct (decide (id = i)) as [->|Hi].
        -- rewrite decide_True by done. intros [= <-].
           rewrite bool_decide_true by done. rewrite orb_true_r. lia.
        -- rewrite decide_False by tauto. intros Hc'.
           rewrite bool_decide_false by done. rewrite orb_false_r.
           by apply (Hbits p i).
      * rewrite decide_False by tauto. intros Hm' Hc'. by apply (Hbits p i).
  - simpl. rewrite (zget2_zset2 _ _ _ _ _ _ c) by done.
    by rewrite decide_True.
Qed.

Lemma pri_clr_ok s id prio c :
  fabric_wf s → lane_ok id prio →
  zget2 (pri_count s) prio id = Some c → 0 < c →
  ∃ s', pri_clr id prio s = Ok s' ∧ fabric_wf s'
        ∧ zget2 (pri_count s') prio id = Some (c - 1).
Proof.
  intros [Hshape Hbits] Hl Hc Hpos.
  destruct (Hshape prio id Hl) as ([m Hm] & _ & [q Hq]).
  destruct (Hbits prio id m c Hl Hm Hc) as [Hrange Hbit].
  assert (wrap32 (c - 1) = c - 1) as Hw
    by (unfold wrap32; apply Z.mod_small; lia).
  pose proof (zget_Some _ _ _ Hm) as Hmlen.
  assert (zget2 (zset2 (pri_count s) prio id (c - 1)) prio id = Some (c - 1))
    as Hc1.
  { rewrite (zget2_zset2 _ _ _ _ _ _ c) by done. by rewrite decide_True. }
  unfold pri_clr. rewrite Hc. simpl. rewrite Hw, Hc1. simpl.
  destruct Hl as [? ?]. unfold QUEUES_PER_PRIO in *.
  destruct (decide (c - 1 = 0)) as [Hz|Hnz].
  - rewrite Hm. simpl. eexists. split; [reflexivity|]. simpl.
    split; [|done]. split.
    + intros p i Hpi. simpl.
      destruct (Hshape p i Hpi) as (Hm' & Hc' & Hq'). split_and!; [|  |done].
      * rewrite zget_zset by done. case_decide; eauto.
      * rewrite (zget2_zset2 _ _ _ _ _ _ c) by done. case_decide; eauto.
    + intros p i m' c' [? ?]. simpl. unfold QUEUES_PER_PRIO in *.
      rewrite zget_zset by done.
      rewrite (zget2_zset2 _ _ _ _ _ _ c) by done.
      destruct (decide (prio = p)) as [->|Hp].
      * intros [= <-]. rewrite pri_clr_bits by lia.
        destruct (decide (id = i)) as [->|Hi].
        -- rewrite decide_True by done. intros [= <-].
           rewrite bool_decide_true by done. rewrite andb_false_r.
           split; [lia|]. split; [done | lia].
        -- rewrite decide_False by tauto. intros Hc'.
           rewrite bool_decide_false by done. rewrite andb_true_r.
           by apply (Hbits p i).
      * rewrite decide_False by tauto. intros Hm' Hc'. by apply (Hbits p i).
  - eexists. split; [reflexivity|]. simpl. split; [|done]. split.
    + intros p i Hpi. simpl.
      destruct (Hshape p i Hpi) as (Hm' & Hc' & Hq'). split_and!; [done| |done].
      rewrite (zget2_zset2 _ _ _ _ _ _ c) by done. case_decide; eauto.
    + intros p i m' c' [? ?]. simpl.
      rewrite (zget2_zset2 _ _ _ _ _ _ c) by done.
      destruct (decide (prio = p ∧ id = i)) as [[-> ->]|Hne].
      * intros Hm'. assert (m' = m) as -> by congruence. intros [= <-].
        split; [lia|]. split; [lia|]. intros _. apply Hbit. lia.
      * intros Hm' Hc'. by apply (Hbits p i).
Qed.

Lemma fabric_step_ok s op :
  fabric_wf s → op_ok s op → ∃ s', fabric_step op s = Ok s' ∧ fabric_wf s'.
Proof.
  intros Hwf. destruct op as [id prio|id prio]; simpl.
  - intros [Hl Hmax].
    destruct (zget2 (pri_count s) prio id) as [c|] eqn:Hc; [|done].
    destruct (pri_set_ok s id prio c) as (q & s' & -> & ? & _); [done..|].
    simpl. eauto.
  - intros [Hl Hpos].
    destruct (zget2 (pri_count s) prio id) as [c|] eqn:Hc; [|done].
    destruct (pri_clr_ok s id prio c) as (s' & -> & ? & _); [done..|]. eauto.
Qed.

Lemma fabric_run_ok ops : ∀ s,
  fabric_wf s → trace_ok s ops →
  ∃ ss, fabric_run ops s = Ok ss ∧ length ss = length ops
        ∧ Forall mask_count_inv ss.
Proof.
  induction ops as [|op ops IH]; intros s Hwf Hok; simpl in *.
  - exists []. by split_and!.
  - destruct Hok as [Hop Hrest].
    destruct (fabric_step_ok s op Hwf Hop) as (s' & Hs' & Hwf').
    rewrite Hs' in Hrest |- *. simpl.
    destruct (IH s' Hwf' Hrest) as (ss & -> & Hlen & Hall). simpl.
    exists (s' :: ss). split_and!; [done | simpl; lia |].
    constructor; [by apply fabric_wf_inv | done].
Qed.

Lemma zget_fmap_seqZ {A} (f : Z → A) n i :
  0 ≤ i < n → zget (f <$> seqZ 0 n) i = Some (f i).
Proof.
  intros [? ?]. unfold zget. rewrite decide_True by done.
  rewrite list_lookup_fmap, lookup_seqZ_lt by lia. simpl. f_equal. f_equal. lia.
Qed.

Lemma sched_init_wf pri_q tm : fabric_wf (sched_init pri_q tm).
Proof.
  assert (∀ prio id, lane_ok id prio →
            zget (pri_mask (sched_init pri_q tm)) prio = Some 0
            ∧ zget2 (pri_count (sched_init pri_q tm)) prio id = Some 0
            ∧ zget2 (pri_queue (sched_init pri_q tm)) prio id
              = Some (pri_q prio id)) as Hinit.
  { intros prio id [? ?]. split_and!.
    - apply zget_replicate. lia.
    - eapply zget2_Some_intro; apply zget_replicate; lia.
    - eapply zget2_Some_intro; [apply zget_fmap_seqZ; lia|].
      by apply (zget_fmap_seqZ (pri_q prio)). }
  split.
  - intros prio id Hl. destruct (Hinit prio id Hl) as (-> & -> & ->). eauto.
  - intros prio id m c Hl. destruct (Hinit prio id Hl) as (-> & -> & _).
    intros [= <-] [= <-]. rewrite Z.bits_0. split; [lia|]. split; [done | lia].
Qed.

End FabricProofs.

(** *** The mask bit of a lane and its count *)

Section FabricClaims.
Context {cfg : odp_config} {ext : odp_externals}.

(** C1: for every sequence of attach and detach operations
    ([pri_set]/[pri_clr]) on the fabric [odp_schedule_init_global] leaves,
    every operation returns, and after each of them the bit for (p, id) is
    set in [pri_mask[p]] if and only if [pri_count[p][id] > 0]. The two
    functions are static and [trace_ok] is what their callers do: a
    [pri_clr] detaches what an earlier [pri_set] attached, so it finds a
    positive count for its lane, and a [pri_set] finds a count below
    2^32 - 1, every attach holding a command buffer of the pool. *)
Theorem pri_mask_tracks_pri_count pri_q tm ops :
  trace_ok (sched_init pri_q tm) ops →
  ∃ ss, fabric_run ops (sched_init pri_q tm) = Ok ss
        ∧ length ss = length ops
        ∧ Forall mask_count_inv ss.
Proof. apply fabric_run_ok, sched_init_wf. Qed.

End FabricClaims.

(** Attach a queue to lane 2 of priority 0, then detach it. *)
Lemma pri_mask_tracks_pri_count_witness :
  let ops := [PRI_SET 2 0; PRI_CLR 2 0] in
  trace_ok (cfg := linux_generic) example_sched ops
  ∧ ∃ ss, fabric_run ops example_sched = Ok ss
          ∧ length ss = length ops
          ∧ Forall (mask_count_inv (cfg := linux_generic)) ss.
Proof.
  assert (trace_ok (cfg := linux_generic) example_sched
            [PRI_SET 2 0; PRI_CLR 2 0]) as Hok.
  { vm_compute. by split_and!. }
  split; [exact Hok|].
  exact (pri_mask_tracks_pri_count (cfg := linux_generic) _ _ _ Hok).
Defined.


(** ** Serving cached events *)

Section CacheProofs.
Context {cfg : odp_config} {ext : odp_externals}.

Lemma sched_local_eta l num idx :
  num = l_num l → idx = l_index l →
  set_l_num num (set_l_index idx l) = l.
Proof. intros -> ->. by destruct l. Qed.

Lemma copy_events_loop_cached fuel : ∀ max out l evs,
  0 ≤ max ≤ Z.of_nat fuel → cache_holds l evs →
  copy_events_loop fuel max out l
  = Ok (out ++ (handle <$> take (Z.to_nat max) evs),
        set_l_num (l_num l - Z.min (l_num l) max)
          (set_l_index (l_index l + Z.min (l_num l) max) l)).
Proof.
  induction fuel as [|fuel IH]; intros max out l evs Hmax (Hidx & Hnum & Hbuf).
  - assert (max = 0) as -> by lia. simpl.
    rewrite decide_False by tauto. rewrite app_nil_r.
    rewrite sched_local_eta; [done | lia..].
  - simpl. destruct (decide (l_num l ≠ 0 ∧ max ≠ 0)) as [[Hn Hm]|Hstop].
    + destruct evs as [|e evs]; [simpl in Hnum; lia|].
      assert (l_buf_hdr l !! Z.to_nat (l_index l) = Some (Some e)) as Hget.
      { rewrite <- (Nat.add_0_r (Z.to_nat _)), <- lookup_drop.
        rewrite <- (lookup_take_lt _ (length (e :: evs))) by (simpl; lia).
        by rewrite Hbuf. }
      unfold zget at 1. rewrite decide_True by done. rewrite Hget. simpl.
      rewrite (IH (max - 1) _ _ evs); [|lia|].
      * f_equal. f_equal.
        -- rewrite <- app_assoc. f_equal. simpl.
           replace (Z.to_nat max) with (S (Z.to_nat (max - 1))) by lia.
           done.
        -- destruct l; unfold set_l_num, set_l_index;
             cbn -[Z.min Z.add Z.sub] in *. f_equal; lia.
      * split_and!; simpl; [lia | simpl in Hnum; lia |].
        rewrite (drop_S _ _ _ Hget) in Hbuf. simpl in Hbuf.
        replace (Z.to_nat (l_index l + 1)) with (S (Z.to_nat (l_index l)))
          by lia.
        by injection Hbuf.
    + rewrite sched_local_eta by (destruct (decide (l_num l = 0)); lia).
      f_equal. f_equal.
      destruct (decide (l_num l = 0)) as [Hz|Hnz].
      * destruct evs; [|simpl in Hnum; lia]. by rewrite take_nil, app_nil_r.
      * assert (max = 0) as -> by (destruct (decide (max = 0)); tauto).
        by rewrite app_nil_r.
Qed.

Lemma copy_events_cached max l evs :
  0 ≤ max → cache_holds l evs →
  copy_events max l
  = Ok (handle <$> take (Z.to_nat max) evs,
        set_l_num (l_num l - Z.min (l_num l) max)
          (set_l_index (l_index l + Z.min (l_num l) max) l)).
Proof.
  intros Hmax Hc. unfold copy_events.
  by rewrite (copy_events_loop_cached _ _ _ _ evs) by (done || lia).
Qed.

Lemma length_take_cached max l evs :
  0 ≤ max → cache_holds l evs →
  Z.of_nat (length (handle <$> take (Z.to_nat max) evs))
  = Z.min (l_num l) max.
Proof.
  intros Hmax (_ & Hnum & _). rewrite length_fmap, length_take. lia.
Qed.

(** C8: a call to [schedule] with [sched_local.num > 0], the cache holding
    the events [evs], copies exactly min(num, max_num) cached events to
    [out_ev], decreases [num] and advances [index] by that count, stores the
    handle of the cached source queue through [out_queue] when it is
    non-null, and returns that count; nothing else changes, so the atomic and
    the ordered context are as before. *)
Theorem schedule_serves_cached_events thr out_queue_p max_num max_deq st
    evs q qe :
  let l := sched_local st in
  let n := Z.min (l_num l) max_num in
  0 < l_num l → 0 ≤ max_num → cache_holds l evs →
  (out_queue_p = true → l_qe l = Some q ∧ queues st !! q = Some qe) →
  ∃ l',
    schedule thr out_queue_p max_num max_deq st
    = Ok ({| ret := n;
             out_queue := if out_queue_p then Some (q_handle qe) else None;
             out_ev := handle <$> take (Z.to_nat n) evs;
             deq_log := [] |},
          set_sched_local l' st)
    ∧ l' = set_l_num (l_num l - n) (set_l_index (l_index l + n) l)
    ∧ l_pri_queue l' = l_pri_queue l ∧ l_cmd_ev l' = l_cmd_ev l
    ∧ l_origin_qe l' = l_origin_qe l ∧ l_order l' = l_order l
    ∧ l_sync l' = l_sync l ∧ l_enq_called l' = l_enq_called l.
Proof.
  intros l n Hnum Hmax Hcache Hq. eexists. split; [|by split_and!].
  unfold schedule. fold l. rewrite decide_True by lia.
  rewrite (copy_events_cached _ _ evs) by done. simpl.
  rewrite (length_take_cached _ l) by done. fold n.
  assert (take (Z.to_nat max_num) evs = take (Z.to_nat n) evs) as ->.
  { destruct Hcache as (_ & Hlen & _). subst n.
    destruct (Z.min_spec (l_num l) max_num) as [[? ->]|[? ->]]; [|done].
    rewrite !take_ge by lia. done. }
  destruct out_queue_p; simpl; [|done].
  destruct Hq as [Hq Hqe]; [done|]. rewrite Hq. simpl. rewrite Hqe. done.
Qed.

End CacheProofs.

(** ** C strings *)

Lemma c_str_nonzero l : Forall (λ c, c ≠ 0) (c_str l).
Proof.
  induction l as [|c l IH]; simpl; [constructor|].
  case_decide; [constructor | by constructor].
Qed.

Lemma c_str_app s r : Forall (λ c, c ≠ 0) s → c_str (s ++ r) = s ++ c_str r.
Proof.
  induction 1 as [|c s Hc _ IH]; simpl; [done|].
  rewrite decide_False by done. by rewrite IH.
Qed.

Lemma c_str_idemp l : c_str (c_str l) = c_str l.
Proof.
  rewrite <- (app_nil_r (c_str l)) at 1.
  rewrite c_str_app by apply c_str_nonzero. simpl. apply app_nil_r.
Qed.

Lemma c_str_zeros n r : c_str (replicate (S n) 0 ++ r) = [].
Proof. done. Qed.

Lemma c_str_nil_iff l c : zget l 0 = Some c → c_str l = [] ↔ c = 0.
Proof.
  destruct l as [|c' l]; [done|]. intros [= ->]. simpl.
  case_decide; [done|]. split; [done | tauto].
Qed.

Lemma strcmp_0_iff a : ∀ b, strcmp a b = 0 ↔ c_str a = c_str b.
Proof.
  induction a as [|ca a IH]; intros [|cb b]; simpl.
  - done.
  - case_decide; [subst; done|]. split; [lia | done].
  - case_decide; [subst; done|]. split; [lia | done].
  - destruct (decide (ca = cb)) as [->|Hne].
    + destruct (decide (cb = 0)); [done|]. rewrite IH. split; congruence.
    + split; [lia|]. repeat case_decide; congruence.
Qed.

Lemma c_str_strncpy dst src (n : nat) :
  length dst = S n → dst !! n = Some 0 →
  c_str (strncpy dst src n) = take n (c_str src).
Proof.
  intros Hlen Hlast. unfold strncpy.
  rewrite c_str_app by (apply Forall_take, c_str_nonzero).
  rewrite (drop_S _ _ _ Hlast), drop_ge by lia.
  destruct (n - length (take n (c_str src)))%nat; simpl; by rewrite app_nil_r.
Qed.

Lemma length_strncpy dst src (n : nat) :
  (n ≤ length dst)%nat → length (strncpy dst src n) = length dst.
Proof.
  intros Hn. unfold strncpy.
  rewrite !length_app, length_replicate, length_drop, length_take. lia.
Qed.

Lemma lookup_strncpy_last dst src (n : nat) :
  strncpy dst src n !! n = dst !! n.
Proof.
  unfold strncpy. rewrite app_assoc.
  assert (length (take n (c_str src)
                  ++ replicate (n - length (take n (c_str src))) 0) = n)
    as Hlen by (rewrite length_app, length_replicate, length_take; lia).
  rewrite lookup_app_r by lia. rewrite Hlen, Nat.sub_diag.
  rewrite lookup_drop. f_equal. lia.
Qed.

(** ** Schedule groups: validation of the group id *)

Section GroupProofs.
Context {cfg : odp_config}.

(** The guard shared by destroy, join, leave and thrmask. *)
Lemma grp_guard_named group s :
  grp_occupied group s ↔
  grp_named group ∧ ∃ c, grp_name0 group s = Ok c ∧ c ≠ 0.
Proof.
  unfold grp_occupied, grp_name0. split.
  - intros (Hn & g & c & Hg & Hc & Hne). split; [done|]. exists c.
    rewrite Hg. simpl. rewrite Hc. done.
  - intros (Hn & c & Hc & Hne). split; [done|].
    destruct (zget (sched_grp s) group) as [g|]; simpl in Hc; [|done].
    destruct (zget (name g) 0) as [c'|] eqn:Hc'; simpl in Hc; [|done].
    simplify_eq. eauto.
Qed.

Lemma well_known_not_named group :
  group < _ODP_SCHED_GROUP_NAMED → ¬ grp_named group.
Proof. unfold grp_named. lia. Qed.

Lemma group_destroy_ret group s r s' :
  odp_schedule_group_destroy group s = Ok (r, s') →
  (r = 0 ∧ grp_occupied group s) ∨ (r = -1 ∧ s' = s).
Proof.
  unfold odp_schedule_group_destroy, grp_occupied.
  destruct (decide (grp_named group)) as [Hn|Hn]; [|intros [= <- <-]; by right].
  destruct (zget (sched_grp s) group) as [g|]; simpl; [|done].
  destruct (zget (name g) 0) as [c|] eqn:Hc; simpl; [|done].
  case_decide; intros [= <- <-]; [left; eauto 10 | by right].
Qed.

Lemma group_join_ret group msk s r s' :
  odp_schedule_group_join group msk s = Ok (r, s') →
  (r = 0 ∧ grp_occupied group s) ∨ (r = -1 ∧ s' = s).
Proof.
  unfold odp_schedule_group_join, grp_occupied.
  destruct (decide (grp_named group)) as [Hn|Hn]; [|intros [= <- <-]; by right].
  destruct (zget (sched_grp s) group) as [g|]; simpl; [|done].
  destruct (zget (name g) 0) as [c|] eqn:Hc; simpl; [|done].
  case_decide; intros [= <- <-]; [left; eauto 10 | by right].
Qed.

Lemma group_leave_ret group msk s r s' :
  odp_schedule_group_leave group msk s = Ok (r, s') →
  (r = 0 ∧ grp_occupied group s) ∨ (r = -1 ∧ s' = s).
Proof.
  unfold odp_schedule_group_leave, grp_occupied.
  destruct (decide (grp_named group)) as [Hn|Hn]; [|intros [= <- <-]; by right].
  destruct (zget (sched_grp s) group) as [g|]; simpl; [|done].
  destruct (zget (name g) 0) as [c|] eqn:Hc; simpl; [|done].
  case_decide; intros [= <- <-]; [left; eauto 10 | by right].
Qed.

Lemma group_thrmask_ret group s r m :
  odp_schedule_group_thrmask group s = Ok (r, m) →
  (r = 0 ∧ grp_occupied group s) ∨ (r = -1 ∧ m = None).
Proof.
  unfold odp_schedule_group_thrmask, grp_occupied.
  destruct (decide (grp_named group)) as [Hn|Hn]; [|intros [= <- <-]; by right].
  destruct (zget (sched_grp s) group) as [g|]; simpl; [|done].
  destruct (zget (name g) 0) as [c|] eqn:Hc; simpl; [|done].
  case_decide; intros [= <- <-]; [left; eauto 10 | by right].
Qed.

Lemma group_ops_occupied group msk s :
  grp_occupied group s →
  (∃ s', odp_schedule_group_destroy group s = Ok (0, s'))
  ∧ (∃ s', odp_schedule_group_join group msk s = Ok (0, s'))
  ∧ (∃ s', odp_schedule_group_leave group msk s = Ok (0, s'))
  ∧ (∃ m, odp_schedule_group_thrmask group s = Ok (0, Some m)).
Proof.
  intros (Hn & g & c & Hg & Hc & Hne).
  unfold odp_schedule_group_destroy, odp_schedule_group_join,
    odp_schedule_group_leave, odp_schedule_group_thrmask.
  rewrite !decide_True by done. rewrite Hg. simpl. rewrite Hc. simpl.
  rewrite !decide_True by done. eauto 10.
Qed.

(** C10: destroy, join, leave and thrmask reject every group id below the
    first named slot, so the well-known groups ALL, WORKER and CONTROL: they
    return -1 and change nothing. Each of them returns 0 only for an id in
    the named range whose slot holds a non-empty name, and does return 0 for
    every such id. *)
Theorem group_ops_reject_well_known group msk s :
  (ODP_SCHED_GROUP_ALL < _ODP_SCHED_GROUP_NAMED
   ∧ ODP_SCHED_GROUP_WORKER < _ODP_SCHED_GROUP_NAMED
   ∧ ODP_SCHED_GROUP_CONTROL < _ODP_SCHED_GROUP_NAMED)
  ∧ (group < _ODP_SCHED_GROUP_NAMED →
       odp_schedule_group_destroy group s = Ok (-1, s)
       ∧ odp_schedule_group_join group msk s = Ok (-1, s)
       ∧ odp_schedule_group_leave group msk s = Ok (-1, s)
       ∧ odp_schedule_group_thrmask group s = Ok (-1, None))
  ∧ ((∃ s', odp_schedule_group_destroy group s = Ok (0, s'))
      ↔ grp_occupied group s)
  ∧ ((∃ s', odp_schedule_group_join group msk s = Ok (0, s'))
      ↔ grp_occupied group s)
  ∧ ((∃ s', odp_schedule_group_leave group msk s = Ok (0, s'))
      ↔ grp_occupied group s)
  ∧ ((∃ m, odp_schedule_group_thrmask group s = Ok (0, m))
      ↔ grp_occupied group s).
Proof.
  split; [by compute|]. split.
  { intros Hlt%well_known_not_named.
    unfold odp_schedule_group_destroy, odp_schedule_group_join,
      odp_schedule_group_leave, odp_schedule_group_thrmask.
    by rewrite !decide_False by done. }
  pose proof (group_ops_occupied group msk s) as Hocc.
  split_and!; (split; [intros [x Hx]|intros Ho; by apply Hocc in Ho as (?&?&?&[]); eauto]).
  - apply group_destroy_ret in Hx as [[_ ?]|[? _]]; [done | lia].
  - apply group_join_ret in Hx as [[_ ?]|[? _]]; [done | lia].
  - apply group_leave_ret in Hx as [[_ ?]|[? _]]; [done | lia].
  - apply group_thrmask_ret in Hx as [[_ ?]|[? _]]; [done | lia].
Qed.

End GroupProofs.

(** ** Schedule groups: join and leave *)

Section JoinLeave.
Context {cfg : odp_config}.

Lemma thrmask_wf_width m : Thrmask.wf m → 0 ≤ ODP_CONFIG_MAX_THREADS.
Proof.
  intros [Hlo Hhi]. destruct (decide (0 ≤ ODP_CONFIG_MAX_THREADS)); [done|].
  rewrite Z.pow_neg_r in Hhi by lia. lia.
Qed.

Lemma thrmask_wf_high m n :
  Thrmask.wf m → ODP_CONFIG_MAX_THREADS ≤ n → Z.testbit m n = false.
Proof.
  intros Hwf Hn. pose proof (thrmask_wf_width m Hwf).
  rewrite <- (Z.mod_small m (2 ^ ODP_CONFIG_MAX_THREADS)) by apply Hwf.
  apply Z.mod_pow2_bits_high. lia.
Qed.

Lemma setall_bits n :
  0 ≤ ODP_CONFIG_MAX_THREADS → 0 ≤ n →
  Z.testbit odp_thrmask_setall n = bool_decide (n < ODP_CONFIG_MAX_THREADS).
Proof.
  intros HT Hn. unfold odp_thrmask_setall.
  replace (2 ^ ODP_CONFIG_MAX_THREADS - 1)
    with (Z.ones ODP_CONFIG_MAX_THREADS) by (rewrite Z.ones_equiv; lia).
  case_bool_decide.
  - apply Z.ones_spec_low. lia.
  - apply Z.ones_spec_high. lia.
Qed.

(** The mask a leave stores after a join with the same mask. *)
Lemma join_leave_mask M m :
  Thrmask.wf M → Thrmask.wf m →
  odp_thrmask_and (odp_thrmask_or M m) (odp_thrmask_xor m sched_mask_all)
  = Z.ldiff M m.
Proof.
  intros HM Hm. unfold odp_thrmask_and, odp_thrmask_or, odp_thrmask_xor,
    sched_mask_all.
  apply Z.bits_inj_iff'. intros n Hn.
  rewrite Z.land_spec, Z.lor_spec, Z.lxor_spec, Z.ldiff_spec.
  rewrite setall_bits by (done || by eapply thrmask_wf_width).
  case_bool_decide.
  - destruct (Z.testbit M n), (Z.testbit m n); done.
  - rewrite !thrmask_wf_high by (done || lia). done.
Qed.

Lemma ldiff_id_iff M m : Z.ldiff M m = M ↔ Z.land M m = 0.
Proof.
  rewrite <- !Z.bits_inj_iff'. split; intros Hb n Hn; specialize (Hb n Hn);
    rewrite Z.ldiff_spec in *; rewrite Z.land_spec in *;
    rewrite ?Z.bits_0 in *;
    destruct (Z.testbit M n), (Z.testbit m n); done.
Qed.

Lemma set_sched_grp_id s : set_sched_grp (sched_grp s) s = s.
Proof. by destruct s. Qed.

Lemma zset_id {A} (l : list A) i a : zget l i = Some a → zset l i a = l.
Proof.
  unfold zget, zset. case_decide; [|done]. apply list_insert_id.
Qed.

Lemma zset_zset {A} (l : list A) i a b : zset (zset l i a) i b = zset l i b.
Proof.
  unfold zset. case_decide; [|done]. apply list_insert_insert_eq.
Qed.

(** C4 (as amended): for a named group [group] and thread masks within the
    mask width, a join that succeeds followed by a leave with the same mask
    leaves in [grp[group].mask] the members it had before the join that are
    not in the mask; the value before the join is restored if and only if no
    thread of the mask was a member before the join. *)
Theorem group_join_leave group m s g s1 :
  Thrmask.wf m → zget (sched_grp s) group = Some g → Thrmask.wf (mask g) →
  odp_schedule_group_join group m s = Ok (0, s1) →
  ∃ s2, odp_schedule_group_leave group m s1 = Ok (0, s2)
        ∧ s2 = set_sched_grp
                 (zset (sched_grp s) group
                    (set_mask (Z.ldiff (mask g) m) g)) s
        ∧ (s2 = s ↔ Z.land (mask g) m = 0).
Proof.
  intros Hm Hg HM Hjoin. pose proof (zget_Some _ _ _ Hg) as Hrange.
  unfold odp_schedule_group_join in Hjoin.
  destruct (decide (grp_named group)) as [Hn|]; [|by simplify_eq].
  rewrite Hg in Hjoin. simpl in Hjoin.
  destruct (zget (name g) 0) as [c|] eqn:Hc; simpl in Hjoin; [|done].
  destruct (decide (c ≠ 0)); [|by simplify_eq]. injection Hjoin as <-.
  exists (set_sched_grp
            (zset (sched_grp s) group (set_mask (Z.ldiff (mask g) m) g)) s).
  split_and!.
  - unfold odp_schedule_group_leave. rewrite decide_True by done. simpl.
    rewrite zget_zset_eq by done. simpl. rewrite Hc. simpl.
    rewrite decide_True by done. unfold set_mask at 1 2. simpl.
    rewrite join_leave_mask by done. rewrite zset_zset. reflexivity.
  - done.
  - split.
    + intros Heq. apply (f_equal (λ x, zget (sched_grp x) group)) in Heq.
      simpl in Heq. rewrite zget_zset_eq, Hg in Heq by done.
      apply ldiff_id_iff. injection Heq as Heq.
      by apply (f_equal mask) in Heq.
    + intros Hz%ldiff_id_iff. rewrite Hz.
      replace (set_mask (mask g) g) with g by (by destruct g).
      rewrite zset_id by done. apply set_sched_grp_id.
Qed.

End JoinLeave.

(** ** Schedule groups: create and lookup *)

Section LookupProofs.
Context {cfg : odp_config}.

(** Arithmetic on group ids, with the start of the named range unfolded. *)
Ltac named_lia :=
  unfold grp_named, _ODP_SCHED_GROUP_NAMED, ODP_SCHED_GROUP_CONTROL in *; lia.

Lemma grp_wf_name_len s :
  grp_wf s → 0 < ODP_CONFIG_SCHED_GRPS → 1 ≤ ODP_SCHED_GROUP_NAME_LEN.
Proof.
  intros Hwf HG. destruct (Hwf 0) as (g & _ & _ & Hlast); [lia|].
  apply zget_Some in Hlast. lia.
Qed.

Lemma grp_wf_slot s i :
  grp_wf s → 0 ≤ i < ODP_CONFIG_SCHED_GRPS →
  ∃ g c, zget (sched_grp s) i = Some g ∧ zget (name g) 0 = Some c
         ∧ (c = 0 ↔ c_str (name g) = []).
Proof.
  intros Hwf Hi. destruct (Hwf i Hi) as (g & Hg & Hlen & Hlast).
  apply zget_Some in Hlast.
  destruct (zget_is_Some (name g) 0) as [c Hc]; [lia|].
  exists g, c. split_and!; [done..|]. symmetry. by apply c_str_nil_iff.
Qed.

(** Storing an entry with a well-formed name buffer keeps the table
    well-formed. *)
Lemma grp_wf_zset s i g' :
  grp_wf s →
  length (name g') = Z.to_nat ODP_SCHED_GROUP_NAME_LEN →
  zget (name g') (ODP_SCHED_GROUP_NAME_LEN - 1) = Some 0 →
  grp_wf (set_sched_grp (zset (sched_grp s) i g') s).
Proof.
  intros Hwf Hlen Hlast j Hj. destruct (Hwf j Hj) as (g & Hg & ? & ?).
  simpl. destruct (decide (i = j)) as [->|Hne].
  - rewrite zget_zset_eq by (by eapply zget_Some). eauto.
  - rewrite zget_zset_ne by done. eauto.
Qed.

(** The name buffer a create stores. *)
Lemma created_name_wf s i g nm :
  grp_wf s → 0 ≤ i < ODP_CONFIG_SCHED_GRPS →
  zget (sched_grp s) i = Some g →
  let stored :=
    strncpy (name g) nm (Z.to_nat (ODP_SCHED_GROUP_NAME_LEN - 1)) in
  length stored = Z.to_nat ODP_SCHED_GROUP_NAME_LEN
  ∧ zget stored (ODP_SCHED_GROUP_NAME_LEN - 1) = Some 0
  ∧ c_str stored
    = take (Z.to_nat (ODP_SCHED_GROUP_NAME_LEN - 1)) (c_str nm).
Proof.
  intros Hwf Hi Hg stored. destruct (Hwf i Hi) as (g' & Hg' & Hlen & Hlast).
  simplify_eq. pose proof (zget_Some _ _ _ Hlast) as HN.
  unfold zget in Hlast. rewrite decide_True in Hlast by lia.
  subst stored. split_and!.
  - rewrite length_strncpy; [done | lia].
  - unfold zget. rewrite decide_True by lia. by rewrite lookup_strncpy_last.
  - apply c_str_strncpy; [lia | done].
Qed.

(** The name buffer a destroy stores. *)
Lemma cleared_name_wf :
  1 ≤ ODP_SCHED_GROUP_NAME_LEN →
  let stored := replicate (Z.to_nat ODP_SCHED_GROUP_NAME_LEN) 0 in
  length stored = Z.to_nat ODP_SCHED_GROUP_NAME_LEN
  ∧ zget stored (ODP_SCHED_GROUP_NAME_LEN - 1) = Some 0
  ∧ c_str stored = [].
Proof.
  intros HN stored. subst stored. split_and!.
  - apply length_replicate.
  - apply zget_replicate. lia.
  - replace (Z.to_nat ODP_SCHED_GROUP_NAME_LEN)
      with (S (Z.to_nat (ODP_SCHED_GROUP_NAME_LEN - 1))) by lia. done.
Qed.

(** What [odp_schedule_group_create] answers on a well-formed table: the
    first free named slot, filled, or the invalid handle and no change. *)
Lemma group_create_loop_spec nm msk s n : ∀ i,
  grp_wf s → 0 ≤ i → i + Z.of_nat n ≤ ODP_CONFIG_SCHED_GRPS →
  (∃ id g, i ≤ id < i + Z.of_nat n
     ∧ zget (sched_grp s) id = Some g ∧ c_str (name g) = []
     ∧ group_create_loop n i nm msk s
       = Ok (id, set_sched_grp
                   (zset (sched_grp s) id
                      {| name := strncpy (name g) nm
                                   (Z.to_nat (ODP_SCHED_GROUP_NAME_LEN - 1));
                         mask := msk |}) s))
  ∨ group_create_loop n i nm msk s = Ok (ODP_SCHED_GROUP_INVALID, s).
Proof.
  induction n as [|n IH]; intros i Hwf Hi Hn; simpl; [by right|].
  destruct (grp_wf_slot s i) as (g & c & Hg & Hc & Hfree); [done|lia|].
  rewrite Hg. simpl. rewrite Hc. simpl.
  destruct (decide (c = 0)) as [Hz|Hnz].
  - left. exists i, g. split_and!; [lia..|done|tauto|done].
  - destruct (IH (i + 1)) as [(id & g' & ? & ? & ? & ->)| ->]; [done|lia..| |].
    + left. exists id, g'. split_and!; [lia..|done|done|done].
    + by right.
Qed.

Lemma group_lookup_loop_spec nm s id n : ∀ i,
  grp_wf s → 0 ≤ i ≤ id → id < i + Z.of_nat n →
  id < ODP_CONFIG_SCHED_GRPS →
  (∃ g, zget (sched_grp s) id = Some g ∧ c_str (name g) = c_str nm) →
  (∀ j g, i ≤ j < id → zget (sched_grp s) j = Some g →
          c_str (name g) ≠ c_str nm) →
  group_lookup_loop n i nm s = Ok id.
Proof.
  induction n as [|n IH]; intros i Hwf Hi Hn HG Hid Hlow; simpl; [lia|].
  destruct (Hwf i) as (g & Hg & _); [lia|]. rewrite Hg. simpl.
  destruct (decide (i = id)) as [->|Hne].
  - destruct Hid as (g' & Hg' & Heq). simplify_eq.
    rewrite decide_True; [done|]. apply strcmp_0_iff. done.
  - rewrite decide_False.
    + apply IH; [done|lia..|done|]. intros j gj Hj. apply Hlow. lia.
    + rewrite strcmp_0_iff. intros Heq. eapply (Hlow i); [lia|done|done].
Qed.

Lemma designates_lookup id nm s :
  designates id nm s → odp_schedule_group_lookup nm s = Ok id.
Proof.
  intros (Hwf & [? ?] & Hid & Hlow). unfold odp_schedule_group_lookup.
  apply group_lookup_loop_spec; [done|named_lia..|done|done].
Qed.

Lemma designates_zset id nm s group gg g' :
  designates id nm s →
  zget (sched_grp s) group = Some gg →
  length (name g') = Z.to_nat ODP_SCHED_GROUP_NAME_LEN →
  zget (name g') (ODP_SCHED_GROUP_NAME_LEN - 1) = Some 0 →
  (group = id → c_str (name g') = c_str nm) →
  (group < id → c_str (name g') ≠ c_str nm) →
  designates id nm (set_sched_grp (zset (sched_grp s) group g') s).
Proof.
  intros (Hwf & Hnamed & (gid & Hgid & Hname) & Hlow) Hgg Hlen Hlast Heq Hneq.
  pose proof (zget_Some _ _ _ Hgg) as Hr.
  split_and!; [by apply grp_wf_zset|done| |].
  - simpl. destruct (decide (group = id)) as [->|Hne].
    + rewrite zget_zset_eq by done. eauto.
    + rewrite zget_zset_ne by done. eauto.
  - intros j g Hj. simpl. destruct (decide (group = j)) as [->|Hne].
    + rewrite zget_zset_eq by done. intros [= <-]. apply Hneq. lia.
    + rewrite zget_zset_ne by done. by apply Hlow.
Qed.

(** Join and leave store a new mask next to the old name. *)
Lemma designates_set_mask id nm s group g m :
  designates id nm s → zget (sched_grp s) group = Some g →
  _ODP_SCHED_GROUP_NAMED ≤ group →
  designates id nm
    (set_sched_grp (zset (sched_grp s) group (set_mask m g)) s).
Proof.
  intros Hd Hg Hn. pose proof Hd as (Hwf & _ & (gid & Hgid & Hname) & Hlow).
  pose proof (zget_Some _ _ _ Hg) as Hr.
  destruct (decide (group < ODP_CONFIG_SCHED_GRPS)) as [HG|HG].
  - destruct (Hwf group) as (g' & ? & ? & ?);
      [named_lia|].
    simplify_eq. apply (designates_zset _ _ _ _ g); simpl; [done..| |].
    + intros ->. by simplify_eq.
    + intros Hlt. by apply (Hlow group).
  - destruct Hd as (? & [? ?] & ? & ?).
    split_and!; [|done| |].
    + intros j Hj. simpl. rewrite zget_zset_ne by lia. by apply Hwf.
    + simpl. rewrite zget_zset_ne by lia. eauto.
    + intros j gj Hj. simpl. rewrite zget_zset_ne by lia. by apply Hlow.
Qed.

Lemma designates_step id nm op s :
  c_str nm ≠ [] → designates id nm s → keeps_group id nm op →
  ∃ s', group_step op s = Ok s' ∧ designates id nm s'.
Proof.
  intros Hnm Hd Hkeep.
  pose proof Hd as (Hwf & Hnamed & (gid & Hgid & Hname) & Hlow).
  assert (0 < ODP_CONFIG_SCHED_GRPS) as HG by (destruct Hnamed; named_lia).
  pose proof (grp_wf_name_len s Hwf HG) as HN.
  assert (∀ group, grp_named group → 0 ≤ group < ODP_CONFIG_SCHED_GRPS)
    as Hrange
    by (intros ? [? ?]; named_lia).
  destruct op as [nm' msk|group|group msk|group msk]; simpl in *.
  - unfold odp_schedule_group_create.
    destruct (group_create_loop_spec nm' msk s
                (Z.to_nat (ODP_CONFIG_SCHED_GRPS - _ODP_SCHED_GROUP_NAMED))
                _ODP_SCHED_GROUP_NAMED)
      as [(id' & g & Hid' & Hg & Hfree & ->)| ->];
      [done|by compute|named_lia| |]; simpl; [|by eauto].
    eexists. split; [done|].
    destruct (created_name_wf s id' g nm') as (? & ? & Hstored);
      [done|named_lia|done|].
    apply (designates_zset _ _ _ _ g); simpl; [done..| |].
    + intros ->. simplify_eq. congruence.
    + intros _. by rewrite Hstored.
  - unfold odp_schedule_group_destroy.
    destruct (decide (grp_named group)) as [Hn|]; [|by eauto].
    destruct (grp_wf_slot s group) as (g & c & Hg & Hc & _); [done|auto|].
    rewrite Hg. simpl. rewrite Hc. simpl.
    destruct (decide (c ≠ 0)); [|by eauto].
    eexists. split; [done|].
    destruct (cleared_name_wf HN) as (? & ? & Hclr).
    apply (designates_zset _ _ _ _ g); simpl; [done..| |]; [done|].
    intros _. rewrite Hclr. done.
  - unfold odp_schedule_group_join.
    destruct (decide (grp_named group)) as [Hn|]; [|by eauto].
    destruct (grp_wf_slot s group) as (g & c & Hg & Hc & _); [done|auto|].
    rewrite Hg. simpl. rewrite Hc. simpl.
    destruct (decide (c ≠ 0)); [|by eauto].
    eexists. split; [done|]. apply designates_set_mask; [done..|].
    named_lia.
  - unfold odp_schedule_group_leave.
    destruct (decide (grp_named group)) as [Hn|]; [|by eauto].
    destruct (grp_wf_slot s group) as (g & c & Hg & Hc & _); [done|auto|].
    rewrite Hg. simpl. rewrite Hc. simpl.
    destruct (decide (c ≠ 0)); [|by eauto].
    eexists. split; [done|]. apply designates_set_mask; [done..|].
    named_lia.
Qed.

Lemma designates_run id nm ops : ∀ s,
  c_str nm ≠ [] → designates id nm s → Forall (keeps_group id nm) ops →
  ∃ s', group_run ops s = Ok s' ∧ designates id nm s'.
Proof.
  induction ops as [|op ops IH]; intros s Hnm Hd Hall; simpl; [by eauto|].
  apply Forall_cons in Hall as [Hop Hall].
  destruct (designates_step id nm op s) as (s1 & -> & Hd1); [done..|]. simpl.
  by apply IH.
Qed.

(** The table after a create that returned a valid handle. *)
Lemma create_designates nm msk s id s1 :
  grp_wf s →
  Z.of_nat (length (c_str nm)) ≤ ODP_SCHED_GROUP_NAME_LEN - 1 →
  (∀ j g, _ODP_SCHED_GROUP_NAMED ≤ j < id →
          zget (sched_grp s) j = Some g → c_str (name g) ≠ c_str nm) →
  odp_schedule_group_create nm msk s = Ok (id, s1) →
  id ≠ ODP_SCHED_GROUP_INVALID →
  designates id nm s1.
Proof.
  intros Hwf Hlen Hlow Hcreate Hvalid. unfold odp_schedule_group_create in *.
  destruct (decide (_ODP_SCHED_GROUP_NAMED ≤ ODP_CONFIG_SCHED_GRPS)) as [HG|HG];
    [|replace (Z.to_nat (ODP_CONFIG_SCHED_GRPS - _ODP_SCHED_GROUP_NAMED))
        with 0%nat in Hcreate by lia; simpl in Hcreate; by simplify_eq].
  destruct (group_create_loop_spec nm msk s
              (Z.to_nat (ODP_CONFIG_SCHED_GRPS - _ODP_SCHED_GROUP_NAMED))
              _ODP_SCHED_GROUP_NAMED)
    as [(id' & g & Hid' & Hg & Hfree & Heq)| Heq];
    [done|by compute|named_lia| |]; rewrite Heq in Hcreate; simplify_eq.
  assert (0 ≤ id < ODP_CONFIG_SCHED_GRPS) as Hid by named_lia.
  destruct (created_name_wf s id g nm) as (Hl & Hlast & Hstored); [done..|].
  rewrite take_ge in Hstored by lia.
  split_and!.
  - by apply grp_wf_zset.
  - named_lia.
  - simpl. rewrite zget_zset_eq by (by eapply zget_Some). eauto.
  - intros j gj Hj. simpl. rewrite zget_zset_ne by lia. by apply Hlow.
Qed.

(** C5 (as amended): for a name that is not empty, has at most N-1
    characters and is not carried by a named slot below the one the create
    fills, after [odp_schedule_group_create] returns a valid id,
    [odp_schedule_group_lookup] of the name returns that id, and still does
    after any sequence of creates (under other stored names), destroys (of
    other ids), joins and leaves. *)
Theorem group_lookup_after_create nm msk s id s1 ops :
  grp_wf s →
  c_str nm ≠ [] →
  Z.of_nat (length (c_str nm)) ≤ ODP_SCHED_GROUP_NAME_LEN - 1 →
  (∀ j g, _ODP_SCHED_GROUP_NAMED ≤ j < id →
          zget (sched_grp s) j = Some g → c_str (name g) ≠ c_str nm) →
  odp_schedule_group_create nm msk s = Ok (id, s1) →
  id ≠ ODP_SCHED_GROUP_INVALID →
  Forall (keeps_group id nm) ops →
  ∃ s2, group_run ops s1 = Ok s2 ∧ odp_schedule_group_lookup nm s2 = Ok id.
Proof.
  intros Hwf Hnm Hlen Hlow Hcreate Hvalid Hops.
  pose proof (create_designates _ _ _ _ _ Hwf Hlen Hlow Hcreate Hvalid) as Hd.
  destruct (designates_run id nm ops s1) as (s2 & Hrun & Hd2); [done..|].
  exists s2. split; [done|]. by apply designates_lookup.
Qed.

Lemma sched_init_grp_wf pri_q tm :
  1 ≤ ODP_SCHED_GROUP_NAME_LEN → grp_wf (sched_init pri_q tm).
Proof.
  intros HN i Hi. simpl. rewrite zget_fmap_seqZ by done.
  eexists. split; [done|]. simpl. split; [apply length_replicate|].
  apply zget_replicate. lia.
Qed.

End LookupProofs.

(** ** Ordered locks *)

Section LockProofs.
Context {cfg : odp_config} {ext : odp_externals}.

Lemma sched_local_spin k st : sched_local (spin k st) = sched_local st.
Proof. done. Qed.

Lemma sched_local_spins n : ∀ k st,
  sched_local (spins n k st) = sched_local st.
Proof. induction n as [|n IH]; intros k st; simpl; [done|]. by rewrite IH. Qed.

Lemma order_lock_wait_sound origin lock_index sync fuel : ∀ k sync_out st st',
  load_sync_out origin lock_index st = Ok sync_out →
  order_lock_wait fuel k origin lock_index sync sync_out st = Ok st' →
  load_sync_out origin lock_index st' = Ok sync
  ∧ sched_local st' = sched_local st.
Proof.
  induction fuel as [|fuel IH]; intros k sync_out st st' Hload; simpl.
  - case_decide; [done|]. intros [= <-]. by simplify_eq.
  - case_decide; [|intros [= <-]; by simplify_eq].
    destruct (load_sync_out origin lock_index (spin k st)) as [so'|] eqn:Hso';
      simpl; [|done].
    intros Hw. destruct (IH _ _ _ _ Hso' Hw) as [? ?]. done.
Qed.

Lemma order_lock_wait_returns origin lock_index sync n :
  ∀ fuel k sync_out st,
  (n ≤ fuel)%nat →
  load_sync_out origin lock_index st = Ok sync_out →
  (∀ m, (m < n)%nat →
        ∃ v, load_sync_out origin lock_index (spins m k st) = Ok v
             ∧ v ≠ sync) →
  load_sync_out origin lock_index (spins n k st) = Ok sync →
  order_lock_wait fuel k origin lock_index sync sync_out st
  = Ok (spins n k st).
Proof.
  induction n as [|n IH]; intros fuel k sync_out st Hfuel Hload Hbefore Hat.
  - simpl in Hat. assert (sync_out = sync) as -> by congruence.
    destruct fuel; simpl; by rewrite decide_False by tauto.
  - destruct fuel as [|fuel]; [lia|]. simpl.
    destruct (Hbefore 0%nat) as (v & Hv & Hne); [lia|]. simpl in Hv.
    assert (v = sync_out) as -> by congruence.
    rewrite decide_True by done.
    assert (∃ v1, load_sync_out origin lock_index (spin k st) = Ok v1)
      as [v1 Hv1].
    { destruct n as [|n]; [by eauto|].
      destruct (Hbefore 1%nat) as (v1 & ? & _); [lia|]. by eauto. }
    rewrite Hv1. simpl. apply IH; [lia|done| |done].
    intros m Hm. apply (Hbefore (S m)). lia.
Qed.

Lemma load_sync_out_eq origin lock_index st e v :
  queues st !! origin = Some e → zget (q_sync_out e) lock_index = Some v →
  load_sync_out origin lock_index st = Ok v.
Proof. intros He Hv. unfold load_sync_out. rewrite He. simpl. by rewrite Hv. Qed.

Lemma ODP_ASSERT_true : ODP_ASSERT true = Ok ().
Proof. unfold ODP_ASSERT. by rewrite andb_false_r. Qed.

(** C3 (as amended): with an ordered context on queue [origin] and a lock
    index below the lock count of the queue,
    - [odp_schedule_order_lock] returns only in a state in which
      [sync_out[i]] equals the [sync[i]] of the context, and it does return,
      after [n] spins, when the [n]-th spin is the first to show that value;
    - [odp_schedule_order_unlock], the lock being held, leaves in
      [sync_out[i]] its old value plus one modulo 2^64, which is strictly
      greater than before unless the old value was 2^64 - 1;
    - both calls change nothing when no ordered context is held or when the
      index is not below the lock count. *)
Theorem ordered_lock_unlock (st : odp_state) (lock_index : Z) :
  (∀ origin e sync fuel st',
     ordered_lock_index st origin e lock_index →
     zget (l_sync (sched_local st)) lock_index = Some sync →
     odp_schedule_order_lock fuel lock_index st = Ok st' →
     load_sync_out origin lock_index st' = Ok sync
     ∧ sched_local st' = sched_local st)
  ∧ (∀ origin e sync sync_out n fuel,
       ordered_lock_index st origin e lock_index →
       zget (l_sync (sched_local st)) lock_index = Some sync →
       zget (q_sync_out e) lock_index = Some sync_out →
       sync >= sync_out →
       (∀ m, (m < n)%nat →
             ∃ v, load_sync_out origin lock_index (spins m 0 st) = Ok v
                  ∧ v ≠ sync) →
       load_sync_out origin lock_index (spins n 0 st) = Ok sync →
       (n ≤ fuel)%nat →
       odp_schedule_order_lock fuel lock_index st = Ok (spins n 0 st))
  ∧ (∀ origin e v,
       ordered_lock_index st origin e lock_index →
       zget (q_sync_out e) lock_index = Some v →
       (ODP_DEBUG = true →
        zget (l_sync (sched_local st)) lock_index = Some v) →
       0 ≤ v ≤ UINT64_MAX →
       ∃ st', odp_schedule_order_unlock lock_index st = Ok st'
              ∧ load_sync_out origin lock_index st' = Ok (wrap64 (v + 1))
              ∧ sched_local st' = sched_local st
              ∧ (v < UINT64_MAX → wrap64 (v + 1) = v + 1 ∧ wrap64 (v + 1) > v))
  ∧ (∀ fuel,
       l_origin_qe (sched_local st) = None
       ∨ (∃ origin e, l_origin_qe (sched_local st) = Some origin
                      ∧ queues st !! origin = Some e
                      ∧ lock_index >= q_lock_count e) →
       odp_schedule_order_lock fuel lock_index st = Ok st
       ∧ odp_schedule_order_unlock lock_index st = Ok st).
Proof.
  split_and!.
  - intros origin e sync fuel st' (Ho & He & Hi) Hsync.
    unfold odp_schedule_order_lock. rewrite Ho, He. simpl.
    rewrite decide_False by lia. rewrite Hsync. simpl.
    destruct (load_sync_out origin lock_index st) as [so|] eqn:Hso;
      simpl; [|done].
    destruct (ODP_ASSERT _); simpl; [|done].
    by apply order_lock_wait_sound.
  - intros origin e sync sync_out n fuel (Ho & He & Hi) Hsync Hso Hge
      Hbefore Hat Hfuel.
    unfold odp_schedule_order_lock. rewrite Ho, He. simpl.
    rewrite decide_False by lia. rewrite Hsync. simpl.
    rewrite (load_sync_out_eq _ _ _ e sync_out) by done. simpl.
    rewrite bool_decide_true by done. rewrite ODP_ASSERT_true. simpl.
    apply order_lock_wait_returns; [done| |done..].
    by apply (load_sync_out_eq _ _ _ e).
  - intros origin e v (Ho & He & Hi) Hv Hdbg Hrange.
    pose proof (zget_Some _ _ _ Hv) as Hlen.
    unfold odp_schedule_order_unlock. rewrite Ho, He. simpl.
    rewrite decide_False by lia.
    assert ((if ODP_DEBUG
             then sync ← deref (zget (l_sync (sched_local st)) lock_index);
                  sync_out ← load_sync_out origin lock_index st;
                  ODP_ASSERT (bool_decide (sync = sync_out))
             else Ok ()) = Ok ()) as ->.
    { destruct ODP_DEBUG eqn:Hd; [|done]. rewrite Hdbg by done. simpl.
      rewrite (load_sync_out_eq _ _ _ e v) by done. simpl.
      rewrite bool_decide_true by done. apply ODP_ASSERT_true. }
    simpl. rewrite Hv. simpl. eexists. split; [reflexivity|]. split_and!.
    + unfold load_sync_out. simpl. rewrite lookup_insert_eq. simpl.
      by rewrite zget_zset_eq by done.
    + done.
    + intros Hlt. unfold wrap64, UINT64_MAX in *.
      rewrite Z.mod_small by lia. lia.
  - intros fuel [Hnone|(origin & e & Ho & He & Hi)].
    + unfold odp_schedule_order_lock, odp_schedule_order_unlock.
      by rewrite Hnone.
    + unfold odp_schedule_order_lock, odp_schedule_order_unlock.
      rewrite Ho, He. simpl. by rewrite !decide_True by done.
Qed.

End LockProofs.

(** ** Releasing contexts; the waiting wrapper *)

Section ReleaseProofs.
Context {cfg : odp_config} {ext : odp_externals}.

(** [odp_schedule_release_ordered] keeps the ordered context when
    [release_order] fails. *)
Lemma release_ordered_failure st origin rc st1 :
  l_origin_qe (sched_local st) = Some origin →
  release_order origin (l_order (sched_local st)) (l_pool (sched_local st))
    (l_enq_called (sched_local st)) st = (rc, st1) →
  rc ≠ 0 →
  odp_schedule_release_ordered st = st1.
Proof.
  intros Ho Hr Hrc. unfold odp_schedule_release_ordered.
  rewrite Ho, Hr. by rewrite decide_False.
Qed.

(** [odp_schedule_release_context] clears it whatever [release_order]
    answers. *)
Lemma release_context_clears st origin :
  l_origin_qe (sched_local st) = Some origin →
  ∃ st', odp_schedule_release_context st = Ok st'
         ∧ l_origin_qe (sched_local st') = None.
Proof.
  intros Ho. unfold odp_schedule_release_context. rewrite Ho.
  destruct (release_order _ _ _ _ _) as [rc st1]. eauto.
Qed.

End ReleaseProofs.

Section LoopProofs.
Context {cfg : odp_config} {ext : odp_externals}.
Context (thr : Z) (out_queue_p : bool) (wait max_num max_deq : Z).

Lemma sched_out_eta o :
  {| ret := ret o;
     out_queue := match out_queue o with Some q => Some q | None => None end;
     out_ev := out_ev o; deq_log := deq_log o |} = o.
Proof. destruct o as [? [?|] ? ?]; done. Qed.

(** With [ODP_SCHED_NO_WAIT] the loop is the first attempt. *)
Lemma schedule_loop_no_wait fuel st :
  ODP_SCHED_NO_WAIT ≠ ODP_SCHED_WAIT →
  schedule_loop (S fuel) thr out_queue_p ODP_SCHED_NO_WAIT max_num max_deq st
  = schedule thr out_queue_p max_num max_deq st.
Proof.
  intros Hne. unfold schedule_loop. simpl.
  destruct (schedule thr out_queue_p max_num max_deq st) as [[o st1]|];
    simpl; [|done].
  rewrite sched_out_eta. case_decide; [done|].
  rewrite decide_False by done. by rewrite decide_True.
Qed.

(** A non-zero result of an attempt ends the loop, whatever the mode and
    whatever the attempt. *)
Lemma schedule_loop_from_positive fuel start k oq st o st1 :
  schedule thr out_queue_p max_num max_deq st = Ok (o, st1) →
  ret o ≠ 0 →
  schedule_loop_from (S fuel) start k oq thr out_queue_p wait max_num max_deq
    st
  = Ok ({| ret := ret o;
           out_queue := match out_queue o with
                        | Some q => Some q
                        | None => oq
                        end;
           out_ev := out_ev o; deq_log := deq_log o |}, st1).
Proof. intros Hs Hret. simpl. rewrite Hs. simpl. by rewrite decide_True. Qed.

Lemma empty_attempts_S n st st' :
  empty_attempts (S n) thr out_queue_p max_num max_deq st = Some st' →
  ∃ o st1, schedule thr out_queue_p max_num max_deq st = Ok (o, st1)
           ∧ ret o = 0
           ∧ empty_attempts n thr out_queue_p max_num max_deq st1 = Some st'.
Proof.
  simpl. destruct (schedule _ _ _ _ _) as [[o st1]|]; [|done].
  case_decide; [eauto | done].
Qed.

(** After a non-zero snapshot [start]: [n] empty attempts that find the time
    not yet exceeded, then one that finds it exceeded. *)
Lemma schedule_loop_from_timeout n : ∀ fuel k start oq st st',
  wait ≠ ODP_SCHED_WAIT → wait ≠ ODP_SCHED_NO_WAIT → start ≠ 0 →
  empty_attempts (S n) thr out_queue_p max_num max_deq st = Some st' →
  (∀ j, (j < n)%nat →
        ¬ wait < odp_time_diff_cycles start (odp_time_cycles (k + j))) →
  wait < odp_time_diff_cycles start (odp_time_cycles (k + n)) →
  (S n ≤ fuel)%nat →
  ∃ o, schedule_loop_from fuel start k oq thr out_queue_p wait max_num
         max_deq st = Ok (o, st')
       ∧ ret o = 0.
Proof.
  induction n as [|n IH];
    intros fuel k start oq st st' Hw Hnw Hstart Hempty Hnot Hexc Hfuel;
    (destruct fuel as [|fuel]; [lia|]);
    apply empty_attempts_S in Hempty as (o & st1 & Hs & Hret & Hrest);
    simpl; rewrite Hs; simpl;
    rewrite decide_False by lia; rewrite !decide_False by done.
  - rewrite Nat.add_0_r in Hexc. rewrite decide_True by done.
    simpl in Hrest. simplify_eq. eauto.
  - rewrite decide_False
      by (specialize (Hnot 0%nat); rewrite Nat.add_0_r in Hnot; apply Hnot;
          lia).
    apply IH; [done..| | |lia].
    + intros j Hj. replace (S k + j)%nat with (k + S j)%nat by lia.
      apply Hnot. lia.
    + by replace (S k + n)%nat with (k + S n)%nat by lia.
Qed.

(** Before a non-zero snapshot: [z] empty attempts whose snapshot reads 0,
    then the attempts of [schedule_loop_from_timeout]. *)
Lemma schedule_loop_from_snapshot n z : ∀ fuel k oq st st_a st',
  wait ≠ ODP_SCHED_WAIT → wait ≠ ODP_SCHED_NO_WAIT →
  empty_attempts z thr out_queue_p max_num max_deq st = Some st_a →
  (∀ j, (j < z)%nat → odp_time_cycles (k + j) = 0) →
  odp_time_cycles (k + z) ≠ 0 →
  empty_attempts (S (S n)) thr out_queue_p max_num max_deq st_a = Some st' →
  (∀ j, (j < n)%nat →
        ¬ wait < odp_time_diff_cycles (odp_time_cycles (k + z))
                   (odp_time_cycles (k + z + 1 + j))) →
  wait < odp_time_diff_cycles (odp_time_cycles (k + z))
           (odp_time_cycles (k + z + 1 + n)) →
  (z + n + 2 ≤ fuel)%nat →
  ∃ o, schedule_loop_from fuel 0 k oq thr out_queue_p wait max_num
         max_deq st = Ok (o, st')
       ∧ ret o = 0.
Proof.
  induction z as [|z IH];
    intros fuel k oq st st_a st' Hw Hnw Hz Hzero Hsnap Hempty Hnot Hexc Hfuel;
    (destruct fuel as [|fuel]; [lia|]).
  - simpl in Hz. simplify_eq. rewrite Nat.add_0_r in *.
    apply empty_attempts_S in Hempty as (o & st1 & Hs & Hret & Hrest).
    simpl. rewrite Hs. simpl.
    rewrite decide_False by lia. rewrite !decide_False by done.
    apply (schedule_loop_from_timeout n); [done..| | |lia].
    + intros j Hj. replace (S k + j)%nat with (k + 1 + j)%nat by lia.
      by apply Hnot.
    + by replace (S k + n)%nat with (k + 1 + n)%nat by lia.
  - apply empty_attempts_S in Hz as (o & st1 & Hs & Hret & Hrest).
    simpl. rewrite Hs. simpl.
    rewrite decide_False by lia. rewrite !decide_False by done.
    replace (odp_time_cycles k) with 0
      by (symmetry; rewrite <- (Nat.add_0_r k); apply Hzero; lia).
    apply (IH _ _ _ _ st_a); [done..| | | | | |lia].
    + intros j Hj. replace (S k + j)%nat with (k + S j)%nat by lia.
      apply Hzero. lia.
    + by replace (S k + z)%nat with (k + S z)%nat by lia.
    + done.
    + intros j Hj. replace (S k + z)%nat with (k + S z)%nat by lia.
      by apply Hnot.
    + by replace (S k + z)%nat with (k + S z)%nat by lia.
Qed.

(** C9 (as amended): in [schedule_loop],
    - with [wait == ODP_SCHED_NO_WAIT] the call is its first attempt: it
      returns what [schedule] returns;
    - a non-zero result of [schedule] is returned at once, in every mode and
      at every attempt;
    - for any other [wait] than the two sentinels, the loop takes a snapshot
      of the cycle counter on the first empty attempt, and again on each
      further empty attempt as long as the snapshot taken reads 0 ([z] such
      attempts); on the empty attempts after a non-zero snapshot it returns 0
      as soon as the cycles elapsed since that snapshot exceed [wait]. *)
Theorem schedule_loop_wait st :
  (ODP_SCHED_NO_WAIT ≠ ODP_SCHED_WAIT →
   ∀ fuel,
     schedule_loop (S fuel) thr out_queue_p ODP_SCHED_NO_WAIT max_num max_deq
       st
     = schedule thr out_queue_p max_num max_deq st)
  ∧ (∀ fuel start k oq o st1,
       schedule thr out_queue_p max_num max_deq st = Ok (o, st1) →
       ret o ≠ 0 →
       ∃ o', schedule_loop_from (S fuel) start k oq thr out_queue_p wait
               max_num max_deq st = Ok (o', st1)
             ∧ ret o' = ret o ∧ out_ev o' = out_ev o)
  ∧ (∀ z n fuel st_a st',
       wait ≠ ODP_SCHED_WAIT → wait ≠ ODP_SCHED_NO_WAIT →
       empty_attempts z thr out_queue_p max_num max_deq st = Some st_a →
       (∀ j, (j < z)%nat → odp_time_cycles j = 0) →
       odp_time_cycles z ≠ 0 →
       empty_attempts (S (S n)) thr out_queue_p max_num max_deq st_a
       = Some st' →
       (∀ j, (j < n)%nat →
             ¬ wait < odp_time_diff_cycles (odp_time_cycles z)
                        (odp_time_cycles (z + 1 + j))) →
       wait < odp_time_diff_cycles (odp_time_cycles z)
                (odp_time_cycles (z + 1 + n)) →
       (z + n + 2 ≤ fuel)%nat →
       ∃ o, schedule_loop fuel thr out_queue_p wait max_num max_deq st
            = Ok (o, st')
            ∧ ret o = 0).
Proof.
  split_and!.
  - intros Hne fuel. by apply schedule_loop_no_wait.
  - intros fuel start k oq o st1 Hs Hret.
    rewrite (schedule_loop_from_positive _ _ _ _ _ o st1) by done. eauto.
  - intros z n fuel st_a st' Hw Hnw Hz Hzero Hsnap Hempty Hnot Hexc Hfuel.
    unfold schedule_loop.
    by apply (schedule_loop_from_snapshot n z _ _ _ _ st_a).
Qed.

End LoopProofs.

(** ** The dispatcher: group eligibility and ordered queues *)

Lemma bind_Ok {A B} (r : result A) (f : A → result B) b :
  r ≫= f = Ok b → ∃ a, r = Ok a ∧ f a = Ok b.
Proof. destruct r as [a|]; simpl; [eauto | done]. Qed.

Section WalkProofs.
Context {cfg : odp_config} {ext : odp_externals}.

Lemma odp_queue_enq_frame q ev st rc st' :
  odp_queue_enq q ev st = (rc, st') →
  sched st' = sched st ∧ sched_local st' = sched_local st
  ∧ queues st' = queues st ∧ cmds st' = cmds st.
Proof.
  unfold odp_queue_enq. destruct (lanes st !! q); intros [= <- <-]; done.
Qed.

Lemma odp_queue_deq_frame q st ev st' :
  odp_queue_deq q st = (ev, st') →
  sched st' = sched st ∧ sched_local st' = sched_local st
  ∧ queues st' = queues st ∧ cmds st' = cmds st.
Proof.
  unfold odp_queue_deq. destruct (lanes st !! q) as [[|? ?]|];
    intros [= <- <-]; done.
Qed.

Lemma queue_deq_multi_group qe n num got qe' :
  queue_deq_multi qe n = (num, got, qe') → q_group qe' = q_group qe.
Proof.
  unfold queue_deq_multi. destruct (q_destroyed qe); intros [= <- <- <-]; done.
Qed.

Lemma not_eligible_false thr grp s :
  not_eligible thr grp s = Ok false → eligible thr grp s.
Proof.
  unfold not_eligible, eligible. case_decide; [|left; lia].
  destruct (zget (sched_grp s) grp) as [g|]; simpl; [|done].
  intros [= Hb%negb_false_iff]. right. eauto.
Qed.

(** A dispatch hands out the batch of the queue it was called for. *)
Lemma dispatch_found pri_q ev q qe num out_queue_p max_num log st w :
  dispatch pri_q ev q qe num out_queue_p max_num log st = Ok w →
  ∃ o st', w = Found o st'
           ∧ deq_log o = log
           ∧ out_queue o = (if out_queue_p then Some (q_handle qe) else None)
           ∧ sched st' = sched st ∧ queues st' = queues st
           ∧ l_qe (sched_local st') = Some q.
Proof.
  unfold dispatch. intros Hd.
  apply bind_Ok in Hd as ([out l2] & Hcopy & Hd).
  apply bind_Ok in Hd as (st3 & Hst3 & Hd). injection Hd as <-.
  assert (l_qe l2 = Some q) as Hqe.
  { unfold copy_events in Hcopy. revert Hcopy.
    generalize (Z.to_nat max_num) as fuel. intros fuel.
    set (l1 := set_l_qe _ _). assert (l_qe l1 = Some q) as Hl1 by done.
    clearbody l1. generalize (@nil Z) as acc. revert max_num l1 Hl1.
    induction fuel as [|fuel IH]; intros max l1 Hl1 acc; simpl.
    - case_decide; [done|]. by intros [= <- <-].
    - case_decide; [|by intros [= <- <-]].
      intros (hdr & _ & Hrec)%bind_Ok. by apply IH in Hrec. }
  do 2 eexists. split; [done|]. simpl. split_and!; [done..| | |].
  all: destruct (queue_is_ordered qe); [|destruct (queue_is_atomic qe)].
  all: repeat match type of Hst3 with
       | (let '(_, _) := odp_queue_enq ?a ?b ?c in _) = _ =>
           destruct (odp_queue_enq a b c) as [rc st'] eqn:Henq;
           apply odp_queue_enq_frame in Henq as (? & ? & ? & ?)
       | (if decide ?P then _ else _) = _ => destruct (decide P); [done|]
       | (_ ≫= _) = Ok _ => apply bind_Ok in Hst3 as (? & ? & Hst3)
       end.
  all: injection Hst3 as <-; simpl in *; congruence.
Qed.

Lemma ordered_deq_one_snoc log qe md :
  ordered_deq_one log →
  ordered_deq_one (log ++ [(qe, if queue_is_ordered qe then 1 else md)]).
Proof.
  intros Hl qe' n [Hin|Hin%list_elem_of_singleton]%elem_of_app Ho; [eauto|].
  simplify_eq. by rewrite Ho.
Qed.

Lemma lane_loop_ok thr i out_queue_p max_num n : ∀ id max_deq log st w,
  ordered_deq_one log →
  lane_loop n thr i id out_queue_p max_num max_deq log st = Ok w →
  walk_ok thr w.
Proof.
  induction n as [|n IH]; intros id max_deq log st w Hlog Hw.
  { simpl in Hw. by injection Hw as <-. }
  cbn [lane_loop] in Hw.
  apply bind_Ok in Hw as (m & _ & Hw).
  destruct (decide (Z.land m _ = 0)); [by eapply IH|].
  apply bind_Ok in Hw as (pri_q & _ & Hw).
  destruct (odp_queue_deq pri_q st) as [[ev|] st1] eqn:Hdeq; [|by eapply IH].
  apply odp_queue_deq_frame in Hdeq as (Hs1 & Hl1 & Hq1 & Hc1).
  apply bind_Ok in Hw as ([q|pktio pe prio] & _ & Hw).
  - apply bind_Ok in Hw as (qe & Hqe & Hw).
    apply bind_Ok in Hw as ([|] & Hne & Hw).
    { destruct (odp_queue_enq pri_q ev st1) as [rc st2].
      destruct (decide (rc ≠ 0)); [done | by eapply IH]. }
    destruct (queue_deq_multi qe _) as [[num got] qe'] eqn:Hmulti.
    pose proof (ordered_deq_one_snoc log qe max_deq Hlog) as Hlog'.
    destruct (decide (Z.of_nat (length got) > MAX_DEQ)); [done|].
    destruct (decide (num < 0)); [by eapply IH|].
    destruct (decide (num = 0)); [by eapply IH|].
    apply dispatch_found in Hw
      as (o & st' & -> & Hdl & _ & Hs' & Hq' & Hl').
    simpl in *. split; [|by rewrite Hdl].
    exists q, qe'. split_and!; [done| |].
    + rewrite Hq'. apply lookup_insert_eq.
    + rewrite Hs', (queue_deq_multi_group _ _ _ _ _ Hmulti).
      by apply not_eligible_false.
  - destruct (pktin_poll pe st1) as [stop st2].
    destruct (decide (stop ≠ 0)).
    + apply bind_Ok in Hw as (s' & _ & Hw). by eapply IH.
    + destruct (odp_queue_enq pri_q ev st2) as [rc st3].
      destruct (decide (rc ≠ 0)); [done | by eapply IH].
Qed.

Lemma prio_loop_ok thr out_queue_p max_num n : ∀ i max_deq log st w,
  ordered_deq_one log →
  prio_loop n thr i out_queue_p max_num max_deq log st = Ok w →
  walk_ok thr w.
Proof.
  induction n as [|n IH]; intros i max_deq log st w Hlog Hw.
  { simpl in Hw. by injection Hw as <-. }
  cbn [prio_loop] in Hw.
  apply bind_Ok in Hw as (m & _ & Hw).
  destruct (decide (m = 0)); [by eapply IH|].
  apply bind_Ok in Hw as (w1 & Hlane & Hw).
  apply lane_loop_ok in Hlane; [|done].
  destruct w1 as [o st'|max_deq' log' st']; [by injection Hw as <-|].
  by eapply IH.
Qed.

Lemma ordered_deq_one_nil : ordered_deq_one [].
Proof. intros qe n Hin. by apply elem_of_nil in Hin. Qed.

(** What a call of [schedule] that finds the cache empty hands out. *)
Lemma schedule_ok thr out_queue_p max_num max_deq st o st' :
  schedule thr out_queue_p max_num max_deq st = Ok (o, st') →
  ordered_deq_one (deq_log o)
  ∧ (l_num (sched_local st) = 0 → ret o ≠ 0 → served_eligible thr st').
Proof.
  unfold schedule. intros Hs.
  destruct (decide (l_num (sched_local st) ≠ 0)) as [Hn|Hn].
  { apply bind_Ok in Hs as ([out l'] & _ & Hs).
    apply bind_Ok in Hs as (oq & _ & Hs). injection Hs as <- <-.
    split; [apply ordered_deq_one_nil | done]. }
  apply bind_Ok in Hs as (st1 & _ & Hs).
  destruct (decide (l_pause (sched_local st1) ≠ 0)).
  { injection Hs as <- <-. split; [apply ordered_deq_one_nil | done]. }
  apply bind_Ok in Hs as (w & Hw & Hs).
  apply prio_loop_ok in Hw; [|apply ordered_deq_one_nil].
  destruct w as [o1 st1'|max_deq' log' st1']; injection Hs as <- <-.
  - by destruct Hw.
  - done.
Qed.

(** The step of the lane walk on the command of a queue the thread is not
    eligible for: the command goes back to the tail of the lane it came
    from, nothing is asked of the queue, and the walk goes on with the next
    lane. *)
Lemma lane_loop_not_eligible n thr i id out_queue_p max_num max_deq log st
    m pri_q ev rest q qe g :
  let id' := if decide (id >= QUEUES_PER_PRIO) then 0 else id in
  zget (pri_mask (sched st)) i = Some m →
  Z.land m (Z.shiftl 1 id') ≠ 0 →
  zget2 (pri_queue (sched st)) i id' = Some pri_q →
  lanes st !! pri_q = Some (ev :: rest) →
  cmds st !! ev = Some (SCHED_CMD_DEQUEUE q) →
  queues st !! q = Some qe →
  q_group qe > ODP_SCHED_GROUP_ALL →
  zget (sched_grp (sched st)) (q_group qe) = Some g →
  odp_thrmask_isset (mask g) thr = false →
  lane_loop (S n) thr i id out_queue_p max_num max_deq log st
  = lane_loop n thr i (id' + 1) out_queue_p max_num max_deq log
      (set_lanes (<[pri_q := rest ++ [ev]]> (lanes st)) st).
Proof.
  intros id' Hm Hbit Hpq Hlane Hcmd Hqe Hgrp Hg Hthr.
  cbn [lane_loop]. fold id'. rewrite Hm. simpl.
  rewrite decide_False by done. rewrite Hpq. simpl.
  unfold odp_queue_deq. rewrite Hlane.
  unfold odp_buffer_addr. simpl. rewrite Hcmd. simpl. rewrite Hqe. simpl.
  unfold not_eligible. rewrite decide_True by done. rewrite Hg. simpl.
  rewrite Hthr. simpl. unfold odp_queue_enq. simpl.
  rewrite lookup_insert_eq. simpl. by rewrite insert_insert_eq.
Qed.

(** C6 (as amended): a thread whose id is not set in [grp[g].mask] is never
    dispatched a queue whose group [g] is above ALL: when the walk dequeues
    the command of such a queue, it re-enqueues the command onto the same
    lane and goes on with the next lane without draining the queue; so the
    events of a call that found the local cache empty come from a queue the
    thread is eligible for. (A call that finds events in the local cache
    returns them without looking at the group mask.) *)
Theorem ineligible_thread_not_dispatched thr out_queue_p max_num max_deq st :
  (∀ n i id log m pri_q ev rest q qe g,
     let id' := if decide (id >= QUEUES_PER_PRIO) then 0 else id in
     zget (pri_mask (sched st)) i = Some m →
     Z.land m (Z.shiftl 1 id') ≠ 0 →
     zget2 (pri_queue (sched st)) i id' = Some pri_q →
     lanes st !! pri_q = Some (ev :: rest) →
     cmds st !! ev = Some (SCHED_CMD_DEQUEUE q) →
     queues st !! q = Some qe →
     q_group qe > ODP_SCHED_GROUP_ALL →
     zget (sched_grp (sched st)) (q_group qe) = Some g →
     odp_thrmask_isset (mask g) thr = false →
     lane_loop (S n) thr i id out_queue_p max_num max_deq log st
     = lane_loop n thr i (id' + 1) out_queue_p max_num max_deq log
         (set_lanes (<[pri_q := rest ++ [ev]]> (lanes st)) st))
  ∧ (∀ o st',
       schedule thr out_queue_p max_num max_deq st = Ok (o, st') →
       l_num (sched_local st) = 0 → ret o ≠ 0 →
       served_eligible thr st').
Proof.
  split.
  - intros. by eapply lane_loop_not_eligible.
  - intros o st' Hs. by apply schedule_ok in Hs as [_ ?].
Qed.

(** The turn of the lane walk on the command of an ordered queue the thread
    is eligible for does not depend on [max_deq]: it is the turn with
    [max_deq] 1. *)
Lemma lane_loop_ordered n thr i id out_queue_p max_num max_deq log st
    m pri_q ev rest q qe :
  let id' := if decide (id >= QUEUES_PER_PRIO) then 0 else id in
  zget (pri_mask (sched st)) i = Some m →
  Z.land m (Z.shiftl 1 id') ≠ 0 →
  zget2 (pri_queue (sched st)) i id' = Some pri_q →
  lanes st !! pri_q = Some (ev :: rest) →
  cmds st !! ev = Some (SCHED_CMD_DEQUEUE q) →
  queues st !! q = Some qe →
  not_eligible thr (q_group qe) (sched st) = Ok false →
  queue_is_ordered qe = true →
  lane_loop (S n) thr i id out_queue_p max_num max_deq log st
  = lane_loop (S n) thr i id out_queue_p max_num 1 log st.
Proof.
  intros id' Hm Hbit Hpq Hlane Hcmd Hqe Hel Hord.
  cbn [lane_loop]. fold id'. rewrite !Hm. simpl.
  rewrite !decide_False by done. rewrite !Hpq. simpl.
  unfold odp_queue_deq. rewrite !Hlane.
  unfold odp_buffer_addr. simpl. rewrite !Hcmd. simpl. rewrite !Hqe. simpl.
  rewrite !Hel. simpl. by rewrite !Hord.
Qed.

(** C7: every drain that a call of [schedule] requests from an ordered
    source queue asks for one event, whatever [max_deq] the call was given;
    the turn of the lane walk that dispatches the command of an ordered
    queue is the same for every [max_deq]. *)
Theorem ordered_queue_drained_one_by_one thr out_queue_p max_num max_deq st :
  (∀ o st',
     schedule thr out_queue_p max_num max_deq st = Ok (o, st') →
     ∀ qe n, (qe, n) ∈ deq_log o → queue_is_ordered qe = true → n = 1)
  ∧ (∀ n i id log m pri_q ev rest q qe,
       let id' := if decide (id >= QUEUES_PER_PRIO) then 0 else id in
       zget (pri_mask (sched st)) i = Some m →
       Z.land m (Z.shiftl 1 id') ≠ 0 →
       zget2 (pri_queue (sched st)) i id' = Some pri_q →
       lanes st !! pri_q = Some (ev :: rest) →
       cmds st !! ev = Some (SCHED_CMD_DEQUEUE q) →
       queues st !! q = Some qe →
       not_eligible thr (q_group qe) (sched st) = Ok false →
       queue_is_ordered qe = true →
       lane_loop (S n) thr i id out_queue_p max_num max_deq log st
       = lane_loop (S n) thr i id out_queue_p max_num 1 log st).
Proof.
  split.
  - intros o st' Hs. by apply schedule_ok in Hs as [? _].
  - intros. by eapply lane_loop_ordered.
Qed.

End WalkProofs.

(** ** Further properties of the code *)

Section DispatchProofs.
Context {cfg : odp_config} {ext : odp_externals}.

(** What the loop of [copy_events] does to the context, whatever the cache
    holds: it appends [k] handles, where [k] is at most [max], and moves
    [num] and [index] by [k]. *)
Lemma copy_events_loop_moves fuel : ∀ max out l out' l',
  0 ≤ max →
  copy_events_loop fuel max out l = Ok (out', l') →
  ∃ k, out' = out ++ k ∧ Z.of_nat (length k) ≤ max
       ∧ l' = set_l_num (l_num l - Z.of_nat (length k))
                (set_l_index (l_index l + Z.of_nat (length k)) l).
Proof.
  induction fuel as [|fuel IH]; intros max out l out' l' Hmax; simpl.
  - case_decide; [done|]. intros [= <- <-]. exists [].
    rewrite app_nil_r. simpl. split_and!; [done | lia |].
    symmetry. apply sched_local_eta; lia.
  - case_decide as Hc.
    + intros (hdr & _ & Hrec)%bind_Ok.
      apply IH in Hrec as (k & -> & Hk & ->); [|lia].
      exists (handle hdr :: k). rewrite <- app_assoc. simpl.
      split_and!; [done | lia |].
      destruct l; unfold set_l_num, set_l_index; simpl. f_equal; lia.
    + intros [= <- <-]. exists [].
      rewrite app_nil_r. simpl. split_and!; [done | lia |].
      symmetry. apply sched_local_eta; lia.
Qed.

Lemma copy_events_moves max l out l' :
  0 ≤ max →
  copy_events max l = Ok (out, l') →
  Z.of_nat (length out) ≤ max
  ∧ l' = set_l_num (l_num l - Z.of_nat (length out))
           (set_l_index (l_index l + Z.of_nat (length out)) l).
Proof.
  intros Hmax Hc. unfold copy_events in Hc.
  apply copy_events_loop_moves in Hc as (k & -> & ? & ->); done.
Qed.

End DispatchProofs.

Section DispatchProofs2.
Context {cfg : odp_config} {ext : odp_externals}.

Lemma cache_sync_loop_spec hsync lc fuel : ∀ k lsync sy,
  0 ≤ k → (Z.to_nat (lc - k) ≤ fuel)%nat →
  cache_sync_loop fuel k lc hsync lsync = Ok sy →
  length sy = length lsync
  ∧ (∀ j, j < k → zget sy j = zget lsync j)
  ∧ (∀ j, k ≤ j < lc →
          is_Some (zget sy j) ∧ zget sy j = zget hsync j).
Proof.
  induction fuel as [|fuel IH]; intros k lsync sy Hk Hfuel; simpl.
  - intros [= <-]. split_and!; [done..|]. intros j Hj. lia.
  - case_decide as Hlt; [|intros [= <-]; split_and!; [done..|intros; lia]].
    intros (v & Hv & Hrec)%bind_Ok.
    case_decide as Hin; [|done].
    apply IH in Hrec as (Hlen & Hlow & Hhigh); [|lia..].
    rewrite length_zset in Hlen. split_and!; [done| |].
    + intros j Hj. rewrite Hlow by lia. apply zget_zset_ne. lia.
    + intros j Hj. destruct (decide (j = k)) as [->|Hne].
      * rewrite Hlow by lia. rewrite zget_zset_eq by done.
        split; [done|]. destruct (zget hsync k); simpl in Hv; by simplify_eq.
      * apply Hhigh. lia.
Qed.

Lemma cache_holds_after_copy l got max :
  0 ≤ max →
  take (length got) (l_buf_hdr l) = Some <$> got →
  let n := Z.min (Z.of_nat (length got)) max in
  cache_holds
    (set_l_num (Z.of_nat (length got) - n)
       (set_l_index (0 + n) l))
    (drop (Z.to_nat max) got).
Proof.
  intros Hmax Hbuf n. unfold cache_holds. simpl.
  rewrite length_drop. split_and!; [lia | lia |].
  rewrite take_drop_commute, fmap_drop.
  replace (Z.to_nat (0 + n) + (length got - Z.to_nat max))%nat
    with (length got) by lia.
  rewrite Hbuf.
  destruct (decide (Z.of_nat (length got) ≤ max)) as [Hle|Hgt].
  - rewrite !drop_ge; [done | rewrite length_fmap; lia..].
  - f_equal. lia.
Qed.

End DispatchProofs2.

Section DispatchProofs3.
Context {cfg : odp_config} {ext : odp_externals}.

Lemma cache_holds_fields l l' evs :
  l_index l' = l_index l → l_num l' = l_num l →
  l_buf_hdr l' = l_buf_hdr l →
  cache_holds l evs → cache_holds l' evs.
Proof. unfold cache_holds. by intros -> -> ->. Qed.

(** What [dispatch] hands out and leaves behind, when the first headers of
    [buf_hdr] are the drained events [got]. *)
Lemma dispatch_spec pri_q ev q qe got out_queue_p max_num log st o st' :
  0 ≤ max_num → got ≠ [] →
  take (length got) (l_buf_hdr (sched_local st)) = Some <$> got →
  dispatch pri_q ev q qe (Z.of_nat (length got)) out_queue_p max_num log st
  = Ok (Found o st') →
  o = {| ret := Z.min (Z.of_nat (length got)) max_num;
         out_queue := if out_queue_p then Some (q_handle qe) else None;
         out_ev := handle <$> take (Z.to_nat max_num) got;
         deq_log := log |}
  ∧ cache_holds (sched_local st') (drop (Z.to_nat max_num) got)
  ∧ l_qe (sched_local st') = Some q
  ∧ sched st' = sched st ∧ queues st' = queues st ∧ cmds st' = cmds st
  ∧ l_pause (sched_local st') = l_pause (sched_local st)
  ∧ (if queue_is_ordered qe then
       (∃ l, lanes st !! pri_q = Some l
             ∧ lanes st' = <[pri_q := l ++ [ev]]> (lanes st))
       ∧ l_pri_queue (sched_local st') = l_pri_queue (sched_local st)
       ∧ ∃ hdr0, head got = Some hdr0
                 ∧ ordered_context_of q qe hdr0 (sched_local st')
     else if queue_is_atomic qe then
       lanes st' = lanes st
       ∧ l_pri_queue (sched_local st') = Some pri_q
       ∧ l_cmd_ev (sched_local st') = Some ev
       ∧ l_origin_qe (sched_local st') = l_origin_qe (sched_local st)
     else
       (∃ l, lanes st !! pri_q = Some l
             ∧ lanes st' = <[pri_q := l ++ [ev]]> (lanes st))
       ∧ l_pri_queue (sched_local st') = l_pri_queue (sched_local st)
       ∧ l_origin_qe (sched_local st') = l_origin_qe (sched_local st)).
Proof.
  intros Hmax Hne Hbuf. unfold dispatch.
  set (l1 := set_l_qe _ _).
  assert (cache_holds l1 got) as Hc1.
  { unfold cache_holds, l1. simpl. split_and!; [lia | done | done]. }
  rewrite (copy_events_cached _ _ got) by done. simpl.
  rewrite (length_take_cached _ l1) by done.
  set (l2 := set_l_num _ _).
  assert (cache_holds l2 (drop (Z.to_nat max_num) got)) as Hc2.
  { eapply cache_holds_fields;
      [| | |apply (cache_holds_after_copy (sched_local st) got max_num
                     Hmax Hbuf)]; done. }
  assert (∀ st0 rc st1, odp_queue_enq pri_q ev st0 = (rc, st1) → rc = 0 →
            ∃ l, lanes st0 !! pri_q = Some l
                 ∧ st1 = set_lanes (<[pri_q := l ++ [ev]]> (lanes st0)) st0)
    as Henq.
  { intros st0 rc st1. unfold odp_queue_enq.
    destruct (lanes st0 !! pri_q) as [l|]; intros [= <- <-]; [eauto|done]. }
  destruct (queue_is_ordered qe) eqn:Hord;
    [|destruct (queue_is_atomic qe) eqn:Hat].
  - destruct (odp_queue_enq pri_q ev _) as [rc st1] eqn:He.
    destruct (decide (rc ≠ 0)) as [|Hrc]; [done|].
    apply Henq in He as (l & Hl & ->); [|lia]. simpl.
    assert (mjoin (zget (l_buf_hdr (sched_local st)) 0) = head got) as ->.
    { destruct got as [|h got]; [done|].
      destruct (l_buf_hdr (sched_local st)) as [|b bs]; simpl in Hbuf;
        [done|].
      injection Hbuf as -> _. unfold zget. by rewrite decide_True by lia. }
    destruct got as [|hdr0 got]; [by destruct Hne|]. simpl head. simpl deref.
    intros (st3 & Hst3 & [= <- <-])%bind_Ok. simpl in Hst3.
    apply bind_Ok in Hst3 as (sy & Hsy & [= <-]). simpl.
    split_and!; [done| |done..| |done|].
    { eapply cache_holds_fields; [| | |exact Hc2]; done. }
    { exists l. done. }
    exists hdr0. split; [done|]. unfold ordered_context_of. simpl.
    split_and!; [done..|].
    apply cache_sync_loop_spec in Hsy as (_ & _ & Hs); [done | done | lia].
  - simpl. intros [= <- <-]. simpl. split_and!; done.
  - destruct (odp_queue_enq pri_q ev _) as [rc st1] eqn:He.
    destruct (decide (rc ≠ 0)) as [|Hrc]; [done|].
    apply Henq in He as (l & Hl & ->); [|lia]. simpl.
    intros [= <- <-]. simpl. split_and!; [done..| |done|done].
    exists l. done.
Qed.

End DispatchProofs3.

Section WalkInversion.
Context {cfg : odp_config} {ext : odp_externals}.

Lemma deref_Ok {A} (o : option A) a : deref o = Ok a → o = Some a.
Proof. destruct o; simpl; congruence. Qed.

Lemma lane_loop_found thr i out_queue_p max_num n :
  ∀ id max_deq log st o st',
  lane_loop n thr i id out_queue_p max_num max_deq log st
  = Ok (Found o st') →
  ∃ pri_q ev q qe md rest,
    dispatched_by thr out_queue_p max_num o st' pri_q ev q qe md rest.
Proof.
  induction n as [|n IH]; intros id max_deq log st o st' Hw; [done|].
  cbn [lane_loop] in Hw.
  apply bind_Ok in Hw as (m & _ & Hw).
  destruct (decide (Z.land m _ = 0)); [by eapply IH|].
  apply bind_Ok in Hw as (pri_q & _ & Hw).
  unfold odp_queue_deq in Hw.
  destruct (lanes st !! pri_q) as [[|ev rest]|] eqn:Hlane;
    [by eapply IH| |by eapply IH].
  set (st1 := set_lanes _ st) in Hw.
  apply bind_Ok in Hw as ([q|pktio pe prio] & Hcmd & Hw).
  - apply bind_Ok in Hw as (qe & Hqe & Hw).
    apply bind_Ok in Hw as ([|] & Hne & Hw).
    { destruct (odp_queue_enq pri_q ev st1) as [rc st2].
      destruct (decide (rc ≠ 0)); [done | by eapply IH]. }
    set (md := if queue_is_ordered qe then 1 else max_deq) in Hw.
    unfold queue_deq_multi in Hw.
    destruct (q_destroyed qe) eqn:Hd.
    { repeat case_decide; first [done | lia | by eapply IH]. }
    destruct (decide (Z.of_nat (length (take (Z.to_nat md) (q_events qe)))
                      > MAX_DEQ)); [done|].
    destruct (decide (Z.of_nat (length (take (Z.to_nat md) (q_events qe)))
                      < 0)); [lia|].
    destruct (decide (Z.of_nat (length (take (Z.to_nat md) (q_events qe)))
                      = 0)) as [|Hnz]; [by eapply IH|].
    exists pri_q, ev, q, qe, md, rest, log, st1.
    split_and!;
      [apply lookup_insert_eq | by apply deref_Ok | by apply deref_Ok | done
      | done | by unfold md; intros -> | | lia | exact Hw].
    intros Hnil. by rewrite Hnil in Hnz.
  - destruct (pktin_poll pe st1) as [stop st2].
    destruct (decide (stop ≠ 0)).
    + apply bind_Ok in Hw as (s' & _ & Hw). by eapply IH.
    + destruct (odp_queue_enq pri_q ev st2) as [rc st3].
      destruct (decide (rc ≠ 0)); [done | by eapply IH].
Qed.

Lemma prio_loop_found thr out_queue_p max_num n :
  ∀ i max_deq log st o st',
  prio_loop n thr i out_queue_p max_num max_deq log st = Ok (Found o st') →
  ∃ pri_q ev q qe md rest,
    dispatched_by thr out_queue_p max_num o st' pri_q ev q qe md rest.
Proof.
  induction n as [|n IH]; intros i max_deq log st o st' Hw; [done|].
  cbn [prio_loop] in Hw.
  apply bind_Ok in Hw as (m & _ & Hw).
  destruct (decide (m = 0)); [by eapply IH|].
  apply bind_Ok in Hw as ([o1 st1|max_deq' log' st1] & Hlane & Hw).
  - injection Hw as <- <-. by eapply lane_loop_found.
  - by eapply IH.
Qed.

(** A call of [schedule] that finds the cache empty and returns events
    comes from a dispatching turn. *)
Lemma schedule_found thr out_queue_p max_num max_deq st o st' :
  l_num (sched_local st) = 0 →
  schedule thr out_queue_p max_num max_deq st = Ok (o, st') →
  ret o ≠ 0 →
  ∃ pri_q ev q qe md rest,
    dispatched_by thr out_queue_p max_num o st' pri_q ev q qe md rest.
Proof.
  intros Hnum Hs Hret. unfold schedule in Hs.
  rewrite decide_False in Hs by lia.
  apply bind_Ok in Hs as (st1 & _ & Hs).
  destruct (decide (l_pause (sched_local st1) ≠ 0));
    [by injection Hs as <- <-|].
  apply bind_Ok in Hs as ([o1 st1'|max_deq' log' st1'] & Hw & Hs);
    injection Hs as <- <-; [|done].
  by eapply prio_loop_found.
Qed.

End WalkInversion.

Section DispatchTheorems.
Context {cfg : odp_config} {ext : odp_externals}.

Lemma drained_buf q qe' got st :
  take (length got) (l_buf_hdr (sched_local (drained q qe' got st)))
  = Some <$> got.
Proof. simpl. apply take_app_length'. by rewrite length_fmap. Qed.

(** What a dispatching turn hands out and leaves behind. *)
Lemma dispatched_by_spec thr out_queue_p max_num o st' pri_q ev q qe md rest :
  0 ≤ max_num →
  dispatched_by thr out_queue_p max_num o st' pri_q ev q qe md rest →
  let got := take (Z.to_nat md) (q_events qe) in
  let qe' := set_q_events (drop (Z.to_nat md) (q_events qe)) qe in
  got ≠ [] ∧ Z.of_nat (length got) ≤ MAX_DEQ
  ∧ (queue_is_ordered qe = true → md = 1)
  ∧ ret o = Z.min (Z.of_nat (length got)) max_num
  ∧ out_queue o = (if out_queue_p then Some (q_handle qe) else None)
  ∧ out_ev o = handle <$> take (Z.to_nat max_num) got
  ∧ (∃ log0, deq_log o = log0 ++ [(qe, md)])
  ∧ cache_holds (sched_local st') (drop (Z.to_nat max_num) got)
  ∧ l_qe (sched_local st') = Some q
  ∧ queues st' !! q = Some qe'
  ∧ cmds st' !! ev = Some (SCHED_CMD_DEQUEUE q)
  ∧ eligible thr (q_group qe) (sched st')
  ∧ (if queue_is_ordered qe then
       lanes st' !! pri_q = Some (rest ++ [ev])
       ∧ ∃ hdr0, head got = Some hdr0
                 ∧ ordered_context_of q qe hdr0 (sched_local st')
     else if queue_is_atomic qe then
       lanes st' !! pri_q = Some rest
       ∧ l_pri_queue (sched_local st') = Some pri_q
       ∧ l_cmd_ev (sched_local st') = Some ev
     else lanes st' !! pri_q = Some (rest ++ [ev])).
Proof.
  intros Hmax (log0 & st1 & Hlane & Hcmd & Hqe & Hel & Hd & Hord & Hne & Hlen
               & Hdisp) got qe'.
  apply dispatch_spec in Hdisp
    as (-> & Hcache & Hlqe & Hs & Hq & Hc & _ & Hsync);
    [|done|done|apply drained_buf].
  simpl. split_and!; [done..| by eexists |done|done| | | |].
  - rewrite Hq. simpl. apply lookup_insert_eq.
  - by rewrite Hc.
  - rewrite Hs. by apply not_eligible_false.
  - fold got qe' in Hsync |- *.
    destruct (queue_is_ordered qe); [|destruct (queue_is_atomic qe)].
    + destruct Hsync as ((l & Hl & ->) & _ & Hctx). simpl in Hl.
      rewrite lookup_insert_eq. split; [|done]. congruence.
    + destruct Hsync as (-> & ? & ? & _). done.
    + destruct Hsync as ((l & Hl & ->) & _). simpl in Hl.
      rewrite lookup_insert_eq. congruence.
Qed.

Lemma schedule_out_bounds thr out_queue_p max_num max_deq st o st' :
  0 ≤ max_num →
  schedule thr out_queue_p max_num max_deq st = Ok (o, st') →
  ret o = Z.of_nat (length (out_ev o))
  ∧ ret o ≤ max_num
  ∧ (l_num (sched_local st) = 0 → ret o ≤ MAX_DEQ).
Proof.
  intros Hmax Hs.
  destruct (decide (l_num (sched_local st) = 0)) as [Hnum|Hnum].
  - destruct (decide (ret o = 0)) as [Hz|Hnz].
    + unfold schedule in Hs. rewrite decide_False in Hs by lia.
      apply bind_Ok in Hs as (st1 & _ & Hs).
      destruct (decide (l_pause (sched_local st1) ≠ 0)).
      { injection Hs as <- <-. simpl. unfold MAX_DEQ. lia. }
      apply bind_Ok in Hs as ([o1 st1'|max_deq' log' st1'] & Hw & Hs);
        injection Hs as <- <-; [|simpl; unfold MAX_DEQ; lia].
      apply prio_loop_found in Hw as (pri_q & ev & q & qe & md & rest & Hw).
      apply dispatched_by_spec in Hw
        as (_ & Hlen & _ & Hret & _ & Hout & _); [|done].
      rewrite Hout, Hret, length_fmap, (length_take _ (Z.to_nat max_num)). lia.
    + destruct (schedule_found _ _ _ _ _ _ _ Hnum Hs Hnz)
        as (pri_q & ev & q & qe & md & rest & Hw).
      apply dispatched_by_spec in Hw
        as (_ & Hlen & _ & Hret & _ & Hout & _); [|done].
      rewrite Hout, Hret, length_fmap, (length_take _ (Z.to_nat max_num)). lia.
  - unfold schedule in Hs. rewrite decide_True in Hs by done.
    apply bind_Ok in Hs as ([out l'] & Hcopy & Hs).
    apply bind_Ok in Hs as (oq & _ & Hs). injection Hs as <- <-. simpl.
    apply copy_events_moves in Hcopy as [? _]; [|done]. lia.
Qed.

(** X1: [schedule] never stores more than [max_num] events. *)
Theorem schedule_returns_at_most_max_num thr out_queue_p max_num max_deq st
    o st' :
  0 ≤ max_num →
  schedule thr out_queue_p max_num max_deq st = Ok (o, st') →
  ret o = Z.of_nat (length (out_ev o))
  ∧ ret o ≤ max_num
  ∧ (l_num (sched_local st) = 0 → ret o ≤ MAX_DEQ).
Proof. apply schedule_out_bounds. Qed.

(** X2: the events a dispatch hands out, followed by the events it leaves in
    the cache, are the events it took from the head of the queue, in queue
    order. *)
Theorem dispatch_keeps_queue_order thr out_queue_p max_num max_deq st o st' :
  l_num (sched_local st) = 0 → 0 ≤ max_num →
  schedule thr out_queue_p max_num max_deq st = Ok (o, st') →
  ret o ≠ 0 →
  ∃ q qe qe' md log0 cached,
    deq_log o = log0 ++ [(qe, md)]
    ∧ l_qe (sched_local st') = Some q
    ∧ queues st' !! q = Some qe'
    ∧ out_queue o = (if out_queue_p then Some (q_handle qe') else None)
    ∧ cache_holds (sched_local st') cached
    ∧ q_events qe = take (Z.to_nat md) (q_events qe) ++ q_events qe'
    ∧ take (Z.to_nat md) (q_events qe)
      = take (Z.to_nat max_num) (take (Z.to_nat md) (q_events qe)) ++ cached
    ∧ out_ev o
      = handle <$> take (Z.to_nat max_num) (take (Z.to_nat md) (q_events qe)).
Proof.
  intros Hnum Hmax Hs Hret.
  destruct (schedule_found _ _ _ _ _ _ _ Hnum Hs Hret)
    as (pri_q & ev & q & qe & md & rest & Hw).
  apply dispatched_by_spec in Hw
    as (_ & _ & _ & _ & Hoq & Hout & (log0 & Hlog) & Hcache & Hlqe & Hq & _);
    [|done].
  eexists q, qe, _, md, log0, _.
  split_and!; [done | done | exact Hq | done | exact Hcache | | | done].
  - simpl. by rewrite take_drop.
  - by rewrite take_drop.
Qed.

End DispatchTheorems.

Section ContextTheorems.
Context {cfg : odp_config} {ext : odp_externals}.

(** The dispatching turn behind a call that returned events, in terms of
    the queue the cache names afterwards. *)
Lemma schedule_found_served thr out_queue_p max_num max_deq st o st' q qe' :
  l_num (sched_local st) = 0 → 0 ≤ max_num →
  schedule thr out_queue_p max_num max_deq st = Ok (o, st') →
  ret o ≠ 0 →
  l_qe (sched_local st') = Some q → queues st' !! q = Some qe' →
  ∃ pri_q ev qe md rest,
    dispatched_by thr out_queue_p max_num o st' pri_q ev q qe md rest
    ∧ qe' = set_q_events (drop (Z.to_nat md) (q_events qe)) qe.
Proof.
  intros Hnum Hmax Hs Hret Hlq Hq.
  destruct (schedule_found _ _ _ _ _ _ _ Hnum Hs Hret)
    as (pri_q & ev & q0 & qe & md & rest & Hw).
  pose proof (dispatched_by_spec _ _ _ _ _ _ _ _ _ _ _ Hmax Hw)
    as (_ & _ & _ & _ & _ & _ & _ & _ & Hlq0 & Hq0 & _).
  rewrite Hlq in Hlq0. injection Hlq0 as <-.
  rewrite Hq in Hq0. injection Hq0 as ->.
  by exists pri_q, ev, qe, md, rest.
Qed.

(** The loop that caches the sync values returns when the header has a
    value for every lock and the thread array has room for it. *)
Lemma cache_sync_loop_total hsync lc fuel : ∀ k lsync,
  0 ≤ k →
  (∀ j, k ≤ j < lc →
        is_Some (zget hsync j) ∧ j < Z.of_nat (length lsync)) →
  ∃ sy, cache_sync_loop fuel k lc hsync lsync = Ok sy.
Proof.
  induction fuel as [|fuel IH]; intros k lsync Hk Hall; simpl; [eauto|].
  case_decide as Hlt; [|eauto].
  destruct (Hall k) as [[v Hv] Hlen]; [lia|].
  rewrite Hv. cbn [deref mbind result_bind].
  rewrite decide_True by lia. apply IH; [lia|].
  intros j Hj. rewrite length_zset. apply Hall. lia.
Qed.

(** The turn of the lane walk that finds, at the head of its lane, the
    command of a queue the thread is eligible for, and gets events from the
    queue, is a [dispatch] in the state in which the command is off the
    lane. *)
(** The turn of the lane walk that finds a command of a queue with events
    at the head of its lane goes to [dispatch] with the command taken off
    the lane. *)
Lemma lane_loop_dispatch n thr i id out_queue_p max_num max_deq log st
    m pri_q ev rest q qe :
  let id' := if decide (id >= QUEUES_PER_PRIO) then 0 else id in
  let md := if queue_is_ordered qe then 1 else max_deq in
  let got := take (Z.to_nat md) (q_events qe) in
  let qe' := set_q_events (drop (Z.to_nat md) (q_events qe)) qe in
  zget (pri_mask (sched st)) i = Some m →
  Z.land m (Z.shiftl 1 id') ≠ 0 →
  zget2 (pri_queue (sched st)) i id' = Some pri_q →
  lanes st !! pri_q = Some (ev :: rest) →
  cmds st !! ev = Some (SCHED_CMD_DEQUEUE q) →
  queues st !! q = Some qe →
  not_eligible thr (q_group qe) (sched st) = Ok false →
  q_destroyed qe = false →
  got ≠ [] → Z.of_nat (length got) ≤ MAX_DEQ →
  lane_loop (S n) thr i id out_queue_p max_num max_deq log st
  = dispatch pri_q ev q qe (Z.of_nat (length got)) out_queue_p max_num
      (log ++ [(qe, md)])
      (drained q qe' got (set_lanes (<[pri_q := rest]> (lanes st)) st)).
Proof.
  intros id' md got qe' Hm Hbit Hpq Hlane Hcmd Hqe Hel Hd Hne Hlen.
  cbn [lane_loop]. fold id'. rewrite Hm. cbn [deref mbind result_bind].
  rewrite decide_False by done. rewrite Hpq. cbn [deref mbind result_bind].
  unfold odp_queue_deq. rewrite Hlane.
  unfold odp_buffer_addr. simpl cmds. rewrite Hcmd.
  cbn [deref mbind result_bind]. simpl queues. rewrite Hqe.
  cbn [deref mbind result_bind]. simpl sched. rewrite Hel.
  cbn [deref mbind result_bind]. fold md.
  unfold queue_deq_multi. rewrite Hd. fold got qe'.
  rewrite decide_False by lia. rewrite decide_False by lia.
  rewrite decide_False; [done|].
  destruct got; [done | simpl; lia].
Qed.

(** [dispatch] returns a batch. *)
Lemma dispatch_returns pri_q ev q qe got out_queue_p max_num log st l :
  0 ≤ max_num → got ≠ [] →
  take (length got) (l_buf_hdr (sched_local st)) = Some <$> got →
  lanes st !! pri_q = Some l →
  (queue_is_ordered qe = true →
   ∀ hdr0 k, head got = Some hdr0 → 0 ≤ k < q_lock_count qe →
     is_Some (zget (hdr_sync hdr0) k)
     ∧ k < Z.of_nat (length (l_sync (sched_local st)))) →
  ∃ o st',
    dispatch pri_q ev q qe (Z.of_nat (length got)) out_queue_p max_num log st
    = Ok (Found o st').
Proof.
  intros Hmax Hne Hbuf Hl Hsync. unfold dispatch.
  set (l1 := set_l_qe _ _).
  assert (cache_holds l1 got) as Hc1.
  { unfold cache_holds, l1. simpl. split_and!; [lia | done | done]. }
  rewrite (copy_events_cached _ _ got) by done. cbn [mbind result_bind].
  set (l2 := set_l_num _ _).
  destruct (queue_is_ordered qe) eqn:Hord;
    [|destruct (queue_is_atomic qe) eqn:Hat].
  - unfold odp_queue_enq. simpl lanes. rewrite Hl.
    rewrite decide_False by lia. simpl sched_local.
    assert (mjoin (zget (l_buf_hdr l2) 0) = head got) as ->.
    { simpl. destruct got as [|h got]; [done|].
      destruct (l_buf_hdr (sched_local st)) as [|b bs]; simpl in Hbuf;
        [done|].
      injection Hbuf as -> _. unfold zget. by rewrite decide_True by lia. }
    destruct got as [|hdr0 got]; [done|].
    change (head (hdr0 :: got)) with (Some hdr0).
    cbn [deref mbind result_bind].
    match goal with
    | |- context [cache_sync_loop ?f ?k ?lc ?h ?ls] =>
        destruct (cache_sync_loop_total h lc f k ls) as [sy ->];
          [lia| |cbn [mbind result_bind]; eauto]
    end.
    intros j Hj. apply (Hsync eq_refl hdr0 j); [done | lia].
  - cbn [mbind result_bind]. eauto.
  - unfold odp_queue_enq. simpl lanes. rewrite Hl.
    rewrite decide_False by lia. cbn [mbind result_bind]. eauto.
Qed.

(** X3: the turn of the lane walk that finds, at the head of its lane, the
    command of an atomic queue the thread is eligible for, and gets events
    from the queue, returns a batch and leaves the command off the lane: the
    lane holds what followed the command, and the thread context holds the
    lane and the command. [odp_schedule_release_atomic] then changes
    nothing while events of the batch are cached, and once the cache is
    empty it puts the command at the tail of that lane and clears the
    context. *)
Theorem atomic_queue_held_until_release n thr i id out_queue_p max_num
    max_deq log st m pri_q ev rest q qe :
  let id' := if decide (id >= QUEUES_PER_PRIO) then 0 else id in
  let got := take (Z.to_nat max_deq) (q_events qe) in
  zget (pri_mask (sched st)) i = Some m →
  Z.land m (Z.shiftl 1 id') ≠ 0 →
  zget2 (pri_queue (sched st)) i id' = Some pri_q →
  lanes st !! pri_q = Some (ev :: rest) →
  cmds st !! ev = Some (SCHED_CMD_DEQUEUE q) →
  queues st !! q = Some qe →
  not_eligible thr (q_group qe) (sched st) = Ok false →
  q_sync qe = SYNC_ATOMIC → q_destroyed qe = false →
  got ≠ [] → Z.of_nat (length got) ≤ MAX_DEQ → 0 ≤ max_num →
  ∃ st',
    lane_loop (S n) thr i id out_queue_p max_num max_deq log st
    = Ok (Found
            {| ret := Z.min (Z.of_nat (length got)) max_num;
               out_queue := if out_queue_p then Some (q_handle qe) else None;
               out_ev := handle <$> take (Z.to_nat max_num) got;
               deq_log := log ++ [(qe, max_deq)] |} st')
    ∧ lanes st' = <[pri_q := rest]> (lanes st)
    ∧ sched st' = sched st ∧ cmds st' = cmds st
    ∧ queues st'
      = <[q := set_q_events (drop (Z.to_nat max_deq) (q_events qe)) qe]>
          (queues st)
    ∧ l_pri_queue (sched_local st') = Some pri_q
    ∧ l_cmd_ev (sched_local st') = Some ev
    ∧ l_qe (sched_local st') = Some q
    ∧ cache_holds (sched_local st') (drop (Z.to_nat max_num) got)
    ∧ (l_num (sched_local st') ≠ 0 →
       odp_schedule_release_atomic st' = Ok st')
    ∧ (l_num (sched_local st') = 0 →
       odp_schedule_release_atomic st'
       = Ok (set_sched_local (set_l_pri_queue None (sched_local st'))
               (set_lanes (<[pri_q := rest ++ [ev]]> (lanes st)) st'))).
Proof.
  intros id' got Hm Hbit Hpq Hlane Hcmd Hqe Hel Hsync Hd Hne Hlen Hmax.
  assert (queue_is_ordered qe = false) as Hord
    by (unfold queue_is_ordered; rewrite Hsync; by apply bool_decide_false).
  assert (queue_is_atomic qe = true) as Hat
    by (unfold queue_is_atomic; rewrite Hsync; by apply bool_decide_true).
  pose proof (lane_loop_dispatch n thr i id out_queue_p max_num max_deq log
                st m pri_q ev rest q qe) as Hturn.
  cbv zeta in Hturn. rewrite Hord in Hturn. fold id' got in Hturn.
  rewrite Hturn by done. clear Hturn.
  set (qe' := set_q_events _ qe).
  set (st1 := set_lanes (<[pri_q := rest]> (lanes st)) st).
  destruct (dispatch_returns pri_q ev q qe got out_queue_p max_num
              (log ++ [(qe, max_deq)]) (drained q qe' got st1) rest)
    as (o & st' & Hdisp);
    [done | done | apply drained_buf | simpl; apply lookup_insert_eq
    | by rewrite Hord |].
  rewrite Hdisp.
  apply dispatch_spec in Hdisp
    as (-> & Hcache & Hlqe & Hs & Hq & Hc & _ & Hbr);
    [|done|done|apply drained_buf].
  rewrite Hord, Hat in Hbr. destruct Hbr as (Hl & Hlp & Hle & _).
  exists st'. split_and!; [done| | | | |done|done|done|done| |].
  - by rewrite Hl.
  - by rewrite Hs.
  - by rewrite Hc.
  - by rewrite Hq.
  - intros Hn. unfold odp_schedule_release_atomic.
    rewrite Hlp. by rewrite decide_False.
  - intros Hn. unfold odp_schedule_release_atomic.
    rewrite Hlp, decide_True, Hle by done. cbn [deref mbind result_bind].
    unfold odp_queue_enq. rewrite ?Hl. simpl lanes.
    rewrite ?lookup_insert_eq. rewrite ?decide_False by lia.
    by rewrite insert_insert_eq.
Qed.

(** X4: the turn of the lane walk that finds, at the head of its lane, the
    command of a parallel or an ordered queue the thread is eligible for,
    and gets events from the queue, returns a batch and puts the command
    back at the tail of the lane it took it from; it takes no atomic
    context. *)
Theorem dispatch_requeues_command n thr i id out_queue_p max_num max_deq
    log st m pri_q ev rest q qe :
  let id' := if decide (id >= QUEUES_PER_PRIO) then 0 else id in
  let md := if queue_is_ordered qe then 1 else max_deq in
  let got := take (Z.to_nat md) (q_events qe) in
  zget (pri_mask (sched st)) i = Some m →
  Z.land m (Z.shiftl 1 id') ≠ 0 →
  zget2 (pri_queue (sched st)) i id' = Some pri_q →
  lanes st !! pri_q = Some (ev :: rest) →
  cmds st !! ev = Some (SCHED_CMD_DEQUEUE q) →
  queues st !! q = Some qe →
  not_eligible thr (q_group qe) (sched st) = Ok false →
  q_sync qe ≠ SYNC_ATOMIC → q_destroyed qe = false →
  got ≠ [] → Z.of_nat (length got) ≤ MAX_DEQ → 0 ≤ max_num →
  (q_sync qe = SYNC_ORDERED →
   ∀ hdr0 k, head got = Some hdr0 → 0 ≤ k < q_lock_count qe →
     is_Some (zget (hdr_sync hdr0) k)
     ∧ k < Z.of_nat (length (l_sync (sched_local st)))) →
  ∃ st',
    lane_loop (S n) thr i id out_queue_p max_num max_deq log st
    = Ok (Found
            {| ret := Z.min (Z.of_nat (length got)) max_num;
               out_queue := if out_queue_p then Some (q_handle qe) else None;
               out_ev := handle <$> take (Z.to_nat max_num) got;
               deq_log := log ++ [(qe, md)] |} st')
    ∧ lanes st' = <[pri_q := rest ++ [ev]]> (lanes st)
    ∧ sched st' = sched st ∧ cmds st' = cmds st
    ∧ queues st'
      = <[q := set_q_events (drop (Z.to_nat md) (q_events qe)) qe]>
          (queues st)
    ∧ l_pri_queue (sched_local st') = l_pri_queue (sched_local st)
    ∧ l_qe (sched_local st') = Some q
    ∧ cache_holds (sched_local st') (drop (Z.to_nat max_num) got).
Proof.
  intros id' md got Hm Hbit Hpq Hlane Hcmd Hqe Hel Hsync Hd Hne Hlen Hmax
    Hlocks.
  assert (queue_is_atomic qe = false) as Hat
    by (unfold queue_is_atomic; by apply bool_decide_false).
  pose proof (lane_loop_dispatch n thr i id out_queue_p max_num max_deq log
                st m pri_q ev rest q qe) as Hturn.
  cbv zeta in Hturn. fold id' md got in Hturn.
  rewrite Hturn by done. clear Hturn.
  set (qe' := set_q_events _ qe).
  set (st1 := set_lanes (<[pri_q := rest]> (lanes st)) st).
  destruct (dispatch_returns pri_q ev q qe got out_queue_p max_num
              (log ++ [(qe, md)]) (drained q qe' got st1) rest)
    as (o & st' & Hdisp);
    [done | done | apply drained_buf | simpl; apply lookup_insert_eq | |].
  { intros Hord. apply Hlocks. unfold queue_is_ordered in Hord.
    by apply bool_decide_eq_true in Hord. }
  rewrite Hdisp.
  apply dispatch_spec in Hdisp
    as (-> & Hcache & Hlqe & Hs & Hq & Hc & _ & Hbr);
    [|done|done|apply drained_buf].
  rewrite Hat in Hbr.
  assert ((∃ l, lanes (drained q qe' got st1) !! pri_q = Some l
                ∧ lanes st' = <[pri_q := l ++ [ev]]>
                                (lanes (drained q qe' got st1)))
          ∧ l_pri_queue (sched_local st')
            = l_pri_queue (sched_local (drained q qe' got st1)))
    as ((l & Hl & Hl') & Hlp).
  { destruct (queue_is_ordered qe).
    - destruct Hbr as (? & ? & _). done.
    - destruct Hbr as (? & ? & _). done. }
  simpl in Hl. rewrite lookup_insert_eq in Hl. injection Hl as <-.
  exists st'. split_and!; [done| | | | |done|done|done].
  - rewrite Hl'. simpl. apply insert_insert_eq.
  - by rewrite Hs.
  - by rewrite Hc.
  - by rewrite Hq.
Qed.

(** X5: a call that returns an event of an ordered queue returns that one
    event, leaves nothing in the cache, and takes the ordered context of the
    event: the origin queue, the order and the sync values the event
    carries. *)
Theorem ordered_dispatch_takes_context thr out_queue_p max_num max_deq st
    o st' q qe' :
  l_num (sched_local st) = 0 → 0 ≤ max_num →
  schedule thr out_queue_p max_num max_deq st = Ok (o, st') →
  ret o ≠ 0 →
  l_qe (sched_local st') = Some q → queues st' !! q = Some qe' →
  q_sync qe' = SYNC_ORDERED →
  ∃ qe hdr0,
    q_events qe = hdr0 :: q_events qe'
    ∧ last (deq_log o) = Some (qe, 1)
    ∧ ret o = 1 ∧ out_ev o = [handle hdr0]
    ∧ l_num (sched_local st') = 0
    ∧ ordered_context_of q qe' hdr0 (sched_local st').
Proof.
  intros Hnum Hmax Hs Hret Hlq Hq Hsync.
  destruct (schedule_found_served _ _ _ _ _ _ _ _ _ Hnum Hmax Hs Hret Hlq Hq)
    as (pri_q & ev & qe & md & rest & Hw & ->).
  apply dispatched_by_spec in Hw
    as (Hne & _ & Hmd & Hr & _ & Hout & (log0 & Hlog) & Hcache & _ & _ & _
        & _ & Htok); [|done].
  simpl in Hsync. unfold queue_is_ordered in Htok, Hmd.
  rewrite bool_decide_true in Htok, Hmd by done.
  rewrite Hmd in * by done. clear Hmd.
  destruct Htok as (_ & hdr0 & Hhd & Hctx).
  destruct (q_events qe) as [|h evs] eqn:Hev; [done|].
  simpl in Hhd. injection Hhd as ->. simpl in Hr, Hout, Hcache.
  assert (1 ≤ max_num) as Hmax1 by lia.
  replace (Z.to_nat max_num) with (S (Z.to_nat (max_num - 1))) in Hout, Hcache
    by lia.
  simpl in Hout, Hcache. rewrite take_0 in Hout, Hcache.
  rewrite take_nil in Hout. rewrite drop_nil in Hcache.
  exists qe, hdr0. rewrite Hev. simpl.
  split_and!; [done | by rewrite Hlog, last_snoc | lia | done | | done].
  by destruct Hcache as (_ & -> & _).
Qed.

End ContextTheorems.

Section IdleProofs.
Context {cfg : odp_config} {ext : odp_externals}.

Lemma land_lane_range x :
  0 ≤ Z.land x (QUEUES_PER_PRIO - 1) < QUEUES_PER_PRIO.
Proof.
  change (QUEUES_PER_PRIO - 1) with (Z.ones 2).
  rewrite Z.land_ones by lia. unfold QUEUES_PER_PRIO.
  apply (Z.mod_pos_bound x (2 ^ 2)). lia.
Qed.

Lemma odp_queue_deq_empty pq st :
  lanes_empty st → odp_queue_deq pq st = (None, st).
Proof.
  intros He. unfold odp_queue_deq.
  destruct (lanes st !! pq) as [l|] eqn:Hl; [|done].
  by rewrite (He _ _ Hl).
Qed.

Lemma lane_loop_empty thr i out_queue_p max_num max_deq log st n : ∀ id,
  fabric_wf (sched st) → lanes_empty st →
  0 ≤ i < ODP_CONFIG_SCHED_PRIOS → 0 ≤ id ≤ QUEUES_PER_PRIO →
  lane_loop n thr i id out_queue_p max_num max_deq log st
  = Ok (NotFound max_deq log st).
Proof.
  intros id Hwf He Hi. revert id.
  induction n as [|n IH]; intros id Hid; [done|].
  cbn [lane_loop].
  set (id' := if decide (id >= QUEUES_PER_PRIO) then 0 else id).
  assert (0 ≤ id' < QUEUES_PER_PRIO) as Hid'.
  { unfold id', QUEUES_PER_PRIO in *. case_decide; lia. }
  destruct Hwf as [Hshape _].
  destruct (Hshape i id') as ([m Hm] & _ & [pq Hpq]); [done|].
  rewrite Hm. simpl. case_decide; [apply IH; lia|].
  rewrite Hpq. simpl. rewrite odp_queue_deq_empty by done.
  apply IH. lia.
Qed.

Lemma prio_loop_empty thr out_queue_p max_num max_deq log st n : ∀ i,
  fabric_wf (sched st) → lanes_empty st →
  0 ≤ i → i + Z.of_nat n ≤ ODP_CONFIG_SCHED_PRIOS →
  prio_loop n thr i out_queue_p max_num max_deq log st
  = Ok (NotFound max_deq log st).
Proof.
  intros i Hwf He. revert i.
  induction n as [|n IH]; intros i Hi Hn; [done|].
  cbn [prio_loop].
  destruct Hwf as [Hshape Hbits].
  destruct (Hshape i 0) as ([m Hm] & _); [unfold lane_ok, QUEUES_PER_PRIO; lia|].
  rewrite Hm. cbn [deref mbind result_bind]. case_decide; [apply IH; lia|].
  rewrite lane_loop_empty;
    [|done|done|lia|pose proof (land_lane_range thr); lia].
  cbn [mbind result_bind]. apply IH; lia.
Qed.

Lemma schedule_empty thr out_queue_p max_num max_deq st :
  fabric_wf (sched st) → lanes_empty st → no_context (sched_local st) →
  schedule thr out_queue_p max_num max_deq st = Ok (sched_nothing, st).
Proof.
  intros Hwf He (Hnum & Hpq & Hor). unfold schedule.
  rewrite decide_False by lia.
  unfold odp_schedule_release_context, odp_schedule_release_atomic.
  rewrite Hor, Hpq. cbn [mbind result_bind]. case_decide; [done|].
  destruct (decide (0 ≤ ODP_CONFIG_SCHED_PRIOS)).
  - rewrite prio_loop_empty; [done..|lia|lia].
  - by replace (Z.to_nat ODP_CONFIG_SCHED_PRIOS) with 0%nat by lia.
Qed.

(** X6: with no command on any lane, a thread that holds no context gets
    nothing from [schedule], and the call changes nothing. *)
Theorem schedule_nothing_queued thr out_queue_p max_num max_deq st :
  fabric_wf (sched st) → lanes_empty st → no_context (sched_local st) →
  schedule thr out_queue_p max_num max_deq st = Ok (sched_nothing, st).
Proof. apply schedule_empty. Qed.

(** X7: with no command on any lane, [schedule_loop] with [ODP_SCHED_WAIT]
    does not return: every bounded unrolling of its loop is still
    spinning. *)
Theorem schedule_loop_wait_spins fuel thr out_queue_p max_num max_deq st :
  fabric_wf (sched st) → lanes_empty st → no_context (sched_local st) →
  schedule_loop fuel thr out_queue_p ODP_SCHED_WAIT max_num max_deq st
  = Fault NO_FUEL.
Proof.
  intros Hwf He Hc. unfold schedule_loop.
  generalize 0 at 1. generalize 0%nat. generalize (@None Z).
  induction fuel as [|fuel IH]; intros oq k start; [done|].
  cbn [schedule_loop_from]. rewrite schedule_empty by done.
  cbn [mbind result_bind ret sched_nothing].
  rewrite decide_False by lia. rewrite decide_True by done. apply IH.
Qed.

Lemma schedule_loop_from_bounds thr out_queue_p wait max_num max_deq fuel :
  ∀ start k oq st o st',
  0 ≤ max_num →
  schedule_loop_from fuel start k oq thr out_queue_p wait max_num max_deq st
  = Ok (o, st') →
  ret o = Z.of_nat (length (out_ev o))
  ∧ ret o ≤ max_num
  ∧ (wait = ODP_SCHED_WAIT → ret o ≠ 0).
Proof.
  induction fuel as [|fuel IH]; intros start k oq st o st' Hmax Hl; [done|].
  cbn [schedule_loop_from] in Hl.
  apply bind_Ok in Hl as ([o1 st1] & Hs & Hl).
  apply schedule_out_bounds in Hs as (Hlen & Hle & _); [|done].
  repeat case_decide; try (by eapply IH).
  all: injection Hl as <- <-; simpl; split_and!; done.
Qed.

(** X8: [schedule_loop] returns the number of events it stored, which is at
    most [max_num]; with [ODP_SCHED_WAIT] it returns only with events. *)
Theorem schedule_loop_returns_count fuel thr out_queue_p wait max_num
    max_deq st o st' :
  0 ≤ max_num →
  schedule_loop fuel thr out_queue_p wait max_num max_deq st = Ok (o, st') →
  ret o = Z.of_nat (length (out_ev o))
  ∧ ret o ≤ max_num
  ∧ (wait = ODP_SCHED_WAIT → ret o ≠ 0).
Proof. apply schedule_loop_from_bounds. Qed.

(** X9: [odp_schedule] with [ODP_SCHED_WAIT] returns an event, never
    [ODP_EVENT_INVALID]. *)
Theorem odp_schedule_wait_returns_event fuel thr out_queue_p st ev oq st' :
  odp_schedule fuel thr out_queue_p ODP_SCHED_WAIT st = Ok (ev, oq, st') →
  is_Some ev.
Proof.
  intros Ho. unfold odp_schedule in Ho.
  apply bind_Ok in Ho as ([o st1] & Hl & [= <- <- <-]).
  apply schedule_loop_from_bounds in Hl as (Hlen & _ & Hnz); [|lia].
  destruct (out_ev o); [|done]. simpl in Hlen. by destruct Hnz.
Qed.

(** X10: [odp_schedule_multi] returns the number of events it stored, which
    is at most [num], and at least one with [ODP_SCHED_WAIT]. *)
Theorem odp_schedule_multi_returns_count fuel thr out_queue_p wait num st
    o st' :
  0 ≤ num ≤ UINT32_MAX →
  odp_schedule_multi fuel thr out_queue_p wait num st = Ok (o, st') →
  ret o = Z.of_nat (length (out_ev o))
  ∧ 0 ≤ ret o ≤ num
  ∧ (wait = ODP_SCHED_WAIT → 1 ≤ ret o).
Proof.
  intros Hnum Hm. unfold odp_schedule_multi in Hm.
  assert (wrap32 num = num) as Hw.
  { unfold wrap32, UINT32_MAX in *. apply Z.mod_small. lia. }
  rewrite Hw in Hm.
  apply schedule_loop_from_bounds in Hm as (Hlen & Hle & Hnz); [|lia].
  split_and!; [done | lia | done |]. intros ->. specialize (Hnz eq_refl). lia.
Qed.

End IdleProofs.

Section ThreadProofs.
Context {cfg : odp_config} {ext : odp_externals}.

Lemma set_sched_local_id st : set_sched_local (sched_local st) st = st.
Proof. by destruct st. Qed.

Lemma release_atomic_frame st st' :
  odp_schedule_release_atomic st = Ok st' →
  sched st' = sched st ∧ queues st' = queues st ∧ cmds st' = cmds st
  ∧ l_pause (sched_local st') = l_pause (sched_local st)
  ∧ l_num (sched_local st') = l_num (sched_local st)
  ∧ l_origin_qe (sched_local st') = l_origin_qe (sched_local st).
Proof.
  unfold odp_schedule_release_atomic.
  destruct (l_pri_queue (sched_local st)) as [pq|]; [|by intros [= <-]].
  case_decide; [|by intros [= <-]].
  intros (ev & _ & Hr)%bind_Ok.
  destruct (odp_queue_enq pq ev st) as [rc st1] eqn:He.
  apply odp_queue_enq_frame in He as (? & Hl & ? & ?).
  case_decide; [done|]. injection Hr as <-. simpl. by rewrite Hl.
Qed.

(** X11: [odp_schedule_release_atomic] gives the held command back once: a
    second call right after it changes nothing. *)
Theorem release_atomic_idempotent st st' :
  odp_schedule_release_atomic st = Ok st' →
  odp_schedule_release_atomic st' = Ok st'
  ∧ (l_num (sched_local st) = 0 → l_pri_queue (sched_local st') = None)
  ∧ (l_num (sched_local st) ≠ 0 → st' = st).
Proof.
  unfold odp_schedule_release_atomic.
  destruct (l_pri_queue (sched_local st)) as [pq|] eqn:Hpq.
  - case_decide as Hn.
    + intros (ev & _ & Hr)%bind_Ok.
      destruct (odp_queue_enq pq ev st) as [rc st1] eqn:He.
      case_decide; [done|]. injection Hr as <-. simpl. by split_and!.
    + intros [= <-]. rewrite Hpq. rewrite decide_False by done.
      by split_and!.
  - intros [= <-]. rewrite Hpq. by split_and!.
Qed.

(** X12: after [odp_schedule_pause] a thread whose cache is empty and that
    holds no ordered context gets nothing from [schedule], whatever the
    lanes hold: the call gives back the atomic context, if one is held, and
    looks at no lane; [odp_schedule_resume] after the pause leaves the
    thread as it was. *)
Theorem paused_thread_gets_nothing thr out_queue_p max_num max_deq st :
  l_num (sched_local st) = 0 →
  l_origin_qe (sched_local st) = None →
  l_pause (sched_local st) = 0 →
  schedule thr out_queue_p max_num max_deq (odp_schedule_pause st)
  = (st1 ← odp_schedule_release_atomic (odp_schedule_pause st);
     Ok (sched_nothing, st1))
  ∧ odp_schedule_resume (odp_schedule_pause st) = st.
Proof.
  intros Hnum Hor Hp. split.
  - unfold schedule. simpl l_num. rewrite decide_False by lia.
    unfold odp_schedule_release_context. simpl l_origin_qe. rewrite Hor.
    destruct (odp_schedule_release_atomic (odp_schedule_pause st))
      as [st1|] eqn:Hr; [|done].
    apply release_atomic_frame in Hr as (_ & _ & _ & Hp1 & _).
    cbn [mbind result_bind]. rewrite Hp1. simpl l_pause.
    by rewrite decide_True.
  - unfold odp_schedule_resume, odp_schedule_pause. simpl.
    destruct st as [s l q la c]. simpl in *. f_equal.
    destruct l. simpl in *. by subst.
Qed.

(** X13: [odp_schedule_term_local] refuses to end a thread that still has
    events in its cache, and changes nothing; otherwise it gives the atomic
    context back and leaves the context [odp_schedule_init_local] builds
    (a further [odp_schedule_init_local] changes nothing). *)
Theorem term_local_needs_empty_cache st :
  (l_num (sched_local st) ≠ 0 → odp_schedule_term_local st = Ok (-1, st))
  ∧ (∀ r st', odp_schedule_term_local st = Ok (r, st') →
              l_num (sched_local st) = 0 →
              r = 0 ∧ odp_schedule_init_local st' = (0, st'))
  ∧ (∀ pq ev l,
       l_num (sched_local st) = 0 → l_origin_qe (sched_local st) = None →
       l_pri_queue (sched_local st) = Some pq →
       l_cmd_ev (sched_local st) = Some ev →
       lanes st !! pq = Some l →
       odp_schedule_term_local st
       = Ok (0, set_sched_local sched_local_init
                  (set_lanes (<[pq := l ++ [ev]]> (lanes st)) st))).
Proof.
  unfold odp_schedule_term_local. split_and!.
  - intros Hn. by rewrite decide_True.
  - intros r st' Ht Hn. rewrite decide_False in Ht by lia.
    apply bind_Ok in Ht as (st1 & _ & [= <- <-]). done.
  - intros pq ev l Hn Hor Hpq Hev Hl. rewrite decide_False by lia.
    unfold odp_schedule_release_context, odp_schedule_release_atomic.
    rewrite Hor, Hpq, decide_True, Hev by done. cbn [deref mbind result_bind].
    unfold odp_queue_enq. rewrite Hl. rewrite decide_False by lia. done.
Qed.

(** X14: a [get_sched_order] that finds the [ignore_ordered_context] mark
    set answers a null origin, stores no order and clears the mark, and
    changes nothing else; the mark holds for that one call: the call after
    it answers the origin and the order of the thread context. *)
Theorem get_sched_order_ignores_once st :
  let st1 := set_sched_local
               (set_l_ignore_ordered_context 0 (sched_local st)) st in
  l_ignore_ordered_context (sched_local st) ≠ 0 →
  get_sched_order st = (None, None, st1)
  ∧ get_sched_order st1
    = (l_origin_qe (sched_local st), Some (l_order (sched_local st)), st1).
Proof.
  intros st1 Hig. unfold get_sched_order.
  rewrite decide_True by done. fold st1. split; [done|].
  by rewrite decide_False by (simpl; lia).
Qed.

(** X15: once [sched_order_resolved] has run, the thread holds no ordered
    context: the ordered locks and [odp_schedule_release_ordered] do
    nothing, and [odp_schedule_release_context] is
    [odp_schedule_release_atomic]. *)
Theorem order_resolved_ends_context buf_hdr st hdr st' :
  sched_order_resolved buf_hdr st = (hdr, st') →
  (∀ fuel lock_index, odp_schedule_order_lock fuel lock_index st' = Ok st')
  ∧ (∀ lock_index, odp_schedule_order_unlock lock_index st' = Ok st')
  ∧ odp_schedule_release_ordered st' = st'
  ∧ odp_schedule_release_context st' = odp_schedule_release_atomic st'
  ∧ (is_Some buf_hdr → hdr = Some None).
Proof.
  unfold sched_order_resolved. intros [= <- <-].
  unfold odp_schedule_order_lock, odp_schedule_order_unlock,
    odp_schedule_release_ordered, odp_schedule_release_context. simpl.
  split_and!; [done..|]. by intros [? ->].
Qed.

End ThreadProofs.

Section AttachProofs.
Context {cfg : odp_config} {ext : odp_externals}.

Lemma zset2_id {A} (l : list (list A)) i j a :
  zget2 l i j = Some a → zset2 l i j a = l.
Proof.
  intros (row & Hrow & Ha)%zget2_Some_row. unfold zset2. rewrite Hrow.
  rewrite (zset_id row) by done. by apply zset_id.
Qed.

Lemma zset2_zset2 {A} (l : list (list A)) i j a b c :
  zget2 l i j = Some c → zset2 (zset2 l i j a) i j b = zset2 l i j b.
Proof.
  intros (row & Hrow & Ha)%zget2_Some_row. unfold zset2. rewrite Hrow.
  pose proof (zget_Some _ _ _ Hrow).
  rewrite zget_zset_eq by done. by rewrite zset_zset, zset_zset.
Qed.

Lemma u8_high_bits m n : 0 ≤ m < 2 ^ 8 → 8 ≤ n → Z.testbit m n = false.
Proof.
  intros Hm Hn. rewrite <- (Z.mod_small m (2 ^ 8)) by done.
  apply Z.mod_pow2_bits_high. lia.
Qed.

Lemma wrap8_high_bits x n : 8 ≤ n → Z.testbit (wrap8 x) n = false.
Proof. intros Hn. unfold wrap8. apply Z.mod_pow2_bits_high. lia. Qed.

(** The mask a [pri_set] stores is the old one when the bit was set, and
    the mask the matching [pri_clr] stores is the old one when it was not. *)
Lemma mask_set_keeps m id :
  0 ≤ m < 2 ^ 8 → 0 ≤ id → Z.testbit m id = true →
  wrap8 (Z.lor m (Z.shiftl 1 id)) = m.
Proof.
  intros Hm Hid Hbit. apply Z.bits_inj_iff'. intros n Hn.
  destruct (decide (n < 8)).
  - rewrite pri_set_bits by lia. case_bool_decide; [subst|];
      [by rewrite Hbit | by rewrite orb_false_r].
  - by rewrite wrap8_high_bits, u8_high_bits by lia.
Qed.

Lemma mask_set_clr m id :
  0 ≤ m < 2 ^ 8 → 0 ≤ id → Z.testbit m id = false →
  Z.land (wrap8 (Z.lor m (Z.shiftl 1 id))) (wrap8 (Z.lnot (Z.shiftl 1 id)))
  = m.
Proof.
  intros Hm Hid Hbit. apply Z.bits_inj_iff'. intros n Hn.
  destruct (decide (n < 8)).
  - rewrite pri_clr_bits, pri_set_bits by lia.
    case_bool_decide; [subst|]; simpl;
      [by rewrite Hbit, andb_false_r | by rewrite orb_false_r, andb_true_r].
  - rewrite Z.land_spec, !wrap8_high_bits, u8_high_bits by lia. done.
Qed.

Lemma mask_u8_lookup s prio m :
  mask_u8 s → zget (pri_mask s) prio = Some m → 0 ≤ m < 2 ^ 8.
Proof.
  unfold mask_u8, zget. rewrite Forall_lookup. intros Hall.
  case_decide; [|done]. apply Hall.
Qed.

(** A [pri_clr] right after a [pri_set] of the same lane restores the
    fabric. *)
Lemma pri_set_clr s id prio q s1 :
  fabric_wf s → mask_u8 s → lane_ok id prio → count_below_max id prio s →
  pri_set id prio s = Ok (q, s1) →
  pri_clr id prio s1 = Ok s.
Proof.
  intros Hwf Hu8 Hl Hmax. pose proof Hwf as [Hshape Hbits].
  destruct (Hshape prio id Hl) as ([m Hm] & [c Hc] & [q0 Hq]).
  destruct (Hbits prio id m c Hl Hm Hc) as [Hrange Hbit].
  unfold count_below_max in Hmax. rewrite Hc in Hmax.
  unfold UINT32_MAX in Hmax.
  pose proof (mask_u8_lookup _ _ _ Hu8 Hm) as Hm8.
  pose proof (zget_Some _ _ _ Hm) as Hmlen.
  unfold pri_set. rewrite Hm. cbn [deref mbind result_bind]. simpl.
  rewrite Hc. simpl. rewrite Hq. simpl. intros [= <- <-].
  unfold pri_clr. simpl.
  assert (wrap32 (c + 1) = c + 1) as ->
    by (unfold wrap32; apply Z.mod_small; lia).
  rewrite (zget2_zset2 _ _ _ _ _ _ c), decide_True by done. simpl.
  replace (c + 1 - 1) with c by lia.
  assert (wrap32 c = c) as -> by (unfold wrap32; apply Z.mod_small; lia).
  rewrite (zset2_zset2 _ _ _ _ _ c), (zset2_id _ _ _ c) by done.
  rewrite Hc. simpl. destruct s as [pq pm pc sg]. simpl in *.
  unfold set_pri_mask, set_pri_count. simpl.
  destruct (decide (c = 0)) as [->|Hnz].
  - rewrite zget_zset_eq by done. simpl. rewrite zset_zset.
    rewrite mask_set_clr; [|done|unfold lane_ok in Hl; lia|].
    + by rewrite (zset_id pm) by done.
    + destruct (Z.testbit m id); [|done]. lia.
  - rewrite mask_set_keeps; [|done|unfold lane_ok in Hl; lia|].
    + by rewrite (zset_id pm) by done.
    + apply Hbit. lia.
Qed.

Lemma pri_id_queue_range queue :
  0 ≤ pri_id_queue queue < QUEUES_PER_PRIO.
Proof. unfold pri_id_queue. rewrite Z.land_comm. apply land_lane_range. Qed.

Lemma pri_id_pktio_range pktio :
  0 ≤ pri_id_pktio pktio < QUEUES_PER_PRIO.
Proof. unfold pri_id_pktio. rewrite Z.land_comm. apply land_lane_range. Qed.

(** An attach marks the lane it answers. *)
Lemma pri_set_marks s id prio :
  fabric_wf s → lane_ok id prio → count_below_max id prio s →
  ∃ q s', pri_set id prio s = Ok (q, s')
          ∧ zget2 (pri_queue s) prio id = Some q
          ∧ fabric_wf s'
          ∧ pri_bit s' prio id = Some true.
Proof.
  intros Hwf Hl Hmax. unfold count_below_max in Hmax.
  destruct (zget2 (pri_count s) prio id) as [c|] eqn:Hc; [|done].
  destruct (pri_set_ok s id prio c) as (q & s' & Hs & Hwf' & Hq & Hc');
    [done..|].
  exists q, s'. split_and!; [done..|].
  destruct (fabric_wf_inv s' Hwf' prio id) as (b & c' & Hb & Hc'' & Hiff);
    [apply Hl..|].
  rewrite Hb. f_equal. apply Hiff.
  rewrite Hc' in Hc''. injection Hc'' as <-.
  destruct Hwf as [Hshape Hbits].
  destruct (Hshape prio id Hl) as ([m Hm] & _).
  destruct (Hbits prio id m c Hl Hm Hc) as [? _]. lia.
Qed.

(** X16: the lane ids that [pri_id_queue] and [pri_id_pktio] compute are lane
    indices, whatever the handle; so on a well formed fabric
    [pri_set_queue] and [pri_set_pktio] return for every handle and every
    priority of the configuration, answer the lane queue of that lane and
    mark it. *)
Theorem attach_any_handle queue pktio prio s :
  fabric_wf s → 0 ≤ prio < ODP_CONFIG_SCHED_PRIOS →
  count_below_max (pri_id_queue queue) prio s →
  count_below_max (pri_id_pktio pktio) prio s →
  (0 ≤ pri_id_queue queue < QUEUES_PER_PRIO
   ∧ ∃ q s', pri_set_queue queue prio s = Ok (q, s')
             ∧ zget2 (pri_queue s) prio (pri_id_queue queue) = Some q
             ∧ fabric_wf s'
             ∧ pri_bit s' prio (pri_id_queue queue) = Some true)
  ∧ (0 ≤ pri_id_pktio pktio < QUEUES_PER_PRIO
     ∧ ∃ q s', pri_set_pktio pktio prio s = Ok (q, s')
               ∧ zget2 (pri_queue s) prio (pri_id_pktio pktio) = Some q
               ∧ fabric_wf s'
               ∧ pri_bit s' prio (pri_id_pktio pktio) = Some true).
Proof.
  intros Hwf Hp Hq Hk.
  pose proof (pri_id_queue_range queue). pose proof (pri_id_pktio_range pktio).
  split; (split; [done|]); by apply pri_set_marks.
Qed.

(** X17: [schedule_queue_init] with a command buffer marks the lane of the
    queue and stores the command; [schedule_queue_destroy] right after it
    restores the fabric and frees the buffer, so that only the command
    fields of the queue entry differ from the state before. *)
Theorem queue_attach_detach b qe e st :
  fabric_wf (sched st) → mask_u8 (sched st) →
  queues st !! qe = Some e →
  0 ≤ q_prio e < ODP_CONFIG_SCHED_PRIOS →
  count_below_max (pri_id_queue (q_handle e)) (q_prio e) (sched st) →
  cmds st !! b = None →
  ∃ st1 pq,
    schedule_queue_init (Some b) qe st = Ok (0, st1)
    ∧ pri_bit (sched st1) (q_prio e) (pri_id_queue (q_handle e)) = Some true
    ∧ cmds st1 !! b = Some (SCHED_CMD_DEQUEUE qe)
    ∧ queues st1 !! qe = Some (set_q_token (Some pq) (Some b) e)
    ∧ zget2 (pri_queue (sched st)) (q_prio e) (pri_id_queue (q_handle e))
      = Some pq
    ∧ lanes st1 = lanes st
    ∧ schedule_queue_destroy qe st1
      = Ok (set_queues (<[qe := set_q_token None None e]> (queues st)) st).
Proof.
  intros Hwf Hu8 He Hp Hmax Hb.
  pose proof (pri_id_queue_range (q_handle e)) as Hid.
  destruct (pri_set_marks (sched st) (pri_id_queue (q_handle e)) (q_prio e))
    as (pq & s' & Hset & Hpq & Hwf' & Hbit); [done..|].
  pose proof (pri_set_clr _ _ _ _ _ Hwf Hu8 (conj Hp Hid) Hmax Hset) as Hclr.
  unfold schedule_queue_init. rewrite He. cbn [deref mbind result_bind].
  unfold pri_set_queue. simpl. rewrite Hset. cbn [mbind result_bind].
  eexists _, pq. split; [done|]. simpl.
  rewrite !lookup_insert_eq. split_and!; [done..|].
  unfold schedule_queue_destroy. simpl. rewrite lookup_insert_eq. simpl.
  unfold pri_clr_queue. rewrite Hclr. simpl.
  unfold odp_buffer_free, set_queues, set_sched, set_cmds. simpl.
  rewrite insert_insert_eq, delete_insert_id by done.
  by destruct st.
Qed.

End AttachProofs.

Section GroupProofs2.
Context {cfg : odp_config}.

Ltac grp_lia :=
  unfold grp_named, _ODP_SCHED_GROUP_NAMED, ODP_SCHED_GROUP_CONTROL in *; lia.

(** No operation accepts a free slot. *)
Lemma group_ops_free group msk s :
  grp_free group s →
  odp_schedule_group_destroy group s = Ok (-1, s)
  ∧ odp_schedule_group_join group msk s = Ok (-1, s)
  ∧ odp_schedule_group_leave group msk s = Ok (-1, s)
  ∧ odp_schedule_group_thrmask group s = Ok (-1, None).
Proof.
  intros (g & Hg & Hc).
  unfold odp_schedule_group_destroy, odp_schedule_group_join,
    odp_schedule_group_leave, odp_schedule_group_thrmask.
  destruct (decide (grp_named group)); [|done].
  rewrite Hg. simpl. rewrite Hc. done.
Qed.

Lemma group_create_loop_lowest nm msk s id s' n : ∀ i,
  grp_wf s → 0 ≤ i → i + Z.of_nat n ≤ ODP_CONFIG_SCHED_GRPS →
  group_create_loop n i nm msk s = Ok (id, s') →
  (id = ODP_SCHED_GROUP_INVALID ∧ s' = s
   ∧ ∀ j, i ≤ j < i + Z.of_nat n → ¬ grp_free j s)
  ∨ (i ≤ id < i + Z.of_nat n
     ∧ (∀ j, i ≤ j < id → ¬ grp_free j s)
     ∧ ∃ g, zget (sched_grp s) id = Some g ∧ zget (name g) 0 = Some 0
            ∧ s' = set_sched_grp
                     (zset (sched_grp s) id (created_grp g nm msk)) s).
Proof.
  induction n as [|n IH]; intros i Hwf Hi Hn; simpl.
  { intros [= <- <-]. left. split_and!; [done..|]. intros j Hj. lia. }
  destruct (grp_wf_slot s i) as (g & c & Hg & Hc & _); [done|lia|].
  rewrite Hg. simpl. rewrite Hc. simpl.
  destruct (decide (c = 0)) as [->|Hnz].
  - intros [= <- <-]. right. split_and!; [lia..| |by exists g].
    intros j Hj. lia.
  - assert (¬ grp_free i s) as Hocc.
    { intros (g' & Hg' & Hc'). congruence. }
    intros Hrec.
    apply IH in Hrec as [(-> & -> & Hall)|(Hid & Hlow & Hg')];
      [| |done|lia|lia].
    + left. split_and!; [done..|]. intros j Hj.
      destruct (decide (j = i)) as [->|]; [done | apply Hall; lia].
    + right. split_and!; [lia|lia| |done]. intros j Hj.
      destruct (decide (j = i)) as [->|]; [done | apply Hlow; lia].
Qed.

Lemma group_create_loop_free nm msk s id g n : ∀ i,
  grp_wf s → 0 ≤ i ≤ id → id < i + Z.of_nat n →
  id < ODP_CONFIG_SCHED_GRPS →
  zget (sched_grp s) id = Some g → zget (name g) 0 = Some 0 →
  (∀ j, i ≤ j < id → ¬ grp_free j s) →
  group_create_loop n i nm msk s
  = Ok (id, set_sched_grp (zset (sched_grp s) id (created_grp g nm msk)) s).
Proof.
  induction n as [|n IH]; intros i Hwf Hi Hn HG Hg Hc Hlow; [lia|].
  simpl. destruct (decide (i = id)) as [->|Hne].
  - rewrite Hg. simpl. rewrite Hc. done.
  - destruct (grp_wf_slot s i) as (gi & c & Hgi & Hci & _); [done|lia|].
    rewrite Hgi. simpl. rewrite Hci. simpl.
    rewrite decide_False; [apply IH; [done|lia..|done|done|]|].
    + intros j Hj. apply Hlow. lia.
    + intros ->. apply (Hlow i); [lia|]. by exists gi.
Qed.

Lemma group_create_lowest nm msk s id s' :
  grp_wf s →
  odp_schedule_group_create nm msk s = Ok (id, s') →
  (id = ODP_SCHED_GROUP_INVALID ∧ s' = s
   ∧ ∀ j, grp_named j → ¬ grp_free j s)
  ∨ (grp_named id
     ∧ (∀ j, _ODP_SCHED_GROUP_NAMED ≤ j < id → ¬ grp_free j s)
     ∧ ∃ g, zget (sched_grp s) id = Some g ∧ zget (name g) 0 = Some 0
            ∧ s' = set_sched_grp
                     (zset (sched_grp s) id (created_grp g nm msk)) s).
Proof.
  intros Hwf Hc. unfold odp_schedule_group_create in Hc.
  destruct (decide (_ODP_SCHED_GROUP_NAMED ≤ ODP_CONFIG_SCHED_GRPS)) as [HG|HG].
  - apply group_create_loop_lowest in Hc
      as [(-> & -> & Hall)|(Hid & Hlow & Hg)]; [| |done|by compute|grp_lia].
    + left. split_and!; [done..|]. intros j Hj. apply Hall. grp_lia.
    + right. split_and!; [grp_lia | done | done].
  - replace (Z.to_nat (ODP_CONFIG_SCHED_GRPS - _ODP_SCHED_GROUP_NAMED))
      with 0%nat in Hc by lia.
    injection Hc as <- <-. left. split_and!; [done..|]. intros j Hj. grp_lia.
Qed.

Lemma group_create_free nm msk s id g :
  grp_wf s → grp_named id →
  zget (sched_grp s) id = Some g → zget (name g) 0 = Some 0 →
  (∀ j, _ODP_SCHED_GROUP_NAMED ≤ j < id → ¬ grp_free j s) →
  odp_schedule_group_create nm msk s
  = Ok (id, set_sched_grp (zset (sched_grp s) id (created_grp g nm msk)) s).
Proof.
  intros Hwf Hn Hg Hc Hlow. unfold odp_schedule_group_create.
  apply group_create_loop_free; [done|grp_lia..|done|done|done].
Qed.

(** The slots below [id] that are not free stay so when slot [id] is
    rewritten. *)
Lemma not_free_below s id g' j :
  j < id → ¬ grp_free j s →
  ¬ grp_free j (set_sched_grp (zset (sched_grp s) id g') s).
Proof.
  intros Hj Hocc (g & Hg & Hc). simpl in Hg.
  rewrite zget_zset_ne in Hg by lia. apply Hocc. by exists g.
Qed.

(** X18: [odp_schedule_group_create] fills the lowest free named slot with
    the name, cut to the room of the buffer, and the mask; when no named
    slot is free it answers [ODP_SCHED_GROUP_INVALID] and changes
    nothing. *)
Theorem group_create_fills_lowest_free nm msk s id s' :
  grp_wf s →
  odp_schedule_group_create nm msk s = Ok (id, s') →
  (id = ODP_SCHED_GROUP_INVALID ∧ s' = s
   ∧ ∀ j, grp_named j → ¬ grp_free j s)
  ∨ (grp_named id
     ∧ (∀ j, _ODP_SCHED_GROUP_NAMED ≤ j < id → ¬ grp_free j s)
     ∧ ∃ g, zget (sched_grp s) id = Some g ∧ zget (name g) 0 = Some 0
            ∧ s' = set_sched_grp
                     (zset (sched_grp s) id (created_grp g nm msk)) s
            ∧ c_str (name (created_grp g nm msk))
              = take (Z.to_nat (ODP_SCHED_GROUP_NAME_LEN - 1)) (c_str nm)
            ∧ grp_wf s').
Proof.
  intros Hwf Hc.
  apply group_create_lowest in Hc as [?|(Hn & Hlow & g & Hg & Hc0 & ->)];
    [by left| |done].
  right. split_and!; [done..|]. exists g.
  destruct (created_name_wf s id g nm) as (Hl & Hlast & Hstored);
    [done|grp_lia|done|].
  split_and!; [done..|]. by apply grp_wf_zset.
Qed.

End GroupProofs2.

Section GroupProofs3.
Context {cfg : odp_config}.

Ltac grp_lia :=
  unfold grp_named, _ODP_SCHED_GROUP_NAMED, ODP_SCHED_GROUP_CONTROL in *; lia.

Lemma grp_free_iff s i g :
  grp_wf s → 0 ≤ i < ODP_CONFIG_SCHED_GRPS →
  zget (sched_grp s) i = Some g →
  grp_free i s ↔ c_str (name g) = [].
Proof.
  intros Hwf Hi Hg.
  destruct (grp_wf_slot s i Hwf Hi) as (g' & c & Hg' & Hc & Hiff).
  rewrite Hg in Hg'. injection Hg' as <-. rewrite <- Hiff. split.
  - intros (g' & Hg' & Hc'). congruence.
  - intros ->. by exists g.
Qed.

Lemma created_slot_free_iff s id g nm msk :
  grp_wf s → 0 ≤ id < ODP_CONFIG_SCHED_GRPS →
  zget (sched_grp s) id = Some g →
  let s1 := set_sched_grp (zset (sched_grp s) id (created_grp g nm msk)) s in
  grp_wf s1
  ∧ zget (sched_grp s1) id = Some (created_grp g nm msk)
  ∧ (grp_free id s1
     ↔ take (Z.to_nat (ODP_SCHED_GROUP_NAME_LEN - 1)) (c_str nm) = []).
Proof.
  intros Hwf Hid Hg s1.
  destruct (created_name_wf s id g nm) as (Hl & Hlast & Hstored); [done..|].
  assert (grp_wf s1) as Hwf1 by by apply grp_wf_zset.
  assert (zget (sched_grp s1) id = Some (created_grp g nm msk)) as Hg1.
  { simpl. apply zget_zset_eq. by eapply zget_Some. }
  split_and!; [done..|].
  rewrite (grp_free_iff s1 id _ Hwf1 Hid Hg1). simpl. by rewrite Hstored.
Qed.

(** X19: a group created under the empty name is no group: its slot stays
    free, so destroy, join, leave and thrmask of the id the create answered
    fail, and the next create answers the same id. *)
Theorem empty_name_group_unusable nm msk s id s1 :
  grp_wf s → c_str nm = [] →
  odp_schedule_group_create nm msk s = Ok (id, s1) →
  id ≠ ODP_SCHED_GROUP_INVALID →
  grp_named id
  ∧ (∀ m, odp_schedule_group_destroy id s1 = Ok (-1, s1)
          ∧ odp_schedule_group_join id m s1 = Ok (-1, s1)
          ∧ odp_schedule_group_leave id m s1 = Ok (-1, s1)
          ∧ odp_schedule_group_thrmask id s1 = Ok (-1, None))
  ∧ (∀ nm' msk', ∃ s2, odp_schedule_group_create nm' msk' s1 = Ok (id, s2)).
Proof.
  intros Hwf Hnm Hc Hvalid.
  apply group_create_lowest in Hc as [(? & _)|(Hn & Hlow & g & Hg & Hc0 & ->)];
    [done| |done].
  destruct (created_slot_free_iff s id g nm msk) as (Hwf1 & Hg1 & Hfree);
    [done|grp_lia|done|].
  assert (grp_free id
            (set_sched_grp (zset (sched_grp s) id (created_grp g nm msk)) s))
    as Hf by (apply Hfree; by rewrite Hnm, take_nil).
  split_and!; [done| |].
  - intros m. by apply group_ops_free.
  - intros nm' msk'. destruct Hf as (g1 & Hg1' & Hc1). eexists.
    apply group_create_free; [done..|].
    intros j Hj. apply not_free_below; [lia|]. by apply Hlow.
Qed.

(** X20: a group created under a non-empty name answers its mask through
    [odp_schedule_group_thrmask]; [odp_schedule_group_destroy] then clears
    the slot, after which the id is no group and the next create answers it
    again. *)
Theorem group_create_destroy nm msk s id s1 :
  grp_wf s → c_str nm ≠ [] → 2 ≤ ODP_SCHED_GROUP_NAME_LEN →
  odp_schedule_group_create nm msk s = Ok (id, s1) →
  id ≠ ODP_SCHED_GROUP_INVALID →
  let s2 := set_sched_grp (zset (sched_grp s) id cleared_grp) s in
  odp_schedule_group_thrmask id s1 = Ok (0, Some msk)
  ∧ odp_schedule_group_destroy id s1 = Ok (0, s2)
  ∧ odp_schedule_group_thrmask id s2 = Ok (-1, None)
  ∧ (∀ nm' msk', ∃ s3, odp_schedule_group_create nm' msk' s2 = Ok (id, s3)).
Proof.
  intros Hwf Hnm HN Hc Hvalid s2.
  apply group_create_lowest in Hc as [(? & _)|(Hn & Hlow & g & Hg & Hc0 & ->)];
    [done| |done].
  assert (0 ≤ id < ODP_CONFIG_SCHED_GRPS) as Hid by grp_lia.
  destruct (created_slot_free_iff s id g nm msk) as (Hwf1 & Hg1 & Hfree);
    [done..|].
  set (s1 := set_sched_grp (zset _ _ (created_grp g nm msk)) s) in *.
  assert (¬ grp_free id s1) as Hocc.
  { rewrite Hfree. destruct (c_str nm) as [|c r]; [done|].
    replace (Z.to_nat (ODP_SCHED_GROUP_NAME_LEN - 1))
      with (S (Z.to_nat (ODP_SCHED_GROUP_NAME_LEN - 2))) by lia. done. }
  destruct (grp_wf_slot s1 id Hwf1 Hid) as (g1 & c & Hg1' & Hc1 & _).
  rewrite Hg1 in Hg1'. injection Hg1' as <-.
  assert (c ≠ 0) as Hcnz.
  { intros ->. apply Hocc. by eexists. }
  destruct (cleared_name_wf) as (Hl & Hlast & _); [lia|].
  assert (grp_wf s2) as Hwf2 by by apply grp_wf_zset.
  assert (zget (sched_grp s2) id = Some cleared_grp) as Hg2.
  { simpl. apply zget_zset_eq. by eapply zget_Some. }
  assert (grp_free id s2) as Hf2.
  { exists cleared_grp. split; [done|]. simpl. apply zget_replicate. lia. }
  split_and!.
  - unfold odp_schedule_group_thrmask. rewrite decide_True by done.
    rewrite Hg1. cbn [deref mbind result_bind]. rewrite Hc1.
    cbn [deref mbind result_bind]. by rewrite decide_True.
  - unfold odp_schedule_group_destroy. rewrite decide_True by done.
    rewrite Hg1. cbn [deref mbind result_bind]. rewrite Hc1.
    cbn [deref mbind result_bind]. rewrite decide_True by done.
    unfold s1, s2. simpl. by rewrite zset_zset.
  - by apply (group_ops_free id 0).
  - intros nm' msk'. destruct Hf2 as (g2 & Hg2' & Hc2). eexists.
    apply group_create_free; [done..|].
    intros j Hj. apply not_free_below; [lia|]. by apply Hlow.
Qed.

Lemma group_lookup_loop_first nm s id n : ∀ i,
  grp_wf s → 0 ≤ i → i + Z.of_nat n ≤ ODP_CONFIG_SCHED_GRPS →
  group_lookup_loop n i nm s = Ok id →
  (id = ODP_SCHED_GROUP_INVALID
   ∧ ∀ j g, i ≤ j < i + Z.of_nat n → zget (sched_grp s) j = Some g →
            c_str (name g) ≠ c_str nm)
  ∨ (i ≤ id < i + Z.of_nat n
     ∧ (∃ g, zget (sched_grp s) id = Some g ∧ c_str (name g) = c_str nm)
     ∧ ∀ j g, i ≤ j < id → zget (sched_grp s) j = Some g →
              c_str (name g) ≠ c_str nm).
Proof.
  induction n as [|n IH]; intros i Hwf Hi Hn; simpl.
  { intros [= <-]. left. split; [done|]. intros j g Hj. lia. }
  destruct (grp_wf_slot s i) as (g & c & Hg & _); [done|lia|].
  rewrite Hg. simpl. case_decide as Hcmp.
  - intros [= <-]. apply strcmp_0_iff in Hcmp. right.
    split_and!; [lia..|by exists g|]. intros j gj Hj. lia.
  - rewrite strcmp_0_iff in Hcmp. intros Hrec.
    apply IH in Hrec as [(-> & Hall)|(Hid & Hgid & Hlow)]; [| |done|lia|lia].
    + left. split; [done|]. intros j gj Hj Hgj.
      destruct (decide (j = i)) as [->|]; [|apply (Hall j); [lia|done]].
      rewrite Hg in Hgj. injection Hgj as <-. congruence.
    + right. split_and!; [lia|lia|done|]. intros j gj Hj Hgj.
      destruct (decide (j = i)) as [->|]; [|apply (Hlow j); [lia|done]].
      rewrite Hg in Hgj. injection Hgj as <-. congruence.
Qed.

Lemma group_lookup_loop_none nm s n : ∀ i,
  grp_wf s → 0 ≤ i → i + Z.of_nat n ≤ ODP_CONFIG_SCHED_GRPS →
  (∀ j g, i ≤ j < i + Z.of_nat n → zget (sched_grp s) j = Some g →
          c_str (name g) ≠ c_str nm) →
  group_lookup_loop n i nm s = Ok ODP_SCHED_GROUP_INVALID.
Proof.
  induction n as [|n IH]; intros i Hwf Hi Hn Hall; simpl; [done|].
  destruct (grp_wf_slot s i) as (g & c & Hg & _); [done|lia|].
  rewrite Hg. simpl. rewrite decide_False.
  - apply IH; [done|lia..|]. intros j gj Hj. apply Hall. lia.
  - rewrite strcmp_0_iff. intros Heq. apply (Hall i g); [lia|done|done].
Qed.

(** X21: [odp_schedule_group_lookup] answers the lowest named slot that
    carries the name, and [ODP_SCHED_GROUP_INVALID] exactly when no named
    slot carries it. *)
Theorem group_lookup_finds_first nm s id :
  grp_wf s →
  odp_schedule_group_lookup nm s = Ok id
  ↔ designates id nm s
    ∨ (id = ODP_SCHED_GROUP_INVALID ∧ grp_unnamed nm s).
Proof.
  intros Hwf. unfold odp_schedule_group_lookup. split.
  - intros Hl.
    destruct (decide (_ODP_SCHED_GROUP_NAMED ≤ ODP_CONFIG_SCHED_GRPS))
      as [HG|HG].
    + apply group_lookup_loop_first in Hl
        as [(-> & Hall)|(Hid & Hgid & Hlow)]; [| |done|by compute|grp_lia].
      * right. split; [done|]. intros j g Hj. apply Hall. grp_lia.
      * left. split_and!; [done|grp_lia|done|]. intros j g Hj. by apply Hlow.
    + replace (Z.to_nat (ODP_CONFIG_SCHED_GRPS - _ODP_SCHED_GROUP_NAMED))
        with 0%nat in Hl by lia.
      injection Hl as <-. right. split; [done|]. intros j g Hj. grp_lia.
  - intros [Hd|(-> & Hall)]; [by apply designates_lookup|].
    destruct (decide (_ODP_SCHED_GROUP_NAMED ≤ ODP_CONFIG_SCHED_GRPS))
      as [HG|HG].
    + apply group_lookup_loop_none; [done|by compute|grp_lia|].
      intros j g Hj. apply Hall. grp_lia.
    + by replace (Z.to_nat (ODP_CONFIG_SCHED_GRPS - _ODP_SCHED_GROUP_NAMED))
        with 0%nat by lia.
Qed.

(** X22: a lookup of the empty name that answers an id answers a free slot,
    on which destroy, join, leave and thrmask fail. *)
Theorem group_lookup_empty_name nm s id :
  grp_wf s → c_str nm = [] →
  odp_schedule_group_lookup nm s = Ok id →
  id ≠ ODP_SCHED_GROUP_INVALID →
  grp_named id ∧ grp_free id s
  ∧ (∀ m, odp_schedule_group_destroy id s = Ok (-1, s)
          ∧ odp_schedule_group_join id m s = Ok (-1, s)
          ∧ odp_schedule_group_leave id m s = Ok (-1, s)
          ∧ odp_schedule_group_thrmask id s = Ok (-1, None)).
Proof.
  intros Hwf Hnm Hl Hvalid. unfold odp_schedule_group_lookup in Hl.
  destruct (decide (_ODP_SCHED_GROUP_NAMED ≤ ODP_CONFIG_SCHED_GRPS)) as [HG|HG];
    [|replace (Z.to_nat (ODP_CONFIG_SCHED_GRPS - _ODP_SCHED_GROUP_NAMED))
        with 0%nat in Hl by lia; by injection Hl as <-].
  apply group_lookup_loop_first in Hl
    as [(-> & _)|(Hid & (g & Hg & Hname) & _)];
    [done| |done|by compute|grp_lia].
  assert (grp_free id s) as Hf.
  { apply (grp_free_iff s id g); [done|grp_lia|done|congruence]. }
  split_and!; [grp_lia|done|]. intros m. by apply group_ops_free.
Qed.

End GroupProofs3.

Section TurnProofs.
Context {cfg : odp_config} {ext : odp_externals}.

Lemma set_q_events_id qe : set_q_events (q_events qe) qe = qe.
Proof. by destruct qe. Qed.

Lemma set_l_buf_hdr_id l : set_l_buf_hdr (l_buf_hdr l) l = l.
Proof. by destruct l. Qed.

Lemma set_queues_id st : set_queues (queues st) st = st.
Proof. by destruct st. Qed.

(** X23: the turn of the lane walk on the command of an empty queue the
    thread is eligible for takes the command off its lane and keeps it off:
    the queue is out of scheduling, with its command buffer intact, and the
    walk goes on; [schedule_queue] on the entry then puts the command at the
    tail of the lane it was on, and changes neither the fabric, the queues,
    the command buffers, nor any field of the thread context other than the
    [ignore_ordered_context] mark. *)
Theorem empty_queue_sleeps_until_schedule_queue n thr i id out_queue_p
    max_num max_deq log st m pri_q ev rest q qe :
  let id' := if decide (id >= QUEUES_PER_PRIO) then 0 else id in
  let md := if queue_is_ordered qe then 1 else max_deq in
  let st1 := set_lanes (<[pri_q := rest]> (lanes st)) st in
  zget (pri_mask (sched st)) i = Some m →
  Z.land m (Z.shiftl 1 id') ≠ 0 →
  zget2 (pri_queue (sched st)) i id' = Some pri_q →
  lanes st !! pri_q = Some (ev :: rest) →
  cmds st !! ev = Some (SCHED_CMD_DEQUEUE q) →
  queues st !! q = Some qe →
  not_eligible thr (q_group qe) (sched st) = Ok false →
  q_events qe = [] → q_destroyed qe = false →
  q_pri_queue qe = Some pri_q → q_cmd_ev qe = Some ev →
  lane_loop (S n) thr i id out_queue_p max_num max_deq log st
  = lane_loop n thr i (id' + 1) out_queue_p max_num md (log ++ [(qe, md)])
      st1
  ∧ cmds st1 !! ev = Some (SCHED_CMD_DEQUEUE q)
  ∧ ∃ st2,
      schedule_queue q st1 = Ok (0, st2)
      ∧ lanes st2 = <[pri_q := rest ++ [ev]]> (lanes st)
      ∧ sched st2 = sched st ∧ queues st2 = queues st
      ∧ cmds st2 = cmds st
      ∧ set_l_ignore_ordered_context 0 (sched_local st2)
        = set_l_ignore_ordered_context 0 (sched_local st).
Proof.
  intros id' md st1 Hm Hbit Hpq Hlane Hcmd Hqe Hel Hev Hd Htq Htev.
  split_and!; [|done|].
  - cbn [lane_loop]. fold id'. rewrite Hm. cbn [deref mbind result_bind].
    rewrite decide_False by done. rewrite Hpq. cbn [deref mbind result_bind].
    unfold odp_queue_deq. rewrite Hlane. fold st1.
    unfold odp_buffer_addr. simpl cmds. rewrite Hcmd.
    cbn [deref mbind result_bind]. simpl queues. rewrite Hqe.
    cbn [deref mbind result_bind]. simpl sched. rewrite Hel.
    cbn [deref mbind result_bind]. fold md.
    assert (set_q_events [] qe = qe) as Hqe'
      by (rewrite <- Hev; apply set_q_events_id).
    unfold queue_deq_multi. rewrite Hd, Hev, take_nil, drop_nil, Hqe'.
    rewrite decide_False by (simpl; unfold MAX_DEQ; lia).
    rewrite decide_False by (simpl; lia). rewrite decide_True by done.
    simpl length. rewrite drop_0. simpl app.
    rewrite set_l_buf_hdr_id, insert_id by done.
    change (queues st) with (queues st1).
    by rewrite set_queues_id, set_sched_local_id.
  - unfold schedule_queue. simpl queues. rewrite Hqe.
    cbn [deref mbind result_bind]. rewrite Htq, Htev.
    cbn [deref mbind result_bind]. unfold odp_queue_enq. simpl.
    rewrite lookup_insert_eq. eexists. split; [done|]. simpl.
    split_and!; [apply insert_insert_eq | done..].
Qed.

End TurnProofs.

Section PktioProofs.
Context {cfg : odp_config} {ext : odp_externals}.

Lemma pri_set_pri_queue id prio s q s' :
  pri_set id prio s = Ok (q, s') → pri_queue s' = pri_queue s.
Proof.
  unfold pri_set. intros (m & _ & Hs)%bind_Ok.
  apply bind_Ok in Hs as (c & _ & Hs).
  apply bind_Ok in Hs as (q' & _ & [= <- <-]). done.
Qed.

Lemma pri_bit_true s prio id :
  pri_bit s prio id = Some true →
  ∃ m, zget (pri_mask s) prio = Some m ∧ Z.land m (Z.shiftl 1 id) ≠ 0.
Proof.
  unfold pri_bit. destruct (zget (pri_mask s) prio) as [m|]; [|done].
  simpl. intros [= Hb%bool_decide_eq_true]. eauto.
Qed.

(** X24: [schedule_pktio_start] puts the poll command of the port on the
    lane of the port and marks the lane. The turn of the lane walk that
    finds the command polls the port: when the driver answers non-zero the
    turn undoes the start (the command buffer is freed and the lane count
    taken back), and otherwise it puts the command back on the lane. *)
Theorem pktio_start_then_poll b pktio pe prio st pq stop :
  let id := pri_id_pktio pktio in
  fabric_wf (sched st) → mask_u8 (sched st) →
  0 ≤ prio < ODP_CONFIG_SCHED_PRIOS →
  count_below_max id prio (sched st) →
  cmds st !! b = None →
  zget2 (pri_queue (sched st)) prio id = Some pq →
  lanes st !! pq = Some [] →
  (∀ st0, pktin_poll pe st0 = (stop, st0)) →
  ∃ st1,
    schedule_pktio_start (Some b) pktio pe prio st = Ok (0, st1)
    ∧ lanes st1 !! pq = Some [b]
    ∧ cmds st1 !! b = Some (SCHED_CMD_POLL_PKTIN pktio pe prio)
    ∧ pri_bit (sched st1) prio id = Some true
    ∧ ∀ n thr out_queue_p max_num max_deq log,
        lane_loop (S n) thr prio id out_queue_p max_num max_deq log st1
        = lane_loop n thr prio (id + 1) out_queue_p max_num max_deq log
            (if decide (stop ≠ 0) then st else st1).
Proof.
  intros id Hwf Hu8 Hp Hmax Hb Hpq Hlane Hpoll.
  pose proof (pri_id_pktio_range pktio) as Hid. fold id in Hid.
  destruct (pri_set_marks (sched st) id prio)
    as (pq' & s' & Hset & Hpq' & Hwf' & Hbit); [done..|].
  rewrite Hpq in Hpq'. injection Hpq' as <-.
  pose proof (pri_set_clr _ _ _ _ _ Hwf Hu8 (conj Hp Hid) Hmax Hset) as Hclr.
  pose proof (pri_set_pri_queue _ _ _ _ _ Hset) as Hpqs.
  unfold schedule_pktio_start, pri_set_pktio. fold id. simpl sched.
  rewrite Hset. cbn [mbind result_bind].
  unfold odp_queue_enq at 1. simpl lanes. rewrite Hlane.
  rewrite decide_False by lia. eexists. split; [done|]. simpl.
  rewrite !lookup_insert_eq. split_and!; [done..|].
  intros n thr out_queue_p max_num max_deq log.
  apply pri_bit_true in Hbit as (m & Hm & Hnz).
  cbn [lane_loop]. rewrite (decide_False (P := id >= QUEUES_PER_PRIO)) by lia.
  simpl sched. rewrite Hm. cbn [deref mbind result_bind].
  rewrite decide_False by done. rewrite Hpqs, Hpq.
  cbn [deref mbind result_bind].
  unfold odp_queue_deq. simpl lanes. rewrite lookup_insert_eq.
  unfold odp_buffer_addr. simpl cmds. rewrite lookup_insert_eq.
  cbn [deref mbind result_bind]. rewrite Hpoll.
  destruct (decide (stop ≠ 0)) as [Hs|Hs].
  - unfold pri_clr_pktio. fold id. simpl sched. rewrite Hclr.
    cbn [mbind result_bind]. f_equal.
    unfold odp_buffer_free, set_sched, set_lanes, set_cmds. simpl.
    rewrite insert_insert_eq, delete_insert_id, insert_id by done.
    by destruct st.
  - unfold odp_queue_enq. simpl lanes. rewrite lookup_insert_eq.
    rewrite decide_False by lia. f_equal.
    unfold set_lanes. simpl. by rewrite !insert_insert_eq.
Qed.

End PktioProofs.

Section MembershipProofs.
Context {cfg : odp_config} {ext : odp_externals}.

Ltac grp_lia :=
  unfold grp_named, _ODP_SCHED_GROUP_NAMED, ODP_SCHED_GROUP_CONTROL,
    ODP_SCHED_GROUP_ALL in *; lia.

Lemma not_eligible_mask thr group s g :
  grp_named group → zget (sched_grp s) group = Some g →
  not_eligible thr group s = Ok (negb (Z.testbit (mask g) thr)).
Proof.
  intros Hn Hg. unfold not_eligible. rewrite decide_True by grp_lia.
  rewrite Hg. done.
Qed.

(** X25: membership of a named group decides what the dispatcher checks: a
    thread of the mask given to [odp_schedule_group_join] is eligible for
    the queues of the group afterwards, a thread of the mask given to
    [odp_schedule_group_leave] is not, and the other threads are as
    before. *)
Theorem group_membership_decides_eligibility group m s thr :
  grp_occupied group s → 0 ≤ thr < ODP_CONFIG_MAX_THREADS →
  ∃ g s1 s2,
    zget (sched_grp s) group = Some g
    ∧ odp_schedule_group_join group m s = Ok (0, s1)
    ∧ odp_schedule_group_leave group m s = Ok (0, s2)
    ∧ not_eligible thr group s1
      = Ok (negb (Z.testbit (mask g) thr || Z.testbit m thr))
    ∧ not_eligible thr group s2
      = Ok (negb (Z.testbit (mask g) thr && negb (Z.testbit m thr))).
Proof.
  intros (Hn & g & c & Hg & Hc & Hnz) Hthr.
  pose proof (zget_Some _ _ _ Hg) as Hlen.
  unfold odp_schedule_group_join, odp_schedule_group_leave.
  rewrite !decide_True by done. rewrite Hg. cbn [deref mbind result_bind].
  rewrite Hc. cbn [deref mbind result_bind]. rewrite !decide_True by done.
  eexists g, _, _. split_and!; [done..| |].
  - erewrite not_eligible_mask; [|done|by apply zget_zset_eq]. simpl.
    unfold odp_thrmask_or. by rewrite Z.lor_spec.
  - erewrite not_eligible_mask; [|done|by apply zget_zset_eq]. simpl.
    unfold odp_thrmask_and, odp_thrmask_xor, sched_mask_all.
    rewrite Z.land_spec, Z.lxor_spec, setall_bits by lia.
    rewrite bool_decide_true by lia. by rewrite xorb_true_r.
Qed.

End MembershipProofs.

Section PriorityProofs.
Context {cfg : odp_config} {ext : odp_externals}.

Lemma prio_loop_skip thr out_queue_p max_num max_deq log st k : ∀ n i,
  (∀ j, i ≤ j < i + Z.of_nat k → zget (pri_mask (sched st)) j = Some 0) →
  prio_loop (k + n) thr i out_queue_p max_num max_deq log st
  = prio_loop n thr (i + Z.of_nat k) out_queue_p max_num max_deq log st.
Proof.
  induction k as [|k IH]; intros n i Hz.
  { simpl. by rewrite Z.add_0_r. }
  change (S k + n)%nat with (S (k + n)). cbn [prio_loop].
  rewrite Hz by lia. cbn [deref mbind result_bind].
  rewrite decide_True by done. rewrite IH; [f_equal; lia|].
  intros j Hj. apply Hz. lia.
Qed.

(** X26: [schedule] serves the first priority whose mask is not zero: with an
    empty cache, no context held and no pause, when the masks of the
    priorities below [i] are zero and the walk over the lanes of priority
    [i], started at lane [thr & (QUEUES_PER_PRIO-1)], finds a batch, the call
    returns that batch, whatever the priorities above [i] hold. *)
Theorem schedule_serves_first_marked_priority thr out_queue_p max_num
    max_deq st i m o st' :
  no_context (sched_local st) → l_pause (sched_local st) = 0 →
  0 ≤ i < ODP_CONFIG_SCHED_PRIOS →
  (∀ j, 0 ≤ j < i → zget (pri_mask (sched st)) j = Some 0) →
  zget (pri_mask (sched st)) i = Some m → m ≠ 0 →
  lane_loop (Z.to_nat QUEUES_PER_PRIO) thr i
    (Z.land thr (QUEUES_PER_PRIO - 1)) out_queue_p max_num max_deq [] st
  = Ok (Found o st') →
  schedule thr out_queue_p max_num max_deq st = Ok (o, st').
Proof.
  intros (Hnum & Hpq & Hor) Hp Hi Hz Hm Hnz Hlane. unfold schedule.
  rewrite decide_False by lia.
  unfold odp_schedule_release_context, odp_schedule_release_atomic.
  rewrite Hor, Hpq. cbn [mbind result_bind]. rewrite decide_False by lia.
  replace (Z.to_nat ODP_CONFIG_SCHED_PRIOS)
    with (Z.to_nat i + S (Z.to_nat (ODP_CONFIG_SCHED_PRIOS - i - 1)))%nat
    by lia.
  rewrite prio_loop_skip by (intros j Hj; apply Hz; lia).
  cbn [prio_loop]. rewrite Z2Nat.id, Z.add_0_l by lia. rewrite Hm.
  cbn [deref mbind result_bind]. rewrite decide_False by done.
  rewrite Hlane. done.
Qed.

End PriorityProofs.

Section RangeProofs.
Context {cfg : odp_config} {ext : odp_externals}.

Lemma zget_out_of_range {A} (l : list A) i :
  ¬ 0 ≤ i < Z.of_nat (length l) → zget l i = None.
Proof.
  intros Hi. unfold zget. case_decide; [|done].
  apply lookup_ge_None. lia.
Qed.

(** X27: the attach functions index the fabric with the priority as it is
    given: for a priority outside [0, odp_schedule_num_prio()) the first
    access, the one to [pri_mask], is outside of the array. *)
Theorem priority_out_of_range_is_undefined b qe e pktio pe prio st :
  length (pri_mask (sched st)) = Z.to_nat odp_schedule_num_prio →
  queues st !! qe = Some e →
  ¬ 0 ≤ q_prio e < odp_schedule_num_prio →
  ¬ 0 ≤ prio < odp_schedule_num_prio →
  schedule_queue_init (Some b) qe st = Fault UNDEFINED
  ∧ schedule_pktio_start (Some b) pktio pe prio st = Fault UNDEFINED.
Proof.
  intros Hlen He Hq Hp. unfold odp_schedule_num_prio in *.
  unfold schedule_queue_init, schedule_pktio_start, pri_set_queue,
    pri_set_pktio, pri_set.
  rewrite He. cbn [deref mbind result_bind]. simpl sched.
  rewrite !zget_out_of_range by lia. done.
Qed.

End RangeProofs.

Section InitProofs.
Context {cfg : odp_config} {ext : odp_externals}.

Ltac grp_lia :=
  unfold grp_named, _ODP_SCHED_GROUP_NAMED, ODP_SCHED_GROUP_CONTROL,
    ODP_SCHED_GROUP_ALL in *; lia.

Lemma sched_init_slot pri_q tm i :
  0 ≤ i < ODP_CONFIG_SCHED_GRPS →
  zget (sched_grp (sched_init pri_q tm)) i
  = Some {| name := replicate (Z.to_nat ODP_SCHED_GROUP_NAME_LEN) 0;
            mask := tm i |}.
Proof. intros Hi. simpl. by rewrite zget_fmap_seqZ. Qed.

Lemma sched_init_mask_u8 pri_q tm : mask_u8 (sched_init pri_q tm).
Proof. unfold mask_u8. simpl. apply Forall_replicate. lia. Qed.

(** X28: the state [odp_schedule_init_global] leaves has a well formed
    fabric with nothing attached and a group table without groups: every
    lookup of a non-empty name answers [ODP_SCHED_GROUP_INVALID], the
    operations on a group id fail, and the first create answers the first
    named slot. *)
Theorem init_global_leaves_no_group pri_q tm :
  1 ≤ ODP_SCHED_GROUP_NAME_LEN →
  _ODP_SCHED_GROUP_NAMED < ODP_CONFIG_SCHED_GRPS →
  let s := sched_init pri_q tm in
  fabric_wf s ∧ mask_u8 s ∧ grp_wf s
  ∧ (∀ prio id, lane_ok id prio → pri_bit s prio id = Some false)
  ∧ (∀ nm, c_str nm ≠ [] →
           odp_schedule_group_lookup nm s = Ok ODP_SCHED_GROUP_INVALID)
  ∧ (∀ group m, odp_schedule_group_destroy group s = Ok (-1, s)
                ∧ odp_schedule_group_join group m s = Ok (-1, s)
                ∧ odp_schedule_group_leave group m s = Ok (-1, s)
                ∧ odp_schedule_group_thrmask group s = Ok (-1, None))
  ∧ (∀ nm msk, ∃ s', odp_schedule_group_create nm msk s
                     = Ok (_ODP_SCHED_GROUP_NAMED, s')).
Proof.
  intros HN HG s.
  assert (grp_wf s) as Hwf by by apply sched_init_grp_wf.
  assert (∀ i, 0 ≤ i < ODP_CONFIG_SCHED_GRPS → grp_free i s) as Hfree.
  { intros i Hi. eexists. split; [by apply sched_init_slot|].
    simpl. apply zget_replicate. lia. }
  split_and!; [apply sched_init_wf | apply sched_init_mask_u8 | done | ..].
  - intros prio id [Hp Hi]. unfold pri_bit. simpl.
    rewrite zget_replicate by lia. done.
  - intros nm Hnm. unfold odp_schedule_group_lookup.
    apply group_lookup_loop_none; [done|by compute|grp_lia|].
    intros j g Hj Hg. unfold s in Hg. rewrite sched_init_slot in Hg by grp_lia.
    injection Hg as <-. simpl.
    destruct (cleared_name_wf HN) as (_ & _ & ->). done.
  - intros group m. destruct (decide (grp_named group)) as [Hn|Hn].
    + apply group_ops_free, Hfree. grp_lia.
    + unfold odp_schedule_group_destroy, odp_schedule_group_join,
        odp_schedule_group_leave, odp_schedule_group_thrmask.
      by rewrite !decide_False by done.
  - intros nm msk. destruct (Hfree _ODP_SCHED_GROUP_NAMED) as (g & Hg & Hc);
      [grp_lia|].
    eexists. apply group_create_free; [done|grp_lia|done|done|].
    intros j Hj. lia.
Qed.

End InitProofs.

Section TermProofs.
Context {cfg : odp_config} {ext : odp_externals} {tx : odp_term_externals}.

(** What the drain of a lane does when no queue on it was destroyed. *)
Lemma term_drain_spec pri_q l : ∀ st,
  lanes st !! pri_q = Some l → NoDup l → drainable l st →
  ∃ st',
    term_drain (length l) pri_q st = Ok st'
    ∧ lanes st' = <[pri_q := []]> (lanes st)
    ∧ sched st' = sched st ∧ sched_local st' = sched_local st
    ∧ (∀ ev, cmds st' !! ev = cmds_after_drain l st ev)
    ∧ (∀ q qe, queues st !! q = Some qe →
               ∃ qe', queues st' !! q = Some qe'
                      ∧ q_destroyed qe' = q_destroyed qe
                      ∧ q_events qe' `suffix_of` q_events qe).
Proof.
  induction l as [|ev l IH]; intros st Hlane Hnd Hdr.
  { exists st. simpl. unfold odp_queue_deq. rewrite Hlane.
    split_and!; [done | by rewrite insert_id | done | done | |].
    - intros ev. unfold cmds_after_drain.
      destruct (cmds st !! ev) as [[?|? ? ?]|]; [done| |done].
      rewrite decide_False; [done|]. apply not_elem_of_nil.
    - intros q qe Hq. by exists qe. }
  apply NoDup_cons in Hnd as [Hnin Hnd].
  apply Forall_cons in Hdr as [Hev Hdr].
  cbn [term_drain length]. unfold odp_queue_deq. rewrite Hlane.
  set (st1 := set_lanes (<[pri_q := l]> (lanes st)) st).
  unfold odp_buffer_addr. simpl cmds.
  destruct (cmds st !! ev) as [[q|pktio pe prio]|] eqn:Hcmd; [| |done].
  - destruct (queues st !! q) as [qe|] eqn:Hqe; [|done].
    cbn [deref mbind result_bind]. simpl queues. rewrite Hqe.
    cbn [deref mbind result_bind]. unfold queue_deq_multi. rewrite Hev.
    rewrite decide_False by lia.
    set (qe' := set_q_events (drop (Z.to_nat 1) (q_events qe)) qe).
    set (st2 := set_queues (<[q := qe']> (queues st1)) st1).
    destruct (IH st2) as (st' & Hd & Hl & Hs & Hloc & Hc & Hq).
    { simpl. apply lookup_insert_eq. }
    { done. }
    { eapply Forall_impl; [exact Hdr|]. intros e. simpl.
      destruct (cmds st !! e) as [[q0|? ? ?]|]; [|done|done].
      destruct (decide (q = q0)) as [<-|Hne].
      - rewrite lookup_insert_eq, Hqe. done.
      - by rewrite lookup_insert_ne. }
    exists st'. split; [exact Hd|]. split_and!.
    + rewrite Hl. simpl. apply insert_insert_eq.
    + by rewrite Hs.
    + by rewrite Hloc.
    + intros e. rewrite Hc. unfold cmds_after_drain. simpl.
      destruct (cmds st !! e) as [[?|? ? ?]|] eqn:He; [done| |done].
      assert (e ≠ ev) by congruence.
      destruct (decide (e ∈ l)); [by rewrite decide_True by by right|].
      rewrite decide_False; [done|]. rewrite elem_of_cons. tauto.
    + intros q0 qe0 Hq0. destruct (decide (q = q0)) as [<-|Hne].
      * rewrite Hqe in Hq0. injection Hq0 as <-.
        destruct (Hq q qe') as (qe'' & Hq'' & Hd'' & Hsuf);
          [simpl; apply lookup_insert_eq|].
        exists qe''. split_and!; [done..|].
        etrans; [exact Hsuf|]. simpl. apply suffix_drop.
      * apply Hq. simpl. by rewrite lookup_insert_ne.
  - cbn [deref mbind result_bind].
    set (st2 := odp_buffer_free ev st1).
    destruct (IH st2) as (st' & Hd & Hl & Hs & Hloc & Hc & Hq).
    { simpl. apply lookup_insert_eq. }
    { done. }
    { rewrite Forall_forall in Hdr. apply Forall_forall. intros e He.
      simpl. rewrite lookup_delete_ne by (intros ->; done).
      by apply Hdr. }
    exists st'. split; [exact Hd|]. split_and!.
    + rewrite Hl. simpl. apply insert_insert_eq.
    + by rewrite Hs.
    + by rewrite Hloc.
    + intros e. rewrite Hc. unfold cmds_after_drain. simpl.
      destruct (decide (e = ev)) as [->|Hne].
      * rewrite lookup_delete_eq, Hcmd. by rewrite decide_True by by left.
      * rewrite lookup_delete_ne by done.
        destruct (cmds st !! e) as [[?|? ? ?]|] eqn:He; [done| |done].
        destruct (decide (e ∈ l)); [by rewrite decide_True by by right|].
        rewrite decide_False; [done|]. rewrite elem_of_cons. tauto.
    + intros q0 qe0 Hq0. by apply Hq.
Qed.

(** X29: the loop of [odp_schedule_term_global] that empties a lane takes
    every command off the lane in as many turns as the lane holds commands:
    it frees the buffer of a POLL_PKTIN command, keeps the buffer of a
    DEQUEUE command, asks the queue of a DEQUEUE command for one event and
    drops it, and touches neither the fabric nor the thread context. *)
Theorem term_drain_empties_lane pri_q l st :
  lanes st !! pri_q = Some l → NoDup l → drainable l st →
  ∃ st',
    term_drain (length l) pri_q st = Ok st'
    ∧ lanes st' = <[pri_q := []]> (lanes st)
    ∧ sched st' = sched st ∧ sched_local st' = sched_local st
    ∧ (∀ ev, cmds st' !! ev = cmds_after_drain l st ev)
    ∧ (∀ q qe, queues st !! q = Some qe →
               ∃ qe', queues st' !! q = Some qe'
                      ∧ q_destroyed qe' = q_destroyed qe
                      ∧ q_events qe' `suffix_of` q_events qe).
Proof. apply term_drain_spec. Qed.





End TermProofs.

(** ** Examples *)

(** The claims at concrete inputs, in the linux-generic configuration. *)

(** Closes a goal that evaluates to a conjunction of trivial facts. *)
Ltac vm_done :=
  vm_compute;
  repeat split;
  first [reflexivity | discriminate | (intros; discriminate)
        | (intros; reflexivity)].

Section Examples.
#[local] Existing Instance linux_generic.
#[local] Existing Instance example_ext0.

(** C2: [odp_schedule_release_context] does not behave as
    [odp_schedule_release_ordered] when [release_order] fails. With an
    ordered context on queue entry 7 and a [release_order] that answers -1,
    [odp_schedule_release_ordered] leaves the ordered context in place, and
    [odp_schedule_release_context] clears [origin_qe] all the same. *)
Theorem release_context_drops_failed_release :
  let ext := example_ext (-1) example_clock in
  let st := example_ordered_ctx in
  l_origin_qe (sched_local st) = Some 7
  ∧ release_order 7 (l_order (sched_local st)) (l_pool (sched_local st))
      (l_enq_called (sched_local st)) st = (-1, st)
  ∧ odp_schedule_release_ordered st = st
  ∧ ∃ st', odp_schedule_release_context st = Ok st'
           ∧ l_origin_qe (sched_local st') = None.
Proof.
  intros ext st. split; [vm_done|]. split; [done|]. split.
  - by apply (release_ordered_failure st 7 (-1)).
  - by apply (release_context_clears st 7).
Qed.

(** The thread waits for two spins of the other threads, enters, and its
    unlock moves the counter from 2 to 3; lock index 1 is not a lock of the
    queue. *)
Lemma ordered_lock_unlock_witness :
  let st := example_waiting in
  let st1 := spins 2 0 st in
  odp_schedule_order_lock 5 0 st = Ok st1
  ∧ load_sync_out 7 0 st1 = Ok 2
  ∧ (∃ st2, odp_schedule_order_unlock 0 st1 = Ok st2
            ∧ load_sync_out 7 0 st2 = Ok 3)
  ∧ odp_schedule_order_lock 5 1 st = Ok st.
Proof.
  intros st st1.
  destruct (ordered_lock_unlock st 0) as (Hsound & Hreturns & _ & _).
  destruct (ordered_lock_unlock st1 0) as (_ & _ & Hunlock & _).
  destruct (ordered_lock_unlock st 1) as (_ & _ & _ & Hnoop).
  set (e := set_q_token (Some 102) (Some 50)
              (example_queue SYNC_ORDERED 0 [])).
  set (e1 := set_q_sync_out [2] e).
  assert (ordered_lock_index st 7 e 0) as Hctx
    by (unfold ordered_lock_index; split_and!; vm_done).
  assert (ordered_lock_index st1 7 e1 0) as Hctx1
    by (unfold ordered_lock_index; split_and!; vm_done).
  assert (odp_schedule_order_lock 5 0 st = Ok st1) as Hlock.
  { apply (Hreturns 7 e 2 0 2%nat 5%nat); [done|vm_done| | | | |lia].
    - done.
    - lia.
    - intros [|[|m]] Hm; [exists 0|exists 1|lia]; vm_done.
    - vm_done. }
  split; [done|]. split.
  { by apply (Hsound 7 e 2 5%nat st1). }
  split.
  - destruct (Hunlock 7 e1 2) as (st2 & Hun & Hload & _);
      [exact Hctx1|reflexivity|vm_done|vm_done|].
    exists st2. by split.
  - apply (Hnoop 5%nat). right. exists 7, e. destruct Hctx as (? & ? & ?).
    split_and!; [done..|]. vm_done.
Defined.

(** C3 (as stated) fails: an unlock that finds the counter at 2^64 - 1
    leaves 0 in it, which is not strictly greater. *)
Lemma order_unlock_wraps_counter :
  let st := example_last_ticket in
  (∃ e, ordered_lock_index st 7 e 0)
  ∧ zget (l_sync (sched_local st)) 0 = Some UINT64_MAX
  ∧ load_sync_out 7 0 st = Ok UINT64_MAX
  ∧ ∃ st', odp_schedule_order_unlock 0 st = Ok st'
           ∧ load_sync_out 7 0 st' = Ok 0
           ∧ ¬ 0 > UINT64_MAX.
Proof.
  intros st. split_and!.
  - eexists. unfold ordered_lock_index.
    split_and!; [vm_done|vm_compute; reflexivity|done..].
  - vm_done.
  - vm_done.
  - eexists. split_and!; [vm_done| vm_done|]. vm_done.
Qed.

(** Thread 1 joins group 3, whose only member is thread 0, and leaves it
    again: the mask is as before. *)
Lemma group_join_leave_witness :
  ∃ s1 s2, odp_schedule_group_join 3 2 example_group = Ok (0, s1)
           ∧ odp_schedule_group_leave 3 2 s1 = Ok (0, s2)
           ∧ s2 = example_group.
Proof.
  set (g := {| name := 103 :: replicate 31 0; mask := 1 |}).
  eexists. 
  assert (odp_schedule_group_join 3 2 example_group
          = Ok (0, set_sched_grp
                     (zset (sched_grp example_group) 3 (set_mask 3 g))
                     example_group)) as Hjoin by vm_done.
  destruct (group_join_leave 3 2 example_group g _
              ltac:(vm_done) ltac:(vm_done) ltac:(vm_done)
              Hjoin) as (s2 & Hleave & _ & Hiff).
  exists s2. split_and!; [exact Hjoin|exact Hleave|]. by apply Hiff.
Defined.

(** C4 (as stated) fails: thread 0 is a member of group 3; after it joins
    and leaves, the group is empty. *)
Lemma group_join_leave_drops_member :
  ∃ s1 s2, odp_schedule_group_thrmask 3 example_group = Ok (0, Some 1)
           ∧ odp_schedule_group_join 3 1 example_group = Ok (0, s1)
           ∧ odp_schedule_group_leave 3 1 s1 = Ok (0, s2)
           ∧ odp_schedule_group_thrmask 3 s2 = Ok (0, Some 0).
Proof.
  do 2 eexists. split_and!; [vm_done|vm_compute; reflexivity..].
Qed.

(** A group created as "g" is found under that name after a create of "h",
    a join, a destroy of "h" and a leave. *)
Lemma group_lookup_after_create_witness :
  let ops := [GRP_CREATE [104] 2; GRP_JOIN 3 2; GRP_DESTROY 4;
              GRP_LEAVE 3 1] in
  ∃ s1 s2, odp_schedule_group_create [103] 1 example_sched = Ok (3, s1)
           ∧ group_run ops s1 = Ok s2
           ∧ odp_schedule_group_lookup [103] s2 = Ok 3.
Proof.
  intros ops. eexists.
  assert (odp_schedule_group_create [103] 1 example_sched
          = Ok (3, example_group)) as Hcreate by vm_done.
  destruct (group_lookup_after_create [103] 1 example_sched 3 example_group
              ops) as (s2 & Hrun & Hlookup).
  - apply sched_init_grp_wf. vm_done.
  - vm_done.
  - vm_done.
  - intros j g Hj. unfold _ODP_SCHED_GROUP_NAMED, ODP_SCHED_GROUP_CONTROL in Hj.
    lia.
  - exact Hcreate.
  - vm_done.
  - subst ops. repeat constructor; vm_done.
  - exists s2. by split_and!.
Defined.

(** C5 (as stated) fails in three ways: a name of 40 characters is stored cut
    to 31 and is not found; a second group created under a name in use is
    not the one the lookup returns; a create under the empty name leaves its
    slot free, so that the next create returns the same id and the empty
    name designates another slot. *)
Lemma group_lookup_misses_created_group :
  (∃ s1, odp_schedule_group_create (replicate 40 97) 1 example_sched
         = Ok (3, s1)
         ∧ odp_schedule_group_lookup (replicate 40 97) s1
           = Ok ODP_SCHED_GROUP_INVALID)
  ∧ (∃ s1 s2, odp_schedule_group_create [97] 1 example_sched = Ok (3, s1)
              ∧ odp_schedule_group_create [97] 2 s1 = Ok (4, s2)
              ∧ odp_schedule_group_lookup [97] s2 = Ok 3)
  ∧ (∃ s1 s2, odp_schedule_group_create [] 1 example_sched = Ok (3, s1)
              ∧ odp_schedule_group_create [98] 2 s1 = Ok (3, s2)
              ∧ odp_schedule_group_lookup [] s2 = Ok 4).
Proof.
  split_and!; repeat eexists; vm_compute; reflexivity.
Qed.

(** The well-known group ALL is rejected by all four operations. *)
Lemma group_ops_reject_well_known_witness :
  odp_schedule_group_destroy ODP_SCHED_GROUP_ALL example_group
  = Ok (-1, example_group)
  ∧ odp_schedule_group_join ODP_SCHED_GROUP_ALL 1 example_group
    = Ok (-1, example_group)
  ∧ odp_schedule_group_leave ODP_SCHED_GROUP_ALL 1 example_group
    = Ok (-1, example_group)
  ∧ odp_schedule_group_thrmask ODP_SCHED_GROUP_ALL example_group
    = Ok (-1, None).
Proof.
  destruct (group_ops_reject_well_known ODP_SCHED_GROUP_ALL 1 example_group)
    as (_ & Hreject & _).
  apply Hreject. vm_done.
Defined.

(** The queue of group 3 is attached to lane 2 of priority 0, and thread 0
    is the only member of the group. The turn of the lane walk of thread 1
    on that lane puts the command back and finds nothing; thread 0 is handed
    the first event, from a queue it is eligible for. *)
Lemma ineligible_thread_not_dispatched_witness :
  let st := example_grouped in
  lane_loop 1 1 0 2 true 1 MAX_DEQ [] st
  = Ok (NotFound MAX_DEQ [] (set_lanes (<[102 := [50]]> (lanes st)) st))
  ∧ ∃ o st', schedule 0 true 1 MAX_DEQ st = Ok (o, st')
             ∧ out_ev o = [11]
             ∧ served_eligible 0 st'.
Proof.
  intros st.
  destruct (ineligible_thread_not_dispatched 1 true 1 MAX_DEQ st)
    as [Hstep _].
  destruct (ineligible_thread_not_dispatched 0 true 1 MAX_DEQ st)
    as [_ Hserved].
  split.
  - rewrite (Hstep 0%nat 0 2 [] 4 102 50 [] 7
               (set_q_token (Some 102) (Some 50)
                  (example_queue SYNC_NONE 3
                     [example_hdr 11 0; example_hdr 12 1]))
               {| name := 103 :: replicate 31 0; mask := 1 |});
      vm_done.
  - do 2 eexists.
    match goal with
    | |- ?lhs = Ok (?o, ?st') ∧ _ =>
        assert (lhs = Ok (o, st')) as Hs by (vm_compute; reflexivity)
    end.
    split; [exact Hs|]. split; [vm_done|].
    apply (Hserved _ _ Hs); vm_done.
Defined.

(** C6 (as stated) fails: thread 0, a member of group 3, is handed the
    first event of the queue and caches the second; it then leaves the
    group; its next call hands it the second event, although its id is no
    longer set in the mask of the group. *)
Lemma cached_events_served_after_leave :
  ∃ o1 st1 s2 o2 st2,
    schedule 0 true 1 MAX_DEQ example_grouped = Ok (o1, st1)
    ∧ out_ev o1 = [11]
    ∧ odp_schedule_group_leave 3 1 (sched st1) = Ok (0, s2)
    ∧ odp_schedule_group_thrmask 3 s2 = Ok (0, Some 0)
    ∧ schedule 0 true 1 MAX_DEQ (set_sched s2 st1) = Ok (o2, st2)
    ∧ ret o2 = 1 ∧ out_ev o2 = [12] ∧ out_queue o2 = Some 1002
    ∧ (∃ qe, queues st2 !! 7 = Some qe
             ∧ q_handle qe = 1002 ∧ q_group qe = 3)
    ∧ ¬ served_eligible 0 st2.
Proof.
  do 5 eexists.
  split; [vm_compute; reflexivity|]. split; [vm_done|].
  split; [vm_compute; reflexivity|]. split; [vm_done|].
  split; [vm_compute; reflexivity|].
  split; [vm_done|]. split; [vm_done|]. split; [vm_done|].
  split; [eexists; split_and!; [vm_compute; reflexivity|vm_done..]|].
  intros (q & qe & Hq & Hqe & Hel). vm_compute in Hq. injection Hq as <-.
  vm_compute in Hqe. injection Hqe as <-.
  destruct Hel as [Hle|(g & Hg & Hset)]; [by vm_compute in Hle|].
  vm_compute in Hg. injection Hg as <-. by vm_compute in Hset.
Qed.

(** A call with [max_deq] 4 on an ordered queue that holds three events
    asks the queue for one event and returns one event. *)
Lemma ordered_queue_drained_one_by_one_witness :
  ∃ st o st' qe n,
    example_attached example_sched SYNC_ORDERED 0
      [example_hdr 11 0; example_hdr 12 1; example_hdr 13 2] = Ok st
    ∧ schedule 0 true 4 MAX_DEQ st = Ok (o, st')
    ∧ deq_log o = [(qe, n)]
    ∧ queue_is_ordered qe = true
    ∧ out_ev o = [11]
    ∧ n = 1.
Proof.
  do 5 eexists.
  split; [vm_compute; reflexivity|].
  match goal with
  | |- ?lhs = Ok (?o, ?st') ∧ _ =>
      assert (lhs = Ok (o, st')) as Hs by (vm_compute; reflexivity)
  end.
  split; [exact Hs|]. split; [vm_compute; reflexivity|].
  split; [vm_done|]. split; [vm_done|].
  match type of Hs with
  | schedule _ _ _ _ ?st = _ =>
      destruct (ordered_queue_drained_one_by_one 0 true 4 MAX_DEQ st)
        as [Hlog _]
  end.
  eapply (Hlog _ _ Hs).
  - vm_compute. apply list_elem_of_here.
  - vm_done.
Defined.

(** The cache holds the events 12 and 13; a call for one event returns 12
    and leaves 13 in the cache. *)
Lemma schedule_serves_cached_events_witness :
  let st := example_cached in
  ∃ l', schedule 0 true 1 MAX_DEQ st
        = Ok ({| ret := 1; out_queue := Some 1002; out_ev := [12];
                 deq_log := [] |}, set_sched_local l' st)
        ∧ l_num l' = 1 ∧ l_index l' = 2
        ∧ l_pri_queue l' = l_pri_queue (sched_local st)
        ∧ l_origin_qe l' = l_origin_qe (sched_local st).
Proof.
  intros st.
  destruct (schedule_serves_cached_events 0 true 1 MAX_DEQ st
              [example_hdr 12 1; example_hdr 13 2] 7
              (set_q_token (Some 102) (Some 50)
                 (example_queue SYNC_NONE 0 [])))
    as (l' & Hs & Hl' & Hpq & _ & Ho & _).
  - vm_done.
  - lia.
  - unfold cache_holds. split_and!; vm_done.
  - intros _. split; vm_done.
  - exists l'. split; [exact Hs|]. rewrite Hl'. vm_done.
Defined.

(** Nothing is attached and [wait] is 150 cycles: the first attempt takes
    the snapshot 1000, the second reads 1100, the third reads 1200 and
    returns 0. With [ODP_SCHED_NO_WAIT] the first attempt returns. *)
Lemma schedule_loop_wait_witness :
  let st := example_idle example_sched in
  (∃ o, schedule_loop 3 0 true 150 1 MAX_DEQ st = Ok (o, st) ∧ ret o = 0)
  ∧ schedule_loop 1 0 true ODP_SCHED_NO_WAIT 1 MAX_DEQ st
    = schedule 0 true 1 MAX_DEQ st.
Proof.
  intros st.
  destruct (schedule_loop_wait 0 true 150 1 MAX_DEQ st) as (_ & _ & Hwait).
  destruct (schedule_loop_wait 0 true ODP_SCHED_NO_WAIT 1 MAX_DEQ st)
    as (Hnowait & _ & _).
  split.
  - apply (Hwait 0%nat 1%nat 3%nat st st).
    + vm_done.
    + vm_done.
    + vm_done.
    + intros j Hj. lia.
    + vm_done.
    + vm_done.
    + intros [|j] Hj; [vm_done | lia].
    + vm_done.
    + lia.
  - apply Hnowait. vm_done.
Defined.

(** C9 (as stated) fails: the first snapshot reads 0; at the second empty
    attempt the counter reads 100, so that more than the 5 cycles of [wait]
    have elapsed since the snapshot, yet the loop does not return: it takes
    the snapshot again and returns on the third attempt only. *)
Lemma schedule_loop_snapshot_zero :
  let ext := example_ext 0 zero_clock in
  let st := example_idle example_sched in
  empty_attempts 2 0 true 1 MAX_DEQ st = Some st
  ∧ 5 < odp_time_diff_cycles (odp_time_cycles 0) (odp_time_cycles 1)
  ∧ schedule_loop 2 0 true 5 1 MAX_DEQ st = Fault NO_FUEL
  ∧ schedule_loop 3 0 true 5 1 MAX_DEQ st
    = Ok ({| ret := 0; out_queue := None; out_ev := []; deq_log := [] |}, st).
Proof. intros ext st. split_and!; vm_done. Qed.

End Examples.

(** ** Further examples *)

(** The further properties at concrete inputs, in the linux-generic
    configuration. *)

#[local] Existing Instance linux_generic.
#[local] Existing Instance example_ext0.

Lemma example_sched_wf : fabric_wf example_sched.
Proof. apply sched_init_wf. Qed.

Lemma example_sched_grp_wf : grp_wf example_sched.
Proof. apply sched_init_grp_wf. simpl. lia. Qed.

Lemma example_group_wf : grp_wf example_group.
Proof.
  change example_group
    with (set_sched_grp
            (zset (sched_grp example_sched) 3
               {| name := 103 :: replicate 31 0; mask := 1 |})
            example_sched).
  apply grp_wf_zset; [apply example_sched_grp_wf | vm_done | vm_done].
Qed.

Lemma example_lanes_empty : lanes_empty (example_idle example_sched).
Proof.
  unfold lanes_empty. eapply bool_decide_unpack. vm_compute. exact I.
Qed.

(** A call for two events on the parallel queue that holds three. *)
Lemma schedule_returns_at_most_max_num_witness :
  ∃ o st', schedule 0 true 2 MAX_DEQ example_parallel = Ok (o, st')
           ∧ ret o = 2
           ∧ ret o = Z.of_nat (length (out_ev o)) ∧ ret o ≤ 2.
Proof.
  do 2 eexists.
  match goal with
  | |- ?lhs = Ok (?o, ?st') ∧ _ =>
      assert (lhs = Ok (o, st')) as Hs by (vm_compute; reflexivity)
  end.
  split; [exact Hs|]. split; [vm_done|].
  destruct (schedule_returns_at_most_max_num 0 true 2 MAX_DEQ
              example_parallel _ _ ltac:(lia) Hs) as (H1 & H2 & _).
  exact (conj H1 H2).
Defined.

(** The same call hands out the events 11 and 12 and caches event 13. *)
Lemma dispatch_keeps_queue_order_witness :
  ∃ o st' cached,
    schedule 0 true 2 MAX_DEQ example_parallel = Ok (o, st')
    ∧ out_ev o = [11; 12]
    ∧ cache_holds (sched_local st') cached
    ∧ l_num (sched_local st') = 1.
Proof.
  eexists _, _.
  match goal with
  | |- ∃ c, ?lhs = Ok (?o, ?st') ∧ _ =>
      assert (lhs = Ok (o, st')) as Hs by (vm_compute; reflexivity)
  end.
  edestruct (dispatch_keeps_queue_order 0 true 2 MAX_DEQ example_parallel)
    as (q & qe & qe' & md & log0 & cached & _ & _ & _ & _ & Hcache & _);
    [vm_done | lia | exact Hs | vm_done |].
  exists cached. split; [exact Hs|]. split; [vm_done|].
  split; [exact Hcache | vm_done].
Defined.

(** The walk of thread 0 meets the command of the atomic queue on lane 102
    in a call for two events: the queue holds two, the command is held, and
    the release puts it back on lane 102. *)
Lemma atomic_queue_held_until_release_witness :
  let st := example_atomic in
  let qe := attached_queue SYNC_ATOMIC [example_hdr 11 0; example_hdr 12 1] in
  ∃ st',
    lane_loop 1 0 0 2 true 2 MAX_DEQ [] st
    = Ok (Found {| ret := 2; out_queue := Some 1002; out_ev := [11; 12];
                   deq_log := [(qe, MAX_DEQ)] |} st')
    ∧ lanes st' = <[102 := []]> (lanes st)
    ∧ l_pri_queue (sched_local st') = Some 102
    ∧ l_cmd_ev (sched_local st') = Some 50
    ∧ odp_schedule_release_atomic st'
      = Ok (set_sched_local (set_l_pri_queue None (sched_local st'))
              (set_lanes (<[102 := [50]]> (lanes st)) st')).
Proof.
  intros st qe.
  destruct (atomic_queue_held_until_release 0 0 0 2 true 2 MAX_DEQ [] st
              4 102 50 [] 7 qe)
    as (st' & Hrun & Hl & _ & _ & _ & Hpq & Hev & _ & Hc & _ & Hrel);
    [vm_done..|].
  destruct Hc as (_ & Hn & _).
  exists st'. exact (conj Hrun (conj Hl (conj Hpq (conj Hev (Hrel Hn))))).
Defined.

(** The walk of thread 0 meets the command of the parallel queue, and that
    of the ordered queue, on lane 102: the command is back on lane 102. *)
Lemma dispatch_requeues_command_witness :
  let evs := [example_hdr 11 0; example_hdr 12 1; example_hdr 13 2] in
  (∃ st',
     lane_loop 1 0 0 2 true 2 MAX_DEQ [] example_parallel
     = Ok (Found {| ret := 2; out_queue := Some 1002; out_ev := [11; 12];
                    deq_log := [(attached_queue SYNC_NONE evs, MAX_DEQ)] |}
             st')
     ∧ lanes st' = <[102 := [50]]> (lanes example_parallel))
  ∧ (∃ st',
       lane_loop 1 0 0 2 true 2 MAX_DEQ [] example_ordered
       = Ok (Found {| ret := 1; out_queue := Some 1002; out_ev := [11];
                      deq_log := [(attached_queue SYNC_ORDERED evs, 1)] |}
               st')
       ∧ lanes st' = <[102 := [50]]> (lanes example_ordered)).
Proof.
  intros evs. split.
  - destruct (dispatch_requeues_command 0 0 0 2 true 2 MAX_DEQ []
                example_parallel 4 102 50 [] 7
                (attached_queue SYNC_NONE evs))
      as (st' & Hrun & Hl & _); [vm_done..| |].
    { intros Hs. vm_compute in Hs. discriminate Hs. }
    exists st'. exact (conj Hrun Hl).
  - destruct (dispatch_requeues_command 0 0 0 2 true 2 MAX_DEQ []
                example_ordered 4 102 50 [] 7
                (attached_queue SYNC_ORDERED evs))
      as (st' & Hrun & Hl & _); [vm_done..| |].
    { intros _ hdr0 k Hh Hk. vm_compute in Hh. injection Hh as <-.
      change (q_lock_count _) with 1 in Hk.
      assert (k = 0) as -> by lia.
      vm_compute. split; [by eexists | done]. }
    exists st'. exact (conj Hrun Hl).
Defined.

(** A call for four events on the ordered queue that holds three returns
    event 11 alone, with its ordered context. *)
Lemma ordered_dispatch_takes_context_witness :
  ∃ o st' qe' hdr0,
    schedule 0 true 4 MAX_DEQ example_ordered = Ok (o, st')
    ∧ ret o = 1 ∧ out_ev o = [handle hdr0] ∧ handle hdr0 = 11
    ∧ l_num (sched_local st') = 0
    ∧ ordered_context_of 7 qe' hdr0 (sched_local st').
Proof.
  eexists _, _.
  match goal with
  | |- ∃ q h, ?lhs = Ok (?o, ?st') ∧ _ =>
      assert (lhs = Ok (o, st')) as Hs by (vm_compute; reflexivity)
  end.
  edestruct (ordered_dispatch_takes_context 0 true 4 MAX_DEQ example_ordered)
    as (qe & hdr0 & _ & _ & Hret & Hout & Hnum & Hctx);
    [vm_done | lia | exact Hs | vm_done | vm_compute; reflexivity
    | vm_compute; reflexivity | vm_done |].
  eexists _, hdr0. split; [exact Hs|].
  split; [exact Hret|]. split; [exact Hout|]. split.
  - vm_compute in Hout |- *. injection Hout as Hout. symmetry. exact Hout.
  - exact (conj Hnum Hctx).
Defined.

(** Nothing is attached: the call returns 0 and the state is as before. *)
Lemma schedule_nothing_queued_witness :
  schedule 3 true 1 MAX_DEQ (example_idle example_sched)
  = Ok (sched_nothing, example_idle example_sched).
Proof.
  apply schedule_nothing_queued;
    [apply example_sched_wf | apply example_lanes_empty
    | unfold no_context; vm_done].
Defined.

(** Nothing is attached: five turns of the waiting loop are not enough. *)
Lemma schedule_loop_wait_spins_witness :
  schedule_loop 5 3 true ODP_SCHED_WAIT 1 MAX_DEQ
    (example_idle example_sched)
  = Fault NO_FUEL.
Proof.
  apply schedule_loop_wait_spins;
    [apply example_sched_wf | apply example_lanes_empty
    | unfold no_context; vm_done].
Defined.

(** The waiting loop on the parallel queue returns at its first turn. *)
Lemma schedule_loop_returns_count_witness :
  ∃ o st',
    schedule_loop 3 0 true ODP_SCHED_WAIT 2 MAX_DEQ example_parallel
    = Ok (o, st')
    ∧ out_ev o = [11; 12]
    ∧ ret o = Z.of_nat (length (out_ev o)) ∧ ret o ≤ 2 ∧ ret o ≠ 0.
Proof.
  eexists _, _.
  match goal with
  | |- ?lhs = Ok (?o, ?st') ∧ _ =>
      assert (lhs = Ok (o, st')) as Hs by (vm_compute; reflexivity)
  end.
  destruct (schedule_loop_returns_count 3 0 true ODP_SCHED_WAIT 2 MAX_DEQ
              example_parallel _ _ ltac:(lia) Hs) as (H1 & H2 & H3).
  split; [exact Hs|]. split; [vm_done|].
  exact (conj H1 (conj H2 (H3 eq_refl))).
Defined.

(** [odp_schedule] with [ODP_SCHED_WAIT] on the parallel queue. *)
Lemma odp_schedule_wait_returns_event_witness :
  ∃ ev st',
    odp_schedule 3 0 true ODP_SCHED_WAIT example_parallel
    = Ok (ev, Some 1002, st')
    ∧ ev = Some 11 ∧ is_Some ev.
Proof.
  eexists _, _.
  match goal with
  | |- ?lhs = Ok (?ev, ?oq, ?st') ∧ _ =>
      assert (lhs = Ok (ev, oq, st')) as Hs by (vm_compute; reflexivity)
  end.
  split; [exact Hs|]. split; [reflexivity|].
  exact (odp_schedule_wait_returns_event 3 0 true example_parallel _ _ _ Hs).
Defined.

(** [odp_schedule_multi] for two events, without waiting. *)
Lemma odp_schedule_multi_returns_count_witness :
  ∃ o st',
    odp_schedule_multi 1 0 true ODP_SCHED_NO_WAIT 2 example_parallel
    = Ok (o, st')
    ∧ out_ev o = [11; 12]
    ∧ ret o = Z.of_nat (length (out_ev o)) ∧ 0 ≤ ret o ≤ 2.
Proof.
  eexists _, _.
  match goal with
  | |- ?lhs = Ok (?o, ?st') ∧ _ =>
      assert (lhs = Ok (o, st')) as Hs by (vm_compute; reflexivity)
  end.
  destruct (odp_schedule_multi_returns_count 1 0 true ODP_SCHED_NO_WAIT 2
              example_parallel _ _ ltac:(unfold UINT32_MAX; lia) Hs)
    as (H1 & H2 & _).
  split; [exact Hs|]. split; [vm_done|]. exact (conj H1 H2).
Defined.

(** The thread that holds the atomic queue releases it twice. *)
Lemma release_atomic_idempotent_witness :
  ∃ st',
    odp_schedule_release_atomic example_atomic_held = Ok st'
    ∧ lanes st' !! 102 = Some [50]
    ∧ odp_schedule_release_atomic st' = Ok st'
    ∧ l_pri_queue (sched_local st') = None.
Proof.
  eexists.
  match goal with
  | |- ?lhs = Ok ?st' ∧ _ =>
      assert (lhs = Ok st') as Hr by (vm_compute; reflexivity)
  end.
  destruct (release_atomic_idempotent example_atomic_held _ Hr)
    as (H1 & H2 & _).
  split; [exact Hr|]. split; [vm_done|].
  split; [exact H1 | apply H2; vm_done].
Defined.

(** Thread 0 pauses in front of the parallel queue. *)
Lemma paused_thread_gets_nothing_witness :
  let st := example_parallel in
  schedule 0 true 1 MAX_DEQ (odp_schedule_pause st)
  = Ok (sched_nothing, odp_schedule_pause st)
  ∧ odp_schedule_resume (odp_schedule_pause st) = st.
Proof.
  intros st.
  destruct (paused_thread_gets_nothing 0 true 1 MAX_DEQ st) as [H1 H2];
    [vm_done..|].
  split; [|exact H2]. rewrite H1. vm_done.
Defined.

(** A thread ends with the atomic queue held, another one with events in
    its cache. *)
Lemma term_local_needs_empty_cache_witness :
  (∃ st', odp_schedule_term_local example_atomic_held = Ok (0, st')
          ∧ lanes st' !! 102 = Some [50])
  ∧ odp_schedule_term_local example_cached = Ok (-1, example_cached).
Proof.
  destruct (term_local_needs_empty_cache example_atomic_held)
    as (_ & _ & H3).
  destruct (term_local_needs_empty_cache example_cached) as (H1 & _ & _).
  split.
  - eexists. split; [apply (H3 102 50 []); vm_done | vm_done].
  - apply H1. vm_done.
Defined.

(** Thread 0 holds the ordered context of queue 7, event order 0, and the
    mark is set. *)
Lemma get_sched_order_ignores_once_witness :
  let st := example_marked in
  let st1 := set_sched_local
               (set_l_ignore_ordered_context 0 (sched_local st)) st in
  l_origin_qe (sched_local st) = Some 7
  ∧ get_sched_order st = (None, None, st1)
  ∧ get_sched_order st1
    = (l_origin_qe (sched_local st), Some (l_order (sched_local st)), st1).
Proof.
  intros st st1. split; [vm_done|].
  apply (get_sched_order_ignores_once st). vm_done.
Defined.

(** The order of the event of thread 0 is resolved. *)
Lemma order_resolved_ends_context_witness :
  let st := example_ordered_ctx in
  ∃ st', sched_order_resolved (Some (Some 7)) st = (Some None, st')
         ∧ l_origin_qe (sched_local st) = Some 7
         ∧ odp_schedule_order_lock 5 0 st' = Ok st'
         ∧ odp_schedule_release_ordered st' = st'.
Proof.
  intros st. eexists.
  match goal with
  | |- ?lhs = (?h, ?st') ∧ _ =>
      assert (lhs = (h, st')) as Hs by reflexivity
  end.
  destruct (order_resolved_ends_context _ st _ _ Hs)
    as (Hlock & _ & Hrel & _).
  split; [exact Hs|]. split; [vm_done|]. exact (conj (Hlock _ _) Hrel).
Defined.

(** Queue handle 1002 and port handle 5 at priority 3. *)
Lemma attach_any_handle_witness :
  pri_id_queue 1002 = 2 ∧ pri_id_pktio 5 = 1
  ∧ (∃ q s', pri_set_queue 1002 3 example_sched = Ok (q, s')
             ∧ pri_bit s' 3 2 = Some true)
  ∧ (∃ q s', pri_set_pktio 5 3 example_sched = Ok (q, s')
             ∧ pri_bit s' 3 1 = Some true).
Proof.
  destruct (attach_any_handle 1002 5 3 example_sched)
    as ((_ & q1 & s1 & H1 & _ & _ & Hb1) & (_ & q2 & s2 & H2 & _ & _ & Hb2));
    [apply example_sched_wf | simpl; lia | vm_done | vm_done |].
  split; [vm_done|]. split; [vm_done|].
  split; [exists q1, s1 | exists q2, s2]; split; assumption.
Defined.

(** Queue entry 7 is attached with command buffer 50 and detached. *)
Lemma queue_attach_detach_witness :
  let e := example_queue SYNC_NONE 0 [] in
  let st := set_queues {[ 7 := e ]} (example_idle example_sched) in
  ∃ st1,
    schedule_queue_init (Some 50) 7 st = Ok (0, st1)
    ∧ pri_bit (sched st1) 0 2 = Some true
    ∧ schedule_queue_destroy 7 st1
      = Ok (set_queues (<[7 := set_q_token None None e]> (queues st)) st).
Proof.
  intros e st.
  destruct (queue_attach_detach 50 7 e st)
    as (st1 & pq & H1 & H2 & _ & _ & _ & _ & H3);
    [apply example_sched_wf | apply sched_init_mask_u8 | vm_done
    | simpl; lia | vm_done | vm_done |].
  exists st1. exact (conj H1 (conj H2 H3)).
Defined.

(** The first create after the initialisation. *)
Lemma group_create_fills_lowest_free_witness :
  ∃ s', odp_schedule_group_create [103] 1 example_sched = Ok (3, s')
        ∧ grp_named 3 ∧ grp_wf s'.
Proof.
  eexists.
  match goal with
  | |- ?lhs = Ok (?id, ?s') ∧ _ =>
      assert (lhs = Ok (id, s')) as Hc by (vm_compute; reflexivity)
  end.
  destruct (group_create_fills_lowest_free _ _ _ _ _ example_sched_grp_wf Hc)
    as [(Hinv & _)|(Hn & _ & g & _ & _ & _ & _ & Hwf)]; [done|].
  exact (conj Hc (conj Hn Hwf)).
Defined.

(** A create under the empty name. *)
Lemma empty_name_group_unusable_witness :
  ∃ s1, odp_schedule_group_create [] 1 example_sched = Ok (3, s1)
        ∧ odp_schedule_group_join 3 1 s1 = Ok (-1, s1)
        ∧ odp_schedule_group_thrmask 3 s1 = Ok (-1, None)
        ∧ ∃ s2, odp_schedule_group_create [103] 2 s1 = Ok (3, s2).
Proof.
  eexists.
  match goal with
  | |- ?lhs = Ok (?id, ?s') ∧ _ =>
      assert (lhs = Ok (id, s')) as Hc by (vm_compute; reflexivity)
  end.
  destruct (empty_name_group_unusable [] 1 example_sched _ _
              example_sched_grp_wf eq_refl Hc ltac:(done))
    as (_ & Hops & Hnext).
  destruct (Hops 1) as (_ & Hj & _ & Ht).
  exact (conj Hc (conj Hj (conj Ht (Hnext _ _)))).
Defined.

(** Group "g" is created with thread 0 and destroyed. *)
Lemma group_create_destroy_witness :
  ∃ s1 s2,
    odp_schedule_group_create [103] 1 example_sched = Ok (3, s1)
    ∧ odp_schedule_group_thrmask 3 s1 = Ok (0, Some 1)
    ∧ odp_schedule_group_destroy 3 s1 = Ok (0, s2)
    ∧ odp_schedule_group_thrmask 3 s2 = Ok (-1, None).
Proof.
  eexists _, _.
  match goal with
  | |- ?lhs = Ok (?id, ?s') ∧ _ =>
      assert (lhs = Ok (id, s')) as Hc by (vm_compute; reflexivity)
  end.
  destruct (group_create_destroy [103] 1 example_sched _ _
              example_sched_grp_wf ltac:(done) ltac:(simpl; lia) Hc
              ltac:(done)) as (Ht & Hd & Ht2 & _).
  exact (conj Hc (conj Ht (conj Hd Ht2))).
Defined.

(** The name "g" designates group 3, and the name "h" no group. *)
Lemma group_lookup_finds_first_witness :
  designates 3 [103] example_group
  ∧ grp_unnamed [104] example_group.
Proof.
  destruct (group_lookup_finds_first [103] example_group 3 example_group_wf)
    as [H1 _].
  destruct (group_lookup_finds_first [104] example_group (-1)
              example_group_wf) as [H2 _].
  split.
  - destruct H1 as [Hd|[Hinv _]]; [vm_done | exact Hd | done].
  - destruct H2 as [(_ & Hn & _)|[_ Hu]]; [vm_done | | exact Hu].
    unfold grp_named, _ODP_SCHED_GROUP_NAMED, ODP_SCHED_GROUP_CONTROL in Hn.
    lia.
Defined.

(** A lookup of the empty name after the initialisation. *)
Lemma group_lookup_empty_name_witness :
  odp_schedule_group_lookup [] example_sched = Ok 3
  ∧ grp_free 3 example_sched
  ∧ odp_schedule_group_join 3 1 example_sched = Ok (-1, example_sched).
Proof.
  assert (odp_schedule_group_lookup [] example_sched = Ok 3) as Hl
    by vm_done.
  destruct (group_lookup_empty_name [] example_sched 3 example_sched_grp_wf
              eq_refl Hl ltac:(done)) as (_ & Hf & Hops).
  destruct (Hops 1) as (_ & Hj & _).
  exact (conj Hl (conj Hf Hj)).
Defined.

(** The walk meets the command of the empty queue on lane 102. *)
Lemma empty_queue_sleeps_until_schedule_queue_witness :
  let st := example_sleeping in
  let st1 := set_lanes (<[102 := []]> (lanes st)) st in
  lane_loop 1 0 0 2 true 1 MAX_DEQ [] st
  = Ok (NotFound MAX_DEQ [(attached_queue SYNC_NONE [], MAX_DEQ)] st1)
  ∧ ∃ st2,
      schedule_queue 7 st1 = Ok (0, st2)
      ∧ lanes st2 = <[102 := [50]]> (lanes st).
Proof.
  intros st st1.
  destruct (empty_queue_sleeps_until_schedule_queue 0 0 0 2 true 1 MAX_DEQ
              [] st 4 102 50 [] 7 (attached_queue SYNC_NONE []))
    as (H1 & _ & st2 & H2 & H3 & _); [vm_done..|].
  split; [exact H1|]. exists st2. exact (conj H2 H3).
Defined.

(** Port 5 is started at priority 3 and retired at its first poll. *)
Lemma pktio_start_then_poll_witness :
  let st := example_idle example_sched in
  ∃ st1,
    schedule_pktio_start (ext := example_retiring_ext) (Some 60) 5 0 3 st
    = Ok (0, st1)
    ∧ lanes st1 !! 113 = Some [60]
    ∧ lane_loop (ext := example_retiring_ext) 1 0 3 1 true 1 MAX_DEQ [] st1
      = Ok (NotFound MAX_DEQ [] st).
Proof.
  intros st.
  destruct (pktio_start_then_poll (ext := example_retiring_ext)
              60 5 0 3 st 113 1)
    as (st1 & H1 & H2 & _ & _ & H3);
    [apply example_sched_wf | apply sched_init_mask_u8 | simpl; lia
    | vm_done | vm_done | vm_done | vm_done | done |].
  exists st1. split; [exact H1|]. split; [exact H2|].
  exact (H3 0%nat 0 true 1 MAX_DEQ []).
Defined.

(** Thread 0 is the member of group 3. *)
Lemma group_membership_decides_eligibility_witness :
  ∃ s1 s2,
    odp_schedule_group_join 3 1 example_group = Ok (0, s1)
    ∧ odp_schedule_group_leave 3 1 example_group = Ok (0, s2)
    ∧ not_eligible 0 3 s1 = Ok false
    ∧ not_eligible 0 3 s2 = Ok true.
Proof.
  destruct (group_membership_decides_eligibility 3 1 example_group 0)
    as (g & s1 & s2 & Hg & Hj & Hl & H1 & H2).
  - split; [unfold grp_named; vm_compute; split; [reflexivity | discriminate]|].
    eexists _, _. split_and!; vm_done.
  - simpl. lia.
  - exists s1, s2. vm_compute in Hg. injection Hg as <-.
    exact (conj Hj (conj Hl (conj H1 H2))).
Defined.

(** The only queue attached is one of priority 2. *)
Lemma schedule_serves_first_marked_priority_witness :
  ∃ o st', schedule 0 true 1 MAX_DEQ example_low_prio = Ok (o, st')
           ∧ out_ev o = [21].
Proof.
  eexists _, _. split.
  - apply (schedule_serves_first_marked_priority 0 true 1 MAX_DEQ
             example_low_prio 2 2).
    + unfold no_context. vm_done.
    + vm_done.
    + simpl. lia.
    + intros j Hj. assert (j = 0 ∨ j = 1) as [-> | ->] by lia; vm_done.
    + vm_done.
    + done.
    + vm_compute. reflexivity.
  - vm_done.
Defined.

(** A queue of priority 8 and a port of priority -1. *)
Lemma priority_out_of_range_is_undefined_witness :
  let e := {| q_handle := 1002; q_prio := 8; q_group := 0;
              q_sync := SYNC_NONE; q_lock_count := 0; q_sync_out := [];
              q_pri_queue := None; q_cmd_ev := None; q_events := [];
              q_destroyed := false |} in
  let st := set_queues {[ 7 := e ]} (example_idle example_sched) in
  schedule_queue_init (Some 50) 7 st = Fault UNDEFINED
  ∧ schedule_pktio_start (Some 60) 5 0 (-1) st = Fault UNDEFINED.
Proof.
  intros e st.
  apply (priority_out_of_range_is_undefined 50 7 e 5 0 (-1) st);
    [vm_done | vm_done | simpl; lia | simpl; lia].
Defined.

(** The state after the initialisation, in the linux-generic
    configuration. *)
Lemma init_global_leaves_no_group_witness :
  odp_schedule_group_lookup [103] example_sched
  = Ok ODP_SCHED_GROUP_INVALID
  ∧ ∃ s', odp_schedule_group_create [103] 1 example_sched
          = Ok (_ODP_SCHED_GROUP_NAMED, s').
Proof.
  destruct (init_global_leaves_no_group example_pri_q (λ _, 0))
    as (_ & _ & _ & _ & Hl & _ & Hc); [simpl; lia | vm_compute; done |].
  split; [by apply Hl | apply Hc].
Defined.

(** The drain of lane 102: the poll command is freed, the command of the
    queue is kept. *)
Lemma term_drain_empties_lane_witness :
  let tx := example_term_ext 0 0 0 in
  let st := example_to_drain in
  ∃ st', term_drain 2 102 st = Ok st'
         ∧ lanes st' = <[102 := []]> (lanes st)
         ∧ cmds st' !! 60 = None
         ∧ cmds st' !! 50 = Some (SCHED_CMD_DEQUEUE 7).
Proof.
  intros tx st.
  destruct (term_drain_empties_lane 102 [50; 60] st)
    as (st' & Hd & Hl & _ & _ & Hc & _).
  - vm_done.
  - eapply bool_decide_unpack. vm_compute. exact I.
  - unfold drainable. repeat constructor; vm_done.
  - exists st'. split; [exact Hd|]. split; [exact Hl|].
    rewrite !Hc. split; vm_done.
Defined.

